(** * Kentico Kontent SDKs: field mapping, rich-text resolution and helpers

    A shallow embedding of the pieces of the SDKs that carry their
    invariants:

    - [FieldMapService] (src/lib/models/element/responses.ts, second
      document): [mapFields], [mapField], [mapModularField],
      [mapRichTextField], [mapUrlSlugField], [mapRichTextLinks];
    - [RichTextResolver] (src/unnamed/part_007): [resolveData],
      [getLinkedItemHtml], [getImageResult], [tryGetImageFromLinkedItem],
      [getUrlSlugResult];
    - [GenericElementMapper] (src/dist/esnext/mappers/generic-element.mapper.js),
      [ElementQuery] (src/lib/query/element/element-query.class.ts),
      [ContentManagementContentItemActions] (src/unnamed/part_004) and
      [TextHelper] (src/unnamed/part_005, part_006).

    JavaScript objects are property lists in one name space and live in a
    store addressed by references, arrays that the code shares and mutates
    ([processedItems]) are part of the state, exceptions are explicit
    outcomes, and recursion that the source does not bound takes fuel. *)

From stdpp Require Import base strings list gmap.

Open Scope string_scope.
Open Scope list_scope.
Open Scope stdpp_scope.

(** ** JavaScript preliminaries *)

Module Js.

(** What a [throw] carries: [Error(msg)] raised by the SDK itself, or the
    [TypeError] the engine raises on [undefined.x] and on calling or
    iterating a non-function. *)
Inductive Exn :=
| Error (msg : string)
| TypeError (what : string).

(** Result of running a computation from a state [S]: it returns, it
    throws, or the recursion budget of the model is used up. *)
Inductive Outcome (S A : Type) :=
| Done (a : A) (s : S)
| Thrown (e : Exn) (s : S)
| OutOfFuel.
Arguments Done {S A} a s.
Arguments Thrown {S A} e s.
Arguments OutOfFuel {S A}.

Definition M (S A : Type) : Type := S → Outcome S A.

Definition ret {S A} (a : A) : M S A := λ s, Done a s.

Definition bind {S A B} (m : M S A) (k : A → M S B) : M S B :=
  λ s, match m s with
       | Done a s' => k a s'
       | Thrown e s' => Thrown e s'
       | OutOfFuel => OutOfFuel
       end.

Definition throw {S A} (e : Exn) : M S A := λ s, Thrown e s.

(** [m'] does what [m] does wherever [m] has the fuel to finish. *)
Definition extends {S A} (m m' : M S A) : Prop :=
  ∀ s, m s ≠ OutOfFuel → m' s = m s.

(** [array.forEach(f)] *)
Fixpoint forEach {S A} (l : list A) (f : A → M S unit) : M S unit :=
  match l with
  | [] => ret tt
  | x :: l' => bind (f x) (λ _, forEach l' f)
  end.

(** [array.forEach(f)] where the callback pushes onto a local array
    [acc] that the enclosing function returns afterwards. *)
Fixpoint forEach_push {S A B} (l : list A) (f : A → list B → M S (list B))
    (acc : list B) : M S (list B) :=
  match l with
  | [] => ret acc
  | x :: l' => bind (f x acc) (forEach_push l' f)
  end.

(** A flag that may be left out of a configuration object: [undefined]
    is falsy. *)
Definition flag (b : option bool) : bool :=
  match b with Some true => true | _ => false end.

(** JavaScript truthiness of a string: only [''] is falsy. *)
Definition nonempty (s : string) : bool := negb (String.eqb s EmptyString).

(** Own properties of an object, in enumeration order; a property is
    read by name and written in place, or appended when it is new. *)
Fixpoint get {V} (k : string) (o : list (string * V)) : option V :=
  match o with
  | [] => None
  | (k', v) :: o' => if String.eqb k' k then Some v else get k o'
  end.

Fixpoint set {V} (k : string) (v : V) (o : list (string * V)) : list (string * V) :=
  match o with
  | [] => [(k, v)]
  | (k', v') :: o' => if String.eqb k' k then (k', v) :: o' else (k', v') :: set k v o'
  end.

(** [Object.keys(o)] / [Object.getOwnPropertyNames(o)] *)
Definition keys {V} (o : list (string * V)) : list string := o.*1.

(** The names every object answers to without owning them: the members
    of [Object.prototype]. What is read under such a name is a function
    (the prototype itself for [__proto__]): a truthy value that has none
    of the properties the SDK looks for. *)
Definition objectPrototype : list string :=
  ["constructor"; "__proto__"; "hasOwnProperty"; "isPrototypeOf";
   "propertyIsEnumerable"; "toLocaleString"; "toString"; "valueOf";
   "__defineGetter__"; "__defineSetter__"; "__lookupGetter__"; "__lookupSetter__"].

Definition inherited (k : string) : bool := existsb (String.eqb k) objectPrototype.

End Js.

Export Js.

Declare Scope js_scope.
Delimit Scope js_scope with js.
Notation "x '<-' m ';;;' k" := (bind m (λ x, k))
  (at level 100, m at next level, right associativity) : js_scope.
Notation "m ';;;' k" := (bind m (λ _, k))
  (at level 100, right associativity) : js_scope.
Open Scope js_scope.

(** ** RichTextResolver (src/unnamed/part_007) *)

Module RichTextResolver.

(** The state of the resolver is the console it warns on. *)
Definition Console := list string.

Definition warn (msg : string) : M Console unit := λ c, Done tt (c ++ [msg]).

Record Image := { imageId : string; url : string }.

(** [Elements.RichTextElement]: what the resolver reads of it. *)
Record RichTextElement := {
  images : list Image;
  linkedItemCodenames : list string
}.

Record Link := {
  linkId : string;
  link_codename : string;
  link_type : string;
  urlSlug : string
}.

Record UrlSlugResult := { html : string; result_url : string }.

Record ImageResult := { image_url : string }.

Section Resolver.

(** Functions that an item carries ([_config.richTextResolver]) take
    the item itself; they are handles, run by [call]. *)
Variable Fn : Type.

(** A property of a content item, as the resolver tells them apart. *)
Inductive PropVal :=
| PUndefined                                 (* null, undefined, any falsy value *)
| PSystem (type : string)                    (* [system], with [system.type] *)
| PConfig (richTextResolver : option Fn)     (* [_config] *)
| PRichText (e : RichTextElement)            (* instanceof Elements.RichTextElement *)
| POther.                                    (* any other element or object *)

Definition ContentItem := list (string * PropVal).

Record ItemContext := { contentType : string }.

Variable call : Fn → ContentItem → ItemContext → string.

Record LinkContext := {
  linkText : string;
  item : option ContentItem;
  ctx_linkId : string
}.

Record QueryConfig := {
  throwErrorForMissingLinkedItems : option bool;
  richTextResolver : option Fn;
  urlSlugResolver : option (Link → LinkContext → option UrlSlugResult);
  richTextImageResolver : option (Image → string → ImageResult)
}.

Record Config := {
  enableAdvancedLogging : option bool;
  queryConfig : QueryConfig
}.

Definition truthy (v : option PropVal) : bool :=
  match v with
  | None | Some PUndefined => false
  | Some _ => true
  end.

(** [linkedItem[name]]: an own property of the item, or the member it
    inherits under that name. Typed items are instances of classes
    taken to declare no members of their own, so what they inherit is
    [constructor] and the other members of [Object.prototype]; none of
    them is a rich-text element. *)
Definition member (name : string) (o : ContentItem) : option PropVal :=
  match get name o with
  | Some v => Some v
  | None => if inherited name then Some POther else None
  end.

(** [images.find(m => m.imageId === imageId)] *)
Definition findImage (imageId' : string) (l : list Image) : option Image :=
  List.find (λ m, String.eqb (imageId m) imageId') l.

(** [links.find(m => m.linkId === itemId)] *)
Definition findLink (itemId : string) (l : list Link) : option Link :=
  List.find (λ m, String.eqb (linkId m) itemId) l.

(** The two loops of [tryGetImageFromLinkedItem], over a recursive
    call [rec]. [None] is a search that ran out of fuel, [Some None]
    is [undefined], [Some (Some image)] an early [return image]. *)
Section Search.
Variable rec : ContentItem → option (option Image).
Variable getLinkedItem : string → option ContentItem.

(** [for (const linkedItemCodename of richTextElementProperty.linkedItemCodenames)];
    [Some None] says the loop ended without returning. *)
Fixpoint linkedItemsLoop (codenames : list string) : option (option Image) :=
  match codenames with
  | [] => Some None
  | linkedItemCodename :: rest =>
      match getLinkedItem linkedItemCodename with
      | Some linkedItem =>
          match rec linkedItem with
          | None => None
          | Some (Some linkedImage) => Some (Some linkedImage)
          | Some None => linkedItemsLoop rest
          end
      | None => linkedItemsLoop rest
      end
  end.

(** [for (const propName of Object.keys(contentItem))] *)
Fixpoint propertiesLoop (imageId' : string) (contentItem : ContentItem)
    (names : list string) : option (option Image) :=
  match names with
  | [] => Some None
  | propName :: rest =>
      match get propName contentItem with
      | Some (PRichText richTextElementProperty) =>
          match findImage imageId' (images richTextElementProperty) with
          | Some image => Some (Some image)
          | None =>
              match linkedItemsLoop (linkedItemCodenames richTextElementProperty) with
              | None => None
              | Some (Some linkedImage) => Some (Some linkedImage)
              | Some None => propertiesLoop imageId' contentItem rest
              end
          end
      | _ => propertiesLoop imageId' contentItem rest
      end
  end.
End Search.

Fixpoint tryGetImageFromLinkedItem (fuel : nat) (imageId' : string)
    (contentItem : ContentItem) (getLinkedItem : string → option ContentItem)
    : option (option Image) :=
  match fuel with
  | 0 => None
  | S n =>
      propertiesLoop
        (λ linkedItem, tryGetImageFromLinkedItem n imageId' linkedItem getLinkedItem)
        getLinkedItem imageId' contentItem (keys contentItem)
  end.

Definition when (b : bool) (m : M Console unit) : M Console unit :=
  if b then m else ret tt.

(** [getImageResult(data)], [data] spread into arguments. *)
Definition getImageResult (fuel : nat) (config : Config)
    (getLinkedItem : string → option ContentItem)
    (itemCodename imageId' elementName : string) : M Console ImageResult :=
  match getLinkedItem itemCodename with
  | None =>
      if flag (throwErrorForMissingLinkedItems (queryConfig config)) then
        throw (Error ("Linked item with codename '" +:+ itemCodename +:+
                      "' was not found when resolving image with id '" +:+ imageId' +:+ "'"))
      else
        when (flag (enableAdvancedLogging config))
          (warn ("Cannot resolve image with id '" +:+ imageId' +:+
                 "' because linked item with codename '" +:+ itemCodename +:+
                 "' is not available. Empty image URL is returned.")) ;;;
        ret {| image_url := EmptyString |}
  | Some linkedItem =>
      let richTextElement := member elementName linkedItem in
      image <- (if truthy richTextElement then
                  match richTextElement with
                  | Some (PRichText e) => ret (findImage imageId' (images e))
                  | _ => throw (Error ("Linked item with codename '" +:+ itemCodename +:+
                                       "' has invalid element '" +:+ elementName +:+
                                       "'. This element is required to be of RichText type."))
                  end
                else ret None) ;;;
      image <- (match image with
                | Some i => ret (Some i)
                | None =>
                    λ c, match tryGetImageFromLinkedItem fuel imageId' linkedItem getLinkedItem with
                         | None => OutOfFuel
                         | Some r => Done r c
                         end
                end) ;;;
      match image with
      | None =>
          throw (Error ("Image with id '" +:+ imageId' +:+
                        "' was not found in images data for linked item '" +:+ itemCodename +:+
                        "' and element '" +:+ elementName +:+ "'"))
      | Some image =>
          match richTextImageResolver (queryConfig config) with
          | Some resolver => ret (resolver image elementName)
          | None => ret {| image_url := url image |}
          end
      end
  end.

(** [linkedItem._config && linkedItem._config.richTextResolver] *)
Definition itemRichTextResolver (linkedItem : ContentItem) : option Fn :=
  match get "_config" linkedItem with
  | Some (PConfig (Some r)) => Some r
  | _ => None
  end.

(** [getLinkedItemHtml(data)] *)
Definition getLinkedItemHtml (config : Config)
    (getLinkedItem : string → option ContentItem)
    (itemCodename itemType : string) : M Console string :=
  match getLinkedItem itemCodename with
  | None =>
      if flag (throwErrorForMissingLinkedItems (queryConfig config)) then
        throw (Error ("Linked item with codename '" +:+ itemCodename +:+
                      "' could not be found in response and therefore the HTML of rich text element could not be evaluated. Increasing 'depth' parameter of your query may solve this issue."))
      else
        when (flag (enableAdvancedLogging config))
          (warn ("Cannot resolve linked item '" +:+ itemCodename +:+
                 "' because it is not available in response. Increasing 'depth' parameter of query may help. Item is resolved to empty string.")) ;;;
        ret EmptyString
  | Some linkedItem =>
      let resolver :=
        match richTextResolver (queryConfig config) with
        | Some r => Some r
        | None => itemRichTextResolver linkedItem
        end in
      match resolver with
      | None =>
          if flag (enableAdvancedLogging config) then
            (* linkedItem.system.type *)
            match get "system" linkedItem with
            | Some (PSystem type) =>
                warn ("Cannot resolve html of '" +:+ type +:+ "' used by item '" +:+ itemCodename +:+
                      "' type in 'RichTextElement' because no rich text resolver was configured. Item is resolved to empty string.") ;;;
                ret EmptyString
            | None | Some PUndefined =>
                throw (TypeError "Cannot read properties of undefined (reading 'type')")
            | Some _ =>
                warn ("Cannot resolve html of 'undefined' used by item '" +:+ itemCodename +:+
                      "' type in 'RichTextElement' because no rich text resolver was configured. Item is resolved to empty string.") ;;;
                ret EmptyString
            end
          else ret EmptyString
      | Some resolver =>
          ret (call resolver linkedItem {| contentType := itemType |})
      end
  end.

(** [getUrlSlugResult(data)] *)
Definition getUrlSlugResult (config : Config) (links : list Link)
    (getLinkedItem : string → option ContentItem)
    (getGlobalUrlSlugResolver : string → option (Link → LinkContext → option UrlSlugResult))
    (itemId linkText' : string) : M Console UrlSlugResult :=
  match findLink itemId links with
  | None =>
      when (flag (enableAdvancedLogging config))
        (warn ("Cannot resolve URL for item '" +:+ itemId +:+
               "' because no link with this id was found.")) ;;;
      ret {| html := EmptyString; result_url := EmptyString |}
  | Some existingLink =>
      let linkedItem := getLinkedItem (link_codename existingLink) in
      let linkContext :=
        {| linkText := linkText'; item := linkedItem; ctx_linkId := itemId |} in
      let fromQuery :=
        match urlSlugResolver (queryConfig config) with
        | Some queryUrlSlugResolver => queryUrlSlugResolver existingLink linkContext
        | None => None
        end in
      match fromQuery with
      | Some queryUrlSlugResult => ret queryUrlSlugResult
      | None =>
          let fromGlobal :=
            match getGlobalUrlSlugResolver (link_type existingLink) with
            | Some globalUrlSlugResolver => globalUrlSlugResolver existingLink linkContext
            | None => None
            end in
          match fromGlobal with
          | Some globalUrlSlugResolverResult => ret globalUrlSlugResolverResult
          | None =>
              when (flag (enableAdvancedLogging config))
                (warn ("Url for item of '" +:+ link_type existingLink +:+ "' type with id '" +:+
                       linkId existingLink +:+
                       "' wasn't resolved. This might be caused by missing 'urlSlugResolver' for given type.")) ;;;
              ret {| html := EmptyString; result_url := EmptyString |}
          end
      end
  end.

End Resolver.

(** *** [resolveData], the entry point of the resolver *)

(** What the HTML parser reports back: the resolved markup and, for
    every linked item or component it met, the codename and the kind of
    item. *)
Record ParsedLinkedItem := { dataCodename : string; itemType : string }.

Record ParseResult := {
  resolvedHtml : string;
  linkedItems : list ParsedLinkedItem
}.

(** The three callbacks the parser is handed. *)
Module Callbacks.
Record t := {
  getUrlSlugResult : string → string → M Console UrlSlugResult;
  getLinkedItemHtml : string → string → M Console string;
  getImageResult : string → string → string → M Console ImageResult
}.
End Callbacks.

(** The configuration object the parser is handed. *)
Module ParserConfig.
Record t (Fn : Type) := {
  enableAdvancedLogging : option bool;
  queryConfig : QueryConfig Fn;
  linkedItemWrapperTag : option string;
  linkedItemWrapperClasses : option (list string)
}.
End ParserConfig.

(** [IRichTextHtmlParser.resolveRichTextElement], which is not among the
    sources: any function of the codename, the markup, the element name,
    the callbacks and the configuration that may warn, throw and call
    the callbacks as it likes. *)
Definition Parser (Fn : Type) : Type :=
  string → string → string → Callbacks.t → ParserConfig.t Fn → M Console ParseResult.

(** The [data] argument of [resolveData]. *)
Module Data.
Record t (Fn : Type) := {
  enableAdvancedLogging : option bool;
  queryConfig : QueryConfig Fn;
  linkedItemWrapperTag : option string;
  linkedItemWrapperClasses : option (list string);
  richTextHtmlParser : Parser Fn;
  links : list Link;
  getLinkedItem : string → option (ContentItem Fn);
  getGlobalUrlSlugResolver : string → option (Link → LinkContext Fn → option UrlSlugResult);
  images : list Image
}.
End Data.

(** What [resolveData] returns. *)
Module ResolvedData.
Record t := {
  html : string;
  componentCodenames : list string;
  linkedItemCodenames : list string
}.
End ResolvedData.

(** The [config] that [resolveData] prepares; it also holds the two
    wrapper settings, which no function of the resolver reads. *)
Definition resolverConfig (Fn : Type) (data : Data.t Fn) : Config Fn :=
  {| enableAdvancedLogging := Data.enableAdvancedLogging Fn data;
     queryConfig := Data.queryConfig Fn data |}.

(** The callbacks [resolveData] hands to the parser: the three other
    methods of the resolver, closed over [config] and [data].
    [getImageResult] is also handed [data.images] and the markup, which
    it never reads. *)
Definition callbacks (Fn : Type) (call : Fn → ContentItem Fn → ItemContext → string)
    (fuel : nat) (data : Data.t Fn) : Callbacks.t :=
  let config := resolverConfig Fn data in
  {| Callbacks.getUrlSlugResult := λ itemId linkText',
       getUrlSlugResult Fn config (Data.links Fn data) (Data.getLinkedItem Fn data)
         (Data.getGlobalUrlSlugResolver Fn data) itemId linkText';
     Callbacks.getLinkedItemHtml := λ itemCodename itemType',
       getLinkedItemHtml Fn call config (Data.getLinkedItem Fn data) itemCodename itemType';
     Callbacks.getImageResult := λ itemCodename imageId' xElementName,
       getImageResult Fn fuel config (Data.getLinkedItem Fn data)
         itemCodename imageId' xElementName |}.

(** The configuration it hands to the parser. *)
Definition parserConfig (Fn : Type) (data : Data.t Fn) : ParserConfig.t Fn :=
  {| ParserConfig.enableAdvancedLogging := Data.enableAdvancedLogging Fn data;
     ParserConfig.queryConfig := Data.queryConfig Fn data;
     ParserConfig.linkedItemWrapperTag := Data.linkedItemWrapperTag Fn data;
     ParserConfig.linkedItemWrapperClasses := Data.linkedItemWrapperClasses Fn data |}.

(** [resolveData(contentItemCodename, html, elementName, data)] *)
Definition resolveData (Fn : Type) (call : Fn → ContentItem Fn → ItemContext → string)
    (fuel : nat) (contentItemCodename html' elementName : string) (data : Data.t Fn)
    : M Console ResolvedData.t :=
  result <-
    Data.richTextHtmlParser Fn data contentItemCodename html' elementName
      (callbacks Fn call fuel data) (parserConfig Fn data) ;;;
  ret {| ResolvedData.html := resolvedHtml result;
         ResolvedData.componentCodenames :=
           map dataCodename
             (List.filter (λ m, String.eqb (itemType m) "component") (linkedItems result));
         ResolvedData.linkedItemCodenames :=
           map dataCodename
             (List.filter (λ m, String.eqb (itemType m) "linkedItem") (linkedItems result)) |}.

End RichTextResolver.

(** ** FieldMapService (src/lib/models/element/responses.ts) *)

Module FieldMapService.

(** *** Raw response data *)

(** [item.system] of the raw item and of the typed item built from it. *)
Module System.
Record t := { id : string; name : string; codename : string; type : string }.
End System.

(** [field.value] is [any]; the mapper looks at its truthiness, and for a
    linked-items field iterates it as an array of codenames. [RVStrings]
    is an array, kept as the property keys its entries stand for (the
    codenames of a linked-items field), [RVObject] a JSON object that is
    not an array. For every other field the mapper hands the value on
    without reading it. *)
Inductive RawValue :=
| RVNull
| RVString (s : string)
| RVNumber (n : Z)
| RVStrings (l : list string)
| RVObject.

Definition value_truthy (v : RawValue) : bool :=
  match v with
  | RVNull => false
  | RVString s => nonempty s
  | RVNumber n => negb (Z.eqb n 0)
  | RVStrings _ | RVObject => true
  end.

(** An entry of [field.links], keyed by the id of the linked item. *)
Module RawLink.
Record t := { codename : string; type : string; url_slug : string }.
End RawLink.

(** [FieldInterfaces.IField] and [IRichTextField]. [modular_content] is
    [None] when it is missing or not an array: both skip the loop. *)
Module IField.
Record t := {
  name : string;
  type : string;
  value : RawValue;
  taxonomy_group : option string;
  modular_content : option (list string);
  links : option (list (string * RawLink.t))
}.
End IField.

(** A raw item; [elements] lists the element codenames in the order
    [Object.getOwnPropertyNames] gives them, an element that is JSON
    [null] is [None]. *)
Record RawItem := {
  system : option System.t;
  elements : option (list (string * option IField.t))
}.

(** Modelled from the spec: the [FieldType] enumeration that
    fields/field-type.ts declares, which is not among the sources; its
    members are the closed set of type strings (text, number, datetime,
    multiple_choice, asset, rich_text, url_slug, taxonomy,
    modular_content). *)
Module FieldType.
Definition text := "text".
Definition number := "number".
Definition datetime := "datetime".
Definition multiple_choice := "multiple_choice".
Definition asset := "asset".
Definition rich_text := "rich_text".
Definition url_slug := "url_slug".
Definition taxonomy := "taxonomy".
Definition modular_content := "modular_content".
Definition all : list string :=
  [text; number; datetime; multiple_choice; asset; rich_text; url_slug;
   taxonomy; modular_content].
End FieldType.

(** [Link] of models/item/link.class.ts *)
Module Link.
Record t := { linkId : string; codename : string; type : string; url_slug : string }.
End Link.

(** *** Typed items *)

(** A reference to a typed item: its index in the store. *)
Abbreviation ref := nat.

(** What a property of a typed item can hold: the members
    [IContentItem] declares and the field objects and arrays the mapper
    assigns. A field object of fields/field-types.ts is kept as the
    arguments its constructor was given. *)
#[local] Unset Elimination Schemes.
Inductive JsVal :=
| JNull
| JSystem (s : System.t)
| JDebug
| JPropertyResolver (f : string → option string)
| JLinkResolver (f : Link.t → string)
| JRichTextResolver
| TextField (name : string) (value : RawValue)
| AssetsField (name : string) (value : RawValue)
| NumberField (name : string) (value : RawValue)
| MultipleChoiceField (name : string) (value : RawValue)
| DateTimeField (name : string) (value : RawValue)
| TaxonomyField (name : string) (value : RawValue) (taxonomy_group : option string)
| UrlSlugField (name : string) (value : RawValue) (item : ref)
    (linkResolver : option JsVal) (enableAdvancedLogging : bool)
| RichTextField (name : string) (value : RawValue) (modularItems : list ref)
    (links : list Link.t) (enableAdvancedLogging : bool)
| JArray (items : list ref).
#[local] Set Elimination Schemes.

(** A typed content item is a JavaScript object. *)
Definition ContentItem := list (string * JsVal).

(** The references a property value holds. *)
Definition refs_of (v : JsVal) : list ref :=
  match v with
  | UrlSlugField _ _ item _ _ => [item]
  | RichTextField _ _ modularItems _ _ => modularItems
  | JArray items => items
  | _ => []
  end.

(** *** Collaborators that are not among the sources *)

Record DeliveryClientConfig := { enableAdvancedLogging : bool }.

Record IItemQueryConfig := { linkResolver : option (Link.t → string) }.

(** [TypeResolverService]: whether a type has a registered class, and
    the two constructors of typed items. *)
Record TypeResolverService := {
  hasTypeResolver : string → bool;
  createTypedObj : string → RawItem → ContentItem;
  createContentItem : RawItem → ContentItem
}.

(** What [this] and the module scope give the mapper;
    [getPropertyName] is [FieldDecorators.getPropertyName]. The
    constructors of [Fields.AssetsField] and [Fields.TaxonomyField]
    (fields/field-types.ts, not among the sources) may reject their
    arguments: [assetsFieldThrows] and [taxonomyFieldThrows] give the
    error the constructor throws for them, [None] when it returns. *)
Record Collaborators := {
  config : DeliveryClientConfig;
  typeResolverService : TypeResolverService;
  getPropertyName : ContentItem → string → option string;
  assetsFieldThrows : string → RawValue → option Exn;
  taxonomyFieldThrows : string → RawValue → option string → option Exn
}.

(** *** State *)

(** The store of typed items, the [processedItems] array that every
    call of one mapping pass shares, and the console. *)
Record Heap := {
  store : list ContentItem;
  processed : list ref;
  console : list string
}.

Definition empty_heap : Heap := {| store := []; processed := []; console := [] |}.

(** What a caller passes as [processedItems]: a falsy value, a truthy
    value that is not an array, or the shared array. *)
Inductive ProcessedArg := PFalsy | PNotArray | PArray.

Definition warn (msg : string) : M Heap unit :=
  λ h, Done tt {| store := store h; processed := processed h; console := console h ++ [msg] |}.

Definition when (b : bool) (m : M Heap unit) : M Heap unit :=
  if b then m else ret tt.

(** [new C(...)]: the new object gets the next reference. *)
Definition alloc (o : ContentItem) : M Heap ref :=
  λ h, Done (length (store h))
            {| store := store h ++ [o]; processed := processed h; console := console h |}.

Definition read (r : ref) : M Heap ContentItem :=
  λ h, match store h !! r with
       | Some o => Done o h
       | None => Thrown (TypeError "dangling reference") h
       end.

(** [obj[propertyName] = v], for a property name other than
    [__proto__]. *)
Definition set_property (r : ref) (propertyName : string) (v : JsVal) : M Heap unit :=
  λ h, match store h !! r with
       | Some o => Done tt {| store := <[r := set propertyName v o]> (store h);
                              processed := processed h; console := console h |}
       | None => Thrown (TypeError "dangling reference") h
       end.

(** [processedItems.push(r)] *)
Definition push_processed (r : ref) : M Heap unit :=
  λ h, Done tt {| store := store h; processed := processed h ++ [r]; console := console h |}.

(** [m.system.codename === target.system.codename] for one element [m]
    of [processedItems]: [None] is the [TypeError] of reading [codename]
    off [undefined] or [null]. A [system] property that holds anything
    but system attributes has no [codename]. *)
Definition same_codename (st : list ContentItem) (target : option System.t) (m : ref)
    : option bool :=
  match st !! m ≫= get "system" with
  | None | Some JNull => None
  | Some v =>
      match target with
      | None => None
      | Some t =>
          Some match v with
               | JSystem s => String.eqb (System.codename s) (System.codename t)
               | _ => false
               end
      end
  end.

(** [processedItems.find(m => m.system.codename === target.system.codename)] *)
Fixpoint find_in (st : list ContentItem) (target : option System.t) (ps : list ref)
    : option (option ref) :=
  match ps with
  | [] => Some None
  | m :: ps' =>
      match same_codename st target m with
      | None => None
      | Some true => Some (Some m)
      | Some false => find_in st target ps'
      end
  end.

Definition find_processed (target : option System.t) : M Heap (option ref) :=
  λ h, match find_in (store h) target (processed h) with
       | Some r => Done r h
       | None => Thrown (TypeError "Cannot read properties of undefined (reading 'codename')") h
       end.

(** What [modularContent[codename]] gives when the payload has no item
    of that codename but every object answers to the name: a function or
    the prototype object, which is truthy and has neither [system] nor
    [elements]. *)
Definition prototypeMember : RawItem := {| system := None; elements := None |}.

(** [modularContent[codename]]: the item the payload holds under the
    codename, the member the payload object inherits under that name, or
    [undefined]. *)
Definition payloadItem (modularContent : gmap string RawItem) (codename : string)
    : option RawItem :=
  match modularContent !! codename with
  | Some item => Some item
  | None => if inherited codename then Some prototypeMember else None
  end.

(** *** The mapper *)

Section Mapper.

Variable this : Collaborators.

(** The recursive reference [this.mapFields]. *)
Variable mapFields :
  option RawItem → gmap string RawItem → IItemQueryConfig → ProcessedArg → M Heap ref.

Definition logging : bool := enableAdvancedLogging (config this).

Definition mapDateTimeField (field : IField.t) : JsVal :=
  DateTimeField (IField.name field) (IField.value field).

Definition mapMultipleChoiceField (field : IField.t) : JsVal :=
  MultipleChoiceField (IField.name field) (IField.value field).

Definition mapNumberField (field : IField.t) : JsVal :=
  NumberField (IField.name field) (IField.value field).

Definition mapTextField (field : IField.t) : JsVal :=
  TextField (IField.name field) (IField.value field).

(** [new Fields.AssetsField(field.name, field.value)]: the constructor
    throws, or the field object is built. *)
Definition mapAssetsField (field : IField.t) : M Heap JsVal :=
  match assetsFieldThrows this (IField.name field) (IField.value field) with
  | Some e => throw e
  | None => ret (AssetsField (IField.name field) (IField.value field))
  end.

(** [new Fields.TaxonomyField(field.name, field.value, field.taxonomy_group)],
    likewise. *)
Definition mapTaxonomyField (field : IField.t) : M Heap JsVal :=
  match taxonomyFieldThrows this (IField.name field) (IField.value field)
          (IField.taxonomy_group field) with
  | Some e => throw e
  | None =>
      ret (TaxonomyField (IField.name field) (IField.value field)
             (IField.taxonomy_group field))
  end.

(** The query's link resolver has priority over the item's own; the
    item's is whatever its [linkResolver] property holds. *)
Definition getLinkResolverForUrlSlugField (item : ContentItem)
    (queryConfig : IItemQueryConfig) : option JsVal :=
  match linkResolver queryConfig with
  | Some f => Some (JLinkResolver f)
  | None => get "linkResolver" item
  end.

Definition mapUrlSlugField (field : IField.t) (item : ref)
    (queryConfig : IItemQueryConfig) : M Heap JsVal :=
  o <- read item ;;;
  let linkResolver := getLinkResolverForUrlSlugField o queryConfig in
  ret (UrlSlugField (IField.name field) (IField.value field) item linkResolver logging).

Definition mapRichTextLinks (linksJson : option (list (string * RawLink.t)))
    : M Heap (list Link.t) :=
  match linksJson with
  | None => throw (TypeError "Cannot convert undefined or null to object")
  | Some linksJson =>
      ret (map (λ '(linkItemId, linkRaw),
                  {| Link.linkId := linkItemId;
                     Link.codename := RawLink.codename linkRaw;
                     Link.type := RawLink.type linkRaw;
                     Link.url_slug := RawLink.url_slug linkRaw |})
               linksJson)
  end.

(** The callback of [fieldModularContent.forEach] in [mapModularField]:
    a codename the payload does not answer to is skipped, an item that is
    registered is taken from [processedItems], any other is mapped. What
    the payload inherits under the codename is truthy as well: the search
    of [processedItems] then reads [codename] off its missing [system],
    and [mapFields] rejects it. *)
Definition linkedItemStep (field : IField.t) (modularContent : gmap string RawItem)
    (queryConfig : IItemQueryConfig) (modularItemCodename : string)
    (modularContentItems : list ref) : M Heap (list ref) :=
  match payloadItem modularContent modularItemCodename with
  | None =>
      when logging
        (warn ("Cannot map '" +:+ IField.name field +:+
               "' modular content item. Make sure you use 'DepthParameter' in case your modular content is nested.")) ;;;
      ret modularContentItems
  | Some modularItem =>
      processedItem <- find_processed (system modularItem) ;;;
      match processedItem with
      | Some processedItem => ret (modularContentItems ++ [processedItem])
      | None =>
          newModularItem <- mapFields (Some modularItem) modularContent queryConfig PArray ;;;
          ret (modularContentItems ++ [newModularItem])
      end
  end.

Definition mapModularField (field : option IField.t)
    (modularContent : gmap string RawItem) (queryConfig : IItemQueryConfig)
    : M Heap JsVal :=
  match field with
  | None =>
      when logging (warn "Cannot map modular content field because field does not exist") ;;;
      ret JNull
  | Some field =>
      if negb (value_truthy (IField.value field)) then
        when logging
          (warn ("Cannot map modular content of '" +:+ IField.name field +:+
                 "' because its value does not exist")) ;;;
        ret JNull
      else
        match IField.value field with
        | RVStrings fieldModularContent =>
            modularContentItems <-
              forEach_push fieldModularContent
                (linkedItemStep field modularContent queryConfig) [] ;;;
            ret (JArray modularContentItems)
        | _ => throw (TypeError "fieldModularContent.forEach is not a function")
        end
  end.

(** The callback of [field.modular_content.forEach] in
    [mapRichTextField]: a codename the payload does not answer to is an
    error, whatever else it holds under the codename is handed to
    [mapFields]. *)
Definition embeddedItemStep (field : IField.t) (modularContent : gmap string RawItem)
    (queryConfig : IItemQueryConfig) (codename : string) (modularItems : list ref)
    : M Heap (list ref) :=
  match payloadItem modularContent codename with
  | None =>
      throw (Error ("Modular content item with codename '" +:+ codename +:+
"' is not present in Delivery response.
                        This modular item was requested by '" +:+ IField.name field +:+
"' field.
                        Error can usually be solved by increasing 'Depth' parameter of your query."))
  | Some modularContentItem =>
      modularItem <- mapFields (Some modularContentItem) modularContent queryConfig PArray ;;;
      ret (modularItems ++ [modularItem])
  end.

Definition mapRichTextField (field : IField.t)
    (modularContent : gmap string RawItem) (queryConfig : IItemQueryConfig)
    : M Heap JsVal :=
  modularItems <-
    match IField.modular_content field with
    | None => ret []
    | Some codenames =>
        forEach_push codenames (embeddedItemStep field modularContent queryConfig) []
    end ;;;
  links <- mapRichTextLinks (IField.links field) ;;;
  ret (RichTextField (IField.name field) (IField.value field) modularItems links logging).

Definition mapField (field : option IField.t) (modularContent : gmap string RawItem)
    (item : ref) (queryConfig : IItemQueryConfig) : M Heap JsVal :=
  match field with
  | None => throw (TypeError "Cannot read properties of null (reading 'type')")
  | Some f =>
      let type := IField.type f in
      if String.eqb type FieldType.modular_content then
        mapModularField field modularContent queryConfig
      else if String.eqb type FieldType.text then ret (mapTextField f)
      else if String.eqb type FieldType.asset then mapAssetsField f
      else if String.eqb type FieldType.number then ret (mapNumberField f)
      else if String.eqb type FieldType.multiple_choice then ret (mapMultipleChoiceField f)
      else if String.eqb type FieldType.datetime then ret (mapDateTimeField f)
      else if String.eqb type FieldType.rich_text then
        mapRichTextField f modularContent queryConfig
      else if String.eqb type FieldType.url_slug then mapUrlSlugField f item queryConfig
      else if String.eqb type FieldType.taxonomy then mapTaxonomyField f
      else
        let err := "Unsupported field type '" +:+ type +:+ "'" in
        when logging (warn err) ;;;
        throw (Error err)
  end.

(** A property name that is [undefined], [null] or [''] is falsy. *)
Definition name_truthy (n : option string) : bool :=
  match n with
  | Some s => nonempty s
  | None => false
  end.

(** The three naming strategies of the [forEach] callback of
    [mapFields], for the typed item as it is when the field is
    reached. *)
Definition resolvePropertyName (o : ContentItem) (fieldName : string) : M Heap string :=
  propertyName <-
    match get "propertyResolver" o with
    | None | Some JNull => ret None
    | Some (JPropertyResolver f) => ret (f fieldName)
    | Some _ => throw (TypeError "itemTyped.propertyResolver is not a function")
    end ;;;
  let propertyName :=
    if name_truthy propertyName then propertyName
    else getPropertyName this o fieldName in
  ret (match propertyName with
       | Some s => if nonempty s then s else fieldName
       | None => fieldName
       end).

(** The guards that open [mapFields], in the order of the source;
    past them the item has its system attributes and its elements. *)
Definition checkArguments (item : option RawItem) (processedItems : ProcessedArg)
    : M Heap (RawItem * System.t * list (string * option IField.t)) :=
  match item with
  | None => throw (Error "Cannot map fields because item is not defined")
  | Some item =>
  match system item with
  | None =>
      throw (Error "Cannot map item because it does not contain system attributes. This is an essential field and every item should have one.")
  | Some sys =>
  match elements item with
  | None =>
      throw (Error ("Cannot map elements of item with codename '" +:+ System.codename sys +:+ "'"))
  | Some elements =>
  match processedItems with
  | PFalsy => throw (Error "ProcessedItems need to be initialized")
  | PNotArray => throw (Error "ProcessedItems need to be an array of 'IContentItems'")
  | PArray => ret (item, sys, elements)
  end end end end.

(** The typed object of an item: of the registered class of its type
    when there is one, a plain content item otherwise. *)
Definition newTypedItem (sys : System.t) (item : RawItem) : ContentItem :=
  if hasTypeResolver (typeResolverService this) (System.type sys)
  then createTypedObj (typeResolverService this) (System.type sys) item
  else createContentItem (typeResolverService this) item.

(** The callback of [properties.forEach] in [mapFields]. *)
Definition mapProperty (elements : list (string * option IField.t))
    (modularContent : gmap string RawItem) (queryConfig : IItemQueryConfig)
    (itemTyped : ref) (fieldName : string) : M Heap unit :=
  let field := default None (get fieldName elements) in
  o <- read itemTyped ;;;
  propertyName <- resolvePropertyName o fieldName ;;;
  v <- mapField field modularContent itemTyped queryConfig ;;;
  set_property itemTyped propertyName v.

(** One call of [mapFields]. *)
Definition mapFields_body (item : option RawItem) (modularContent : gmap string RawItem)
    (queryConfig : IItemQueryConfig) (processedItems : ProcessedArg) : M Heap ref :=
  checked <- checkArguments item processedItems ;;;
  let '(item, sys, elements) := checked in
  let properties := keys elements in
  itemTyped <- alloc (newTypedItem sys item) ;;;
  processedItem <- find_processed (Some sys) ;;;
  match processedItem with
  | None => push_processed itemTyped
  | Some _ => ret tt
  end ;;;
  forEach properties (mapProperty elements modularContent queryConfig itemTyped) ;;;
  ret itemTyped.

End Mapper.

(** [mapFields]: each nested call of [this.mapFields] takes one unit of
    fuel. *)
Fixpoint mapFields (this : Collaborators) (fuel : nat) (item : option RawItem)
    (modularContent : gmap string RawItem) (queryConfig : IItemQueryConfig)
    (processedItems : ProcessedArg) : M Heap ref :=
  match fuel with
  | 0 => λ _, OutOfFuel
  | S n => mapFields_body this (mapFields this n) item modularContent queryConfig processedItems
  end.

End FieldMapService.

(** ** GenericElementMapper (src/dist/esnext/mappers/generic-element.mapper.js) *)

Module GenericElementMapper.

(** The element contract of the response: [options] is left out for
    elements that have none. The options themselves are handed on
    unread. *)
Module Contract.
Record t (O : Type) := {
  codename : string;
  name : string;
  type : string;
  options : option (list O);
  taxonomy_group : option string
}.
End Contract.

(** [GenericElement], kept as the data its constructor is given. *)
Module GenericElement.
Record t (O : Type) := {
  codename : string;
  name : string;
  type : string;
  options : list O;
  taxonomyGroup : option string
}.
End GenericElement.

(** [mapElement(response)]; [None] is a falsy response. *)
Definition mapElement {O : Type} (response : option (Contract.t O))
    : Exn + GenericElement.t O :=
  match response with
  | None => inl (Error "Invalid response for mapping element")
  | Some response =>
      inr {| GenericElement.codename := Contract.codename O response;
             GenericElement.name := Contract.name O response;
             GenericElement.type := Contract.type O response;
             GenericElement.options :=
               match Contract.options O response with
               | Some options => options
               | None => []
               end;
             GenericElement.taxonomyGroup := Contract.taxonomy_group O response |}
  end.

End GenericElementMapper.

(** ** ElementQuery (src/lib/query/element/element-query.class.ts) *)

Module ElementQuery.

(** The two codenames a query keeps; the client configuration and the
    query service it also keeps are not read by the code below. *)
Record t := { typeCodename : string; elementCodename : string }.

(** The constructor. *)
Definition new (typeCodename' elementCodename' : string) : Exn + t :=
  if negb (nonempty typeCodename') then
    inl (Error "Codename of the type has to be provided")
  else if negb (nonempty elementCodename') then
    inl (Error "Codename of the element has to be provided")
  else inr {| typeCodename := typeCodename'; elementCodename := elementCodename' |}.

(** The [action] of [getUrl]. *)
Definition action (this : t) : string :=
  "/types/" +:+ typeCodename this +:+ "/elements/" +:+ elementCodename this.

(** [getUrl()], over [resolveUrlInternal] of the base query, which is
    not among the sources. *)
Definition getUrl (resolveUrlInternal : string → string) (this : t) : string :=
  resolveUrlInternal (action this).

End ElementQuery.

(** ** ContentManagementContentItemActions (src/unnamed/part_004) *)

Module ContentManagementContentItemActions.

Definition validateProjectContent : string := "validate".
Definition listContentTypes : string := "types".
Definition viewContentTypeByInternalId (id : string) : string := "types/" +:+ id.
Definition deleteContentTypeByCodename (codename : string) : string := "types/codename/" +:+ codename.
Definition deleteContentTypeByInternalId (id : string) : string := "types/" +:+ id.
Definition viewContentTypeByCodename (codename : string) : string := "types/codename/" +:+ codename.
Definition addTaxonomy : string := "taxonomies".
Definition deleteTaxonomyByCodename (codename : string) : string := "taxonomies/codename/" +:+ codename.
Definition deleteTaxonomyByInternalId (id : string) : string := "taxonomies/" +:+ id.
Definition deleteTaxonomyByExternalId (id : string) : string := "taxonomies/external-id/" +:+ id.
Definition listTaxonomies : string := "taxonomies".
Definition addAsset : string := "assets".
Definition updateAsset (assetId : string) : string := "assets/" +:+ assetId.
Definition deleteAssetByCodename (codename : string) : string := "assets/codename/" +:+ codename.
Definition deleteAssetByInternalId (id : string) : string := "assets/" +:+ id.
Definition deleteAssetByExternalId (id : string) : string := "assets/external-id/" +:+ id.
Definition upsertAsset (assetExternalId : string) : string := "assets/external-id/" +:+ assetExternalId.
Definition uploadBinaryFile (filename : string) : string := "files/" +:+ filename.
Definition listAssets : string := "assets".
Definition viewAssetByInternalId (id : string) : string := "assets/" +:+ id.
Definition viewAssetByExternalId (id : string) : string := "assets/external-id/" +:+ id.
Definition items : string := "items".
Definition viewContentItemByCodename (codename : string) : string := "items/codename/" +:+ codename.
Definition viewContentItemByInternalId (id : string) : string := "items/" +:+ id.
Definition viewContentItemByExternalId (id : string) : string := "items/external-id/" +:+ id.
Definition addContentItem : string := "items".
Definition updateContentItemByCodename (codename : string) : string := "items/codename/" +:+ codename.
Definition updateContentItemByInternalId (id : string) : string := "items/" +:+ id.
Definition updateContentItemByExternalId (id : string) : string := "items/external-id/" +:+ id.
Definition deleteContentItemByCodename (codename : string) : string := "items/codename/" +:+ codename.
Definition deleteContentItemByInternalId (id : string) : string := "items/" +:+ id.
Definition deleteContentItemByExternalId (id : string) : string := "items/external-id/" +:+ id.
Definition listLanguageVariantsByCodename (codename : string) : string :=
  "items/codename/" +:+ codename +:+ "/variants".
Definition listLanguageVariantsByInternalId (id : string) : string :=
  "items/" +:+ id +:+ "/variants".
Definition listLanguageVariantsByExternalId (id : string) : string :=
  "items/external-id/" +:+ id +:+ "/variants".

End ContentManagementContentItemActions.

(** ** TextHelper (src/unnamed/part_005 and part_006) *)

Module TextHelper.

(** A JavaScript string is a sequence of UTF-16 code units; a regular
    expression without the [u] flag matches them one by one. *)
Definition JsString := list N.

(** An item of a character class: a single code unit, a range, or the
    escape [\s]. *)
Inductive ClassAtom :=
| Lit (c : N)
| Range (lo hi : N)
| WhiteSpace.

(** The regular expression [/[class]+(.)?/g], one or more code units
    of a class followed by an optional captured code unit: kept as its
    class. *)
Record RegExp := { separators : list ClassAtom }.

(** [\s]: the white space and line terminator code units of
    ECMAScript. *)
Definition isWhiteSpace (c : N) : bool :=
  (((0x0009 <=? c) && (c <=? 0x000D)) || (c =? 0x0020) || (c =? 0x00A0) ||
   (c =? 0x1680) || ((0x2000 <=? c) && (c <=? 0x200A)) || (c =? 0x2028) ||
   (c =? 0x2029) || (c =? 0x202F) || (c =? 0x205F) || (c =? 0x3000) || (c =? 0xFEFF))%N.

Definition atomMatches (a : ClassAtom) (c : N) : bool :=
  match a with
  | Lit c' => (c =? c')%N
  | Range lo hi => ((lo <=? c) && (c <=? hi))%N
  | WhiteSpace => isWhiteSpace c
  end.

Definition classMatches (class : list ClassAtom) (c : N) : bool :=
  existsb (λ a, atomMatches a c) class.

(** [str.replace(/[class]/g, '')]: every code unit of the class is
    dropped. *)
Definition replaceAllWithEmpty (class : list ClassAtom) (str : JsString) : JsString :=
  List.filter (λ c, negb (classMatches class c)) str.

(** part_005: the class of [getPropertyNameRegex] lists, each escaped
    with a backslash, the question mark, hyphen, equals sign, apostrophe,
    double quote, section sign, exclamation mark, percent sign, colon and
    underscore, then [\s] and the dot. *)
Definition getPropertyNameRegex : RegExp :=
  {| separators :=
       [Lit 0x3F; Lit 0x2D; Lit 0x3D; Lit 0x27; Lit 0x22; Lit 0xA7; Lit 0x21; Lit 0x25;
        Lit 0x3A; Lit 0x5F; WhiteSpace; Lit 0x2E] |}.

(** part_005: [str.replace(/[\u200B-\u200D\uFEFF]/g, '')] *)
Definition removeZeroWidthCharacters (str : JsString) : JsString :=
  replaceAllWithEmpty [Range 0x200B 0x200D; Lit 0xFEFF] str.

(** part_006: the class lists, unescaped, the hyphen, equals sign,
    apostrophe, double quote, section sign, exclamation mark and percent
    sign, then colon, hyphen, underscore, then [\s] and the dot; between
    the colon and the underscore the hyphen makes a range. *)
Definition getPropertyNameRegex_part_006 : RegExp :=
  {| separators :=
       [Lit 0x2D; Lit 0x3D; Lit 0x27; Lit 0x22; Lit 0xA7; Lit 0x21; Lit 0x25;
        Range 0x3A 0x5F; WhiteSpace; Lit 0x2E] |}.

End TextHelper.

(** ** Paths and their segments *)

Module UrlPaths.
Import Stdlib.Strings.Ascii.

(** The string holds no slash. *)
Fixpoint slashFree (s : string) : bool :=
  match s with
  | EmptyString => true
  | String c s' => negb (Ascii.eqb c "/"%char) && slashFree s'
  end.

(** The segments of a path: the pieces between its slashes. *)
Fixpoint segments (s : string) : list string :=
  match s with
  | EmptyString => [EmptyString]
  | String c s' =>
      if Ascii.eqb c "/"%char then EmptyString :: segments s'
      else match segments s' with
           | seg :: rest => String c seg :: rest
           | [] => [String c EmptyString]
           end
  end.

End UrlPaths.

(** ** The actions of the management API and the resources they address *)

Module ManagementRoutes.
Import ContentManagementContentItemActions UrlPaths.

(** A call of one method of [ContentManagementContentItemActions]. *)
Inductive Action :=
| ValidateProjectContent
| ListContentTypes
| ViewContentTypeByInternalId (id : string)
| DeleteContentTypeByCodename (codename : string)
| DeleteContentTypeByInternalId (id : string)
| ViewContentTypeByCodename (codename : string)
| AddTaxonomy
| DeleteTaxonomyByCodename (codename : string)
| DeleteTaxonomyByInternalId (id : string)
| DeleteTaxonomyByExternalId (id : string)
| ListTaxonomies
| AddAsset
| UpdateAsset (assetId : string)
| DeleteAssetByCodename (codename : string)
| DeleteAssetByInternalId (id : string)
| DeleteAssetByExternalId (id : string)
| UpsertAsset (assetExternalId : string)
| UploadBinaryFile (filename : string)
| ListAssets
| ViewAssetByInternalId (id : string)
| ViewAssetByExternalId (id : string)
| Items
| ViewContentItemByCodename (codename : string)
| ViewContentItemByInternalId (id : string)
| ViewContentItemByExternalId (id : string)
| AddContentItem
| UpdateContentItemByCodename (codename : string)
| UpdateContentItemByInternalId (id : string)
| UpdateContentItemByExternalId (id : string)
| DeleteContentItemByCodename (codename : string)
| DeleteContentItemByInternalId (id : string)
| DeleteContentItemByExternalId (id : string)
| ListLanguageVariantsByCodename (codename : string)
| ListLanguageVariantsByInternalId (id : string)
| ListLanguageVariantsByExternalId (id : string).

(** The path the call returns. *)
Definition path (a : Action) : string :=
  match a with
  | ValidateProjectContent => validateProjectContent
  | ListContentTypes => listContentTypes
  | ViewContentTypeByInternalId id => viewContentTypeByInternalId id
  | DeleteContentTypeByCodename codename => deleteContentTypeByCodename codename
  | DeleteContentTypeByInternalId id => deleteContentTypeByInternalId id
  | ViewContentTypeByCodename codename => viewContentTypeByCodename codename
  | AddTaxonomy => addTaxonomy
  | DeleteTaxonomyByCodename codename => deleteTaxonomyByCodename codename
  | DeleteTaxonomyByInternalId id => deleteTaxonomyByInternalId id
  | DeleteTaxonomyByExternalId id => deleteTaxonomyByExternalId id
  | ListTaxonomies => listTaxonomies
  | AddAsset => addAsset
  | UpdateAsset assetId => updateAsset assetId
  | DeleteAssetByCodename codename => deleteAssetByCodename codename
  | DeleteAssetByInternalId id => deleteAssetByInternalId id
  | DeleteAssetByExternalId id => deleteAssetByExternalId id
  | UpsertAsset assetExternalId => upsertAsset assetExternalId
  | UploadBinaryFile filename => uploadBinaryFile filename
  | ListAssets => listAssets
  | ViewAssetByInternalId id => viewAssetByInternalId id
  | ViewAssetByExternalId id => viewAssetByExternalId id
  | Items => items
  | ViewContentItemByCodename codename => viewContentItemByCodename codename
  | ViewContentItemByInternalId id => viewContentItemByInternalId id
  | ViewContentItemByExternalId id => viewContentItemByExternalId id
  | AddContentItem => addContentItem
  | UpdateContentItemByCodename codename => updateContentItemByCodename codename
  | UpdateContentItemByInternalId id => updateContentItemByInternalId id
  | UpdateContentItemByExternalId id => updateContentItemByExternalId id
  | DeleteContentItemByCodename codename => deleteContentItemByCodename codename
  | DeleteContentItemByInternalId id => deleteContentItemByInternalId id
  | DeleteContentItemByExternalId id => deleteContentItemByExternalId id
  | ListLanguageVariantsByCodename codename => listLanguageVariantsByCodename codename
  | ListLanguageVariantsByInternalId id => listLanguageVariantsByInternalId id
  | ListLanguageVariantsByExternalId id => listLanguageVariantsByExternalId id
  end.

(** What an action addresses: a kind of resource, as a whole or one of
    its members by internal id, codename, external id or file name, and
    for a content item possibly its language variants. Actions that differ
    in the HTTP verb only address the same resource. *)
Inductive Resource := Validation | ContentTypes | Taxonomies | Assets | Files | ContentItems.

Inductive KeyKind := InternalId | Codename | ExternalId | FileName.

Inductive Address :=
| Whole
| Key (kind : KeyKind) (value : string).

Record Endpoint := { resource : Resource; address : Address; variants : bool }.

Definition endpoint (a : Action) : Endpoint :=
  match a with
  | ValidateProjectContent =>
      {| resource := Validation; address := Whole; variants := false |}
  | ListContentTypes =>
      {| resource := ContentTypes; address := Whole; variants := false |}
  | ViewContentTypeByInternalId id =>
      {| resource := ContentTypes; address := Key InternalId id; variants := false |}
  | DeleteContentTypeByCodename codename =>
      {| resource := ContentTypes; address := Key Codename codename; variants := false |}
  | DeleteContentTypeByInternalId id =>
      {| resource := ContentTypes; address := Key InternalId id; variants := false |}
  | ViewContentTypeByCodename codename =>
      {| resource := ContentTypes; address := Key Codename codename; variants := false |}
  | AddTaxonomy =>
      {| resource := Taxonomies; address := Whole; variants := false |}
  | DeleteTaxonomyByCodename codename =>
      {| resource := Taxonomies; address := Key Codename codename; variants := false |}
  | DeleteTaxonomyByInternalId id =>
      {| resource := Taxonomies; address := Key InternalId id; variants := false |}
  | DeleteTaxonomyByExternalId id =>
      {| resource := Taxonomies; address := Key ExternalId id; variants := false |}
  | ListTaxonomies =>
      {| resource := Taxonomies; address := Whole; variants := false |}
  | AddAsset =>
      {| resource := Assets; address := Whole; variants := false |}
  | UpdateAsset assetId =>
      {| resource := Assets; address := Key InternalId assetId; variants := false |}
  | DeleteAssetByCodename codename =>
      {| resource := Assets; address := Key Codename codename; variants := false |}
  | DeleteAssetByInternalId id =>
      {| resource := Assets; address := Key InternalId id; variants := false |}
  | DeleteAssetByExternalId id =>
      {| resource := Assets; address := Key ExternalId id; variants := false |}
  | UpsertAsset assetExternalId =>
      {| resource := Assets; address := Key ExternalId assetExternalId; variants := false |}
  | UploadBinaryFile filename =>
      {| resource := Files; address := Key FileName filename; variants := false |}
  | ListAssets =>
      {| resource := Assets; address := Whole; variants := false |}
  | ViewAssetByInternalId id =>
      {| resource := Assets; address := Key InternalId id; variants := false |}
  | ViewAssetByExternalId id =>
      {| resource := Assets; address := Key ExternalId id; variants := false |}
  | Items =>
      {| resource := ContentItems; address := Whole; variants := false |}
  | ViewContentItemByCodename codename =>
      {| resource := ContentItems; address := Key Codename codename; variants := false |}
  | ViewContentItemByInternalId id =>
      {| resource := ContentItems; address := Key InternalId id; variants := false |}
  | ViewContentItemByExternalId id =>
      {| resource := ContentItems; address := Key ExternalId id; variants := false |}
  | AddContentItem =>
      {| resource := ContentItems; address := Whole; variants := false |}
  | UpdateContentItemByCodename codename =>
      {| resource := ContentItems; address := Key Codename codename; variants := false |}
  | UpdateContentItemByInternalId id =>
      {| resource := ContentItems; address := Key InternalId id; variants := false |}
  | UpdateContentItemByExternalId id =>
      {| resource := ContentItems; address := Key ExternalId id; variants := false |}
  | DeleteContentItemByCodename codename =>
      {| resource := ContentItems; address := Key Codename codename; variants := false |}
  | DeleteContentItemByInternalId id =>
      {| resource := ContentItems; address := Key InternalId id; variants := false |}
  | DeleteContentItemByExternalId id =>
      {| resource := ContentItems; address := Key ExternalId id; variants := false |}
  | ListLanguageVariantsByCodename codename =>
      {| resource := ContentItems; address := Key Codename codename; variants := true |}
  | ListLanguageVariantsByInternalId id =>
      {| resource := ContentItems; address := Key InternalId id; variants := true |}
  | ListLanguageVariantsByExternalId id =>
      {| resource := ContentItems; address := Key ExternalId id; variants := true |}
  end.

(** The segments of the path to an endpoint: the name of the resource,
    then what addresses the member, then [variants]. *)
Definition resourceName (r : Resource) : string :=
  match r with
  | Validation => "validate"
  | ContentTypes => "types"
  | Taxonomies => "taxonomies"
  | Assets => "assets"
  | Files => "files"
  | ContentItems => "items"
  end.

Definition route (e : Endpoint) : list string :=
  resourceName (resource e) ::
  match address e with
  | Whole => []
  | Key InternalId value | Key FileName value => [value]
  | Key Codename value => ["codename"; value]
  | Key ExternalId value => ["external-id"; value]
  end ++ (if variants e then ["variants"] else []).

(** The words that the paths themselves use right after the resource. *)
Definition reservedWord (s : string) : bool :=
  String.eqb s "codename" || String.eqb s "external-id".

(** An identifier as the service issues them: it holds no slash, and an
    internal id is not one of the reserved words. *)
Definition wellFormed (a : Action) : bool :=
  match address (endpoint a) with
  | Whole => true
  | Key InternalId value => slashFree value && negb (reservedWord value)
  | Key _ value => slashFree value
  end.

End ManagementRoutes.

(** * Specification vocabulary *)

(** ** The graph a rich-text element is resolved against *)

Module RichTextGraph.
Import RichTextResolver.

Arguments PUndefined {Fn}.
Arguments PSystem {Fn} type.
Arguments PConfig {Fn} richTextResolver.
Arguments PRichText {Fn} e.
Arguments POther {Fn}.

Section Graph.
Context {Fn : Type}.
Variable getLinkedItem : string → option (ContentItem Fn).

(** The rich-text elements of an item, as the property loop of
    [tryGetImageFromLinkedItem] meets them. *)
Definition richTextElements (it : ContentItem Fn) : list RichTextElement :=
  flat_map (λ k, match get k it with
                 | Some (PRichText e) => [e]
                 | _ => []
                 end) (keys it).

(** [it] embeds [it']: a rich-text element of [it] lists a codename
    that [getLinkedItem] resolves to [it']. *)
Definition embeds (it it' : ContentItem Fn) : Prop :=
  ∃ e c, e ∈ richTextElements it ∧ c ∈ linkedItemCodenames e ∧
         getLinkedItem c = Some it'.

(** [it'] is reachable from [it] through embeddings. *)
Definition embedded_from : ContentItem Fn → ContentItem Fn → Prop := rtc embeds.

(** No rich-text element of any item reachable from [it] has an image
    with this id. *)
Definition image_absent (id : string) (it : ContentItem Fn) : Prop :=
  ∀ it' e img, embedded_from it it' → e ∈ richTextElements it' →
               img ∈ images e → imageId img ≠ id.

(** The items reachable from [it] embed one another without a cycle:
    [rank] goes down along every embedding. *)
Definition ranked (rank : ContentItem Fn → nat) (it : ContentItem Fn) : Prop :=
  ∀ it1 it2, embedded_from it it1 → embeds it1 it2 → rank it2 < rank it1.

(** What the item answers under the name of a placeholder's element is
    a rich-text element or falsy: not another element, and not a member
    the item inherits. *)
Definition rich_text_or_missing (elementName : string) (it : ContentItem Fn) : Prop :=
  match member Fn elementName it with
  | None | Some PUndefined | Some (PRichText _) => True
  | Some _ => False
  end.
End Graph.

(** The errors and warnings of the resolver, by the name the
    specification gives them. *)
Definition LinkedItemNotFound (itemCodename : string) : Exn :=
  Error ("Linked item with codename '" +:+ itemCodename +:+
         "' could not be found in response and therefore the HTML of rich text element could not be evaluated. Increasing 'depth' parameter of your query may solve this issue.").

Definition linkedItemMissingWarning (itemCodename : string) : string :=
  "Cannot resolve linked item '" +:+ itemCodename +:+
  "' because it is not available in response. Increasing 'depth' parameter of query may help. Item is resolved to empty string.".

Definition ImageNotFound (imageId' itemCodename elementName : string) : Exn :=
  Error ("Image with id '" +:+ imageId' +:+
         "' was not found in images data for linked item '" +:+ itemCodename +:+
         "' and element '" +:+ elementName +:+ "'").

Definition imageItemMissingWarning (imageId' itemCodename : string) : string :=
  "Cannot resolve image with id '" +:+ imageId' +:+
  "' because linked item with codename '" +:+ itemCodename +:+
  "' is not available. Empty image URL is returned.".

Definition noResolverWarning (type itemCodename : string) : string :=
  "Cannot resolve html of '" +:+ type +:+ "' used by item '" +:+ itemCodename +:+
  "' type in 'RichTextElement' because no rich text resolver was configured. Item is resolved to empty string.".

Definition missingLinkWarning (itemId : string) : string :=
  "Cannot resolve URL for item '" +:+ itemId +:+ "' because no link with this id was found.".

(** Running [o] from console [c] left a diagnostic on it. *)
Definition emits_diagnostic {A} (c : Console) (o : Outcome Console A) : Prop :=
  ∃ a msg c', o = Done a (c ++ msg :: c').

(** Example data. Resolver functions are named by strings, and running
    one renders its name and the context it is given. [hero] has one
    rich-text element [bio] that holds no image and embeds nothing, and
    declares the resolver [own]. *)
Definition render (f : string) (_ : ContentItem string) (ctx : ItemContext) : string :=
  "<" +:+ f +:+ " " +:+ contentType ctx +:+ ">".

Definition hero : ContentItem string :=
  [("system", PSystem "person");
   ("_config", PConfig (Some "own"));
   ("bio", PRichText {| images := []; linkedItemCodenames := [] |})].

(** An item whose rich text embeds the item itself. *)
Definition narcissus : ContentItem string :=
  [("system", PSystem "person");
   ("bio", PRichText {| images := []; linkedItemCodenames := ["narcissus"] |})].

Definition onlyNarcissus (codename : string) : option (ContentItem string) :=
  if String.eqb codename "narcissus" then Some narcissus else None.

Definition onlyHero (codename : string) : option (ContentItem string) :=
  if String.eqb codename "hero" then Some hero else None.

(** An item that has neither system attributes nor a resolver. *)
Definition anonymous : ContentItem string :=
  [("bio", PRichText {| images := []; linkedItemCodenames := [] |})].

Definition onlyAnonymous (codename : string) : option (ContentItem string) :=
  if String.eqb codename "anonymous" then Some anonymous else None.

Definition noGlobalResolver (type : string)
    : option (Link → LinkContext string → option UrlSlugResult) := None.

Definition query (strict : option bool) (perQuery : option string) : QueryConfig string :=
  {| throwErrorForMissingLinkedItems := strict; richTextResolver := perQuery;
     urlSlugResolver := None; richTextImageResolver := None |}.

Definition quiet (q : QueryConfig string) : Config string :=
  {| enableAdvancedLogging := None; queryConfig := q |}.

Definition verbose (q : QueryConfig string) : Config string :=
  {| enableAdvancedLogging := Some true; queryConfig := q |}.

End RichTextGraph.

(** ** The response a mapping pass runs on *)

Module MappingSpec.
Import FieldMapService.

(** The errors of the mapper, by the name the specification gives them. *)
Definition MalformedResponse_system : Exn :=
  Error "Cannot map item because it does not contain system attributes. This is an essential field and every item should have one.".

Definition MalformedResponse_elements (codename : string) : Exn :=
  Error ("Cannot map elements of item with codename '" +:+ codename +:+ "'").

Definition ProcessedItemsGuard (processedItems : ProcessedArg) : Exn :=
  match processedItems with
  | PFalsy => Error "ProcessedItems need to be initialized"
  | _ => Error "ProcessedItems need to be an array of 'IContentItems'"
  end.

Definition unsupportedFieldType (type : string) : string :=
  "Unsupported field type '" +:+ type +:+ "'".

Definition modularItemMissing (codename fieldName : string) : Exn :=
  Error ("Modular content item with codename '" +:+ codename +:+
"' is not present in Delivery response.
                        This modular item was requested by '" +:+ fieldName +:+
"' field.
                        Error can usually be solved by increasing 'Depth' parameter of your query.").

Definition modularItemDropped (fieldName : string) : string :=
  "Cannot map '" +:+ fieldName +:+
  "' modular content item. Make sure you use 'DepthParameter' in case your modular content is nested.".

(** The heap after [msgs] were written to the console. *)
Definition logged (msgs : list string) (h : Heap) : Heap :=
  {| store := store h; processed := processed h; console := console h ++ msgs |}.

(** A field with another value. *)
Definition with_value (f : IField.t) (v : RawValue) : IField.t :=
  {| IField.name := IField.name f; IField.type := IField.type f; IField.value := v;
     IField.taxonomy_group := IField.taxonomy_group f;
     IField.modular_content := IField.modular_content f; IField.links := IField.links f |}.

Definition present (mc : gmap string RawItem) (codename : string) : bool :=
  bool_decide (is_Some (mc !! codename)).

(** [modularContent[codename]] is truthy: an item of the payload, or a
    member the payload object inherits. *)
Definition answers (mc : gmap string RawItem) (codename : string) : bool :=
  present mc codename || inherited codename.

(** *** Typed items and the processed-items array *)

(** The codename a reference answers to in [processedItems.find]. *)
Definition codename_of (st : list ContentItem) (r : ref) : option string :=
  match st !! r ≫= get "system" with
  | Some (JSystem s) => Some (System.codename s)
  | _ => None
  end.

(** The codenames of [processedItems], in order. *)
Definition pcodes (h : Heap) : list string := omap (codename_of (store h)) (processed h).

(** [r] is registered under [c]. *)
Definition registered (h : Heap) (c : string) (r : ref) : Prop :=
  r ∈ processed h ∧ codename_of (store h) r = Some c.


(** Property names that an element must not be assigned to: those the
    mapper itself reads off a typed item, and [__proto__], assigning to
    which replaces the prototype of the item instead of creating a
    property. *)
Definition reserved (n : string) : bool :=
  String.eqb n "system" || String.eqb n "propertyResolver" || String.eqb n "__proto__".

Definition name_ok (n : option string) : Prop :=
  match n with
  | Some s => reserved s = false
  | None => True
  end.

(** The [propertyResolver] of a typed item is missing or is a function
    that never names a reserved property. *)
Definition resolver_ok (o : ContentItem) : Prop :=
  match get "propertyResolver" o with
  | None | Some JNull => True
  | Some (JPropertyResolver f) => ∀ k, name_ok (f k)
  | Some _ => False
  end.

Definition good_object (o : ContentItem) : Prop :=
  (∃ s, get "system" o = Some (JSystem s)) ∧ resolver_ok o.

(** What the mapper relies on from the type registry and the decorators:
    a new typed item carries the system attributes of its raw item, holds
    no reference yet, and no naming strategy names a reserved property. *)
Record registry_ok (this : Collaborators) : Prop := {
  created_system : ∀ s X, system X = Some s →
                          get "system" (newTypedItem this s X) = Some (JSystem s);
  created_resolver : ∀ s X, resolver_ok (newTypedItem this s X);
  created_no_refs : ∀ s X k v, (k, v) ∈ newTypedItem this s X → refs_of v = [];
  decorators_ok : ∀ o k, name_ok (getPropertyName this o k)
}.

(** *** Graphs linked through linked-items fields *)

(** A listed codename is an item of the payload, or a name the payload
    does not answer to at all: it is not left to the prototype. *)
Definition own_or_absent (mc : gmap string RawItem) (codename : string) : bool :=
  present mc codename || negb (inherited codename).

(** The constructor returns. *)
Definition returns (thrown : option Exn) : bool :=
  match thrown with
  | None => true
  | Some _ => false
  end.

(** A field the mapper converts without an error and without entering a
    rich-text embed: a linked-items field whose value is falsy or an
    array of codenames none of which is left to the prototype of the
    payload, a rich-text field that lists no modular content, an asset or
    taxonomy field whose constructor accepts the value, or a field of any
    other supported type. *)
Definition field_ok (this : Collaborators) (mc : gmap string RawItem)
    (f : option IField.t) : bool :=
  match f with
  | None => false
  | Some f =>
      if String.eqb (IField.type f) FieldType.modular_content then
        match IField.value f with
        | RVStrings l => forallb (own_or_absent mc) l
        | v => negb (value_truthy v)
        end
      else if String.eqb (IField.type f) FieldType.rich_text then
        match IField.modular_content f, IField.links f with
        | None, Some _ | Some [], Some _ => true
        | _, _ => false
        end
      else if String.eqb (IField.type f) FieldType.asset then
        returns (assetsFieldThrows this (IField.name f) (IField.value f))
      else if String.eqb (IField.type f) FieldType.taxonomy then
        returns (taxonomyFieldThrows this (IField.name f) (IField.value f)
                   (IField.taxonomy_group f))
      else bool_decide (IField.type f ∈ FieldType.all)
  end.

(** The codenames a linked-items field lists. *)
Definition field_links (f : option IField.t) : list string :=
  match f with
  | Some f =>
      if String.eqb (IField.type f) FieldType.modular_content then
        match IField.value f with
        | RVStrings l => l
        | _ => []
        end
      else []
  | None => []
  end.

Definition field_of (els : list (string * option IField.t)) (k : string) : option IField.t :=
  default None (get k els).

(** The codenames an item links to, over its elements as [mapFields]
    enumerates them. *)
Definition item_links (X : RawItem) : list string :=
  match elements X with
  | Some els => flat_map (λ k, field_links (field_of els k)) (keys els)
  | None => []
  end.

Definition item_ok (this : Collaborators) (mc : gmap string RawItem) (X : RawItem) : bool :=
  match system X, elements X with
  | Some _, Some els =>
      forallb (λ k, negb (reserved k) && field_ok this mc (field_of els k)) (keys els)
  | _, _ => false
  end.

(** A response whose items are linked through linked-items fields: the
    root and every item of the payload are well formed, and the payload
    is keyed by the codenames of its items. *)
Record graph_ok (this : Collaborators) (mc : gmap string RawItem) (root : RawItem)
    : Prop := {
  root_ok : item_ok this mc root = true;
  items_ok : ∀ c X, mc !! c = Some X →
                    item_ok this mc X = true ∧ System.codename <$> system X = Some c
}.

(** The item that a codename stands for in a pass from [root]. *)
Definition item_of (mc : gmap string RawItem) (root : RawItem) (c : string) : option RawItem :=
  if bool_decide (System.codename <$> system root = Some c) then Some root else mc !! c.



(** *** Invariant of a pass *)

Record Inv (h : Heap) : Prop := {
  inv_objects : ∀ o, o ∈ store h → good_object o;
  inv_valid : ∀ r, r ∈ processed h → r < length (store h);
  inv_nodup : NoDup (pcodes h);
  inv_closed : ∀ o k v r, o ∈ store h → (k, v) ∈ o → r ∈ refs_of v → r ∈ processed h
}.

(** The heap only grows: [processedItems] is appended to, and a stored
    item keeps its codename. *)
Definition evolves (h h' : Heap) : Prop :=
  processed h `prefix_of` processed h' ∧
  ∀ r c, codename_of (store h) r = Some c → codename_of (store h') r = Some c.

(** Every registered item that is not on the stack of calls in progress
    has all the items it links to registered. *)
Definition finished (mc : gmap string RawItem) (root : RawItem) (stack : list string)
    (h : Heap) : Prop :=
  ∀ c X c', c ∈ pcodes h → c ∉ stack → item_of mc root c = Some X →
            c' ∈ item_links X → is_Some (mc !! c') → c' ∈ pcodes h.

(** The codenames a pass from [root] can register, and how many of them
    are not registered yet. *)
Definition universe (mc : gmap string RawItem) (root : RawItem) : gset string :=
  dom mc ∪ match system root with
           | Some s => {[System.codename s]}
           | None => ∅
           end.

Definition remaining (mc : gmap string RawItem) (root : RawItem) (h : Heap) : nat :=
  size (universe mc root ∖ list_to_set (pcodes h)).

(** The root is registered, or is the item being mapped. *)
Definition root_known (root : RawItem) (c : string) (h : Heap) : Prop :=
  ∀ c0, System.codename <$> system root = Some c0 → c0 = c ∨ c0 ∈ pcodes h.

(** What a call of [mapFields] on the item of codename [c] establishes. *)
Definition call_post (mc : gmap string RawItem) (root : RawItem) (stack : list string)
    (c : string) (h : Heap) (r : ref) (h' : Heap) : Prop :=
  Inv h' ∧ evolves h h' ∧ registered h' c r ∧ finished mc root stack h'.

(** The recursive reference maps every item that is not registered yet,
    as long as no more than [budget] codenames remain. *)
Definition call_ok (mc : gmap string RawItem) (root : RawItem) (qc : IItemQueryConfig)
    (rec : option RawItem → gmap string RawItem → IItemQueryConfig → ProcessedArg → M Heap ref)
    (budget : nat) : Prop :=
  ∀ stack X s h,
    Inv h → item_of mc root (System.codename s) = Some X → system X = Some s →
    System.codename s ∉ pcodes h → root_known root (System.codename s) h →
    (remaining mc root h ≤ budget)%nat → finished mc root stack h →
    ∃ r h', rec (Some X) mc qc PArray h = Done r h' ∧
            call_post mc root stack (System.codename s) h r h'.

(** A heap from which the fields of an item on the stack can be mapped. *)
Definition ready (mc : gmap string RawItem) (root : RawItem) (budget : nat)
    (stack : list string) (h : Heap) : Prop :=
  Inv h ∧ (remaining mc root h ≤ budget)%nat ∧ finished mc root stack h ∧
  ∀ c0, System.codename <$> system root = Some c0 → c0 ∈ pcodes h.

(** *** Example data *)

Definition plainItem (X : RawItem) : ContentItem :=
  match system X with
  | Some s => [("system", JSystem s); ("debug", JDebug)]
  | None => [("debug", JDebug)]
  end.

(** A field constructor that accepts arrays only. *)
Definition arraysOnly (what : string) (v : RawValue) : option Exn :=
  match v with
  | RVStrings _ => None
  | _ => Some (Error (what +:+ ": the value is not an array"))
  end.

(** A mapper without registered types, property resolvers or decorators,
    whose asset and taxonomy fields accept arrays only. *)
Definition plainMapper (log : bool) : Collaborators :=
  {| config := {| enableAdvancedLogging := log |};
     typeResolverService :=
       {| hasTypeResolver := λ _, false;
          createTypedObj := λ _ X, plainItem X;
          createContentItem := plainItem |};
     getPropertyName := λ _ _, None;
     assetsFieldThrows := λ _, arraysOnly "AssetsField";
     taxonomyFieldThrows := λ _ v _, arraysOnly "TaxonomyField" v |}.

Definition noLinkResolver : IItemQueryConfig := {| linkResolver := None |}.

Definition sys (codename type : string) : System.t :=
  {| System.id := codename; System.name := codename;
     System.codename := codename; System.type := type |}.

Definition rawField (name type : string) (value : RawValue) (embeds : option (list string))
    : IField.t :=
  {| IField.name := name; IField.type := type; IField.value := value;
     IField.taxonomy_group := None; IField.modular_content := embeds;
     IField.links := Some [] |}.

Definition field (name type : string) (value : RawValue) (embeds : option (list string))
    : option IField.t :=
  Some (rawField name type value embeds).

(** Two persons that list each other as friends. *)
Definition ann : RawItem :=
  {| system := Some (sys "ann" "person");
     elements := Some [("name", field "Name" "text" (RVString "Ann") None);
                       ("friends", field "Friends" "modular_content" (RVStrings ["bob"]) None)] |}.

Definition bob : RawItem :=
  {| system := Some (sys "bob" "person");
     elements := Some [("name", field "Name" "text" (RVString "Bob") None);
                       ("friends", field "Friends" "modular_content" (RVStrings ["ann"]) None)] |}.

Definition friends : gmap string RawItem := <["ann" := ann]> (<["bob" := bob]> ∅).

(** An article that both lists [bob] as its author and embeds him in its
    rich text. *)
Definition article : RawItem :=
  {| system := Some (sys "article" "article");
     elements := Some [("author", field "Author" "modular_content" (RVStrings ["bob"]) None);
                       ("body", field "Body" "rich_text" (RVString "<object>") (Some ["bob"]))] |}.

(** [ann] and [bob] as mapped against [friends]: each holds the other. *)
Definition typedAnn : ContentItem :=
  [("system", JSystem (sys "ann" "person")); ("debug", JDebug);
   ("name", TextField "Name" (RVString "Ann")); ("friends", JArray [1])].

Definition typedFriendBob : ContentItem :=
  [("system", JSystem (sys "bob" "person")); ("debug", JDebug);
   ("name", TextField "Name" (RVString "Bob")); ("friends", JArray [0])].




(** [ann] with an element whose codename is [system]. *)
Definition shadowedAnn : RawItem :=
  {| system := Some (sys "ann" "person");
     elements := Some [("system", field "System" "text" (RVString "x") None);
                       ("friends", field "Friends" "modular_content" (RVStrings ["bob"]) None)] |}.

Definition team : gmap string RawItem := <["bob" := bob]> ∅.

(** [bob] as mapped against [team], which lacks his friend [ann], and the
    [article] as mapped against [team]: its author is the item at
    reference 1 and its rich text holds the one at reference 2. *)
Definition typedBob : ContentItem :=
  [("system", JSystem (sys "bob" "person")); ("debug", JDebug);
   ("name", TextField "Name" (RVString "Bob")); ("friends", JArray [])].

Definition typedArticle : ContentItem :=
  [("system", JSystem (sys "article" "article")); ("debug", JDebug);
   ("author", JArray [1]);
   ("body", RichTextField "Body" (RVString "<object>") [2] [] false)].

(** A teaser whose rich text embeds an item the payload lacks. *)
Definition teaserBody : IField.t :=
  rawField "Body" "rich_text" (RVString "<object>") (Some ["ghost"]).

(** A page whose rich text embeds the page itself. *)
Definition page : RawItem :=
  {| system := Some (sys "page" "page");
     elements := Some [("body", field "Body" "rich_text" (RVString "<object>") (Some ["page"]))] |}.

Definition pages : gmap string RawItem := <["page" := page]> ∅.

End MappingSpec.

(** ** More of the resolver's messages, and a graph with an image *)

Module ResolverVocabulary.
Import RichTextResolver RichTextGraph.

Definition InvalidElement (itemCodename elementName : string) : Exn :=
  Error ("Linked item with codename '" +:+ itemCodename +:+
         "' has invalid element '" +:+ elementName +:+
         "'. This element is required to be of RichText type.").

Definition ImageItemNotFound (itemCodename imageId' : string) : Exn :=
  Error ("Linked item with codename '" +:+ itemCodename +:+
         "' was not found when resolving image with id '" +:+ imageId' +:+ "'").

Definition unresolvedUrlWarning (link : Link) : string :=
  "Url for item of '" +:+ link_type link +:+ "' type with id '" +:+ linkId link +:+
  "' wasn't resolved. This might be caused by missing 'urlSlugResolver' for given type.".

Definition emptyUrlSlugResult : UrlSlugResult :=
  {| html := EmptyString; result_url := EmptyString |}.

(** The kinds of linked item [resolveData] sorts into its two lists. *)
Definition knownItemType (m : ParsedLinkedItem) : bool :=
  String.eqb (itemType m) "component" || String.eqb (itemType m) "linkedItem".

(** A gallery whose rich text embeds a painter, whose rich text holds a
    portrait. *)
Definition portrait : Image :=
  {| imageId := "img1"; url := "https://assets.example/portrait.png" |}.

Definition painter : ContentItem string :=
  [("system", PSystem "person");
   ("bio", PRichText {| images := [portrait]; linkedItemCodenames := [] |})].

Definition gallery : ContentItem string :=
  [("system", PSystem "gallery");
   ("name", POther);
   ("intro", PRichText {| images := []; linkedItemCodenames := ["painter"] |})].

Definition museum (codename : string) : option (ContentItem string) :=
  if String.eqb codename "painter" then Some painter
  else if String.eqb codename "gallery" then Some gallery
  else None.

(** A link to the hero, and resolvers that build a url from a prefix
    and the url slug of the link. *)
Definition heroLink : Link :=
  {| linkId := "7"; link_codename := "hero"; link_type := "person"; urlSlug := "hero-of-time" |}.

Definition slugResolver (prefix : string) (link : Link) (_ : LinkContext string)
    : option UrlSlugResult :=
  Some {| html := EmptyString; result_url := prefix +:+ urlSlug link |}.

Definition personResolver (type : string)
    : option (Link → LinkContext string → option UrlSlugResult) :=
  if String.eqb type "person" then Some (slugResolver "/people/") else None.

Definition queryWithSlugs (prefix : string) : QueryConfig string :=
  {| throwErrorForMissingLinkedItems := None; richTextResolver := None;
     urlSlugResolver := Some (slugResolver prefix); richTextImageResolver := None |}.

(** The number of codenames the rich text of an item lists. *)
Definition embedCount (it : ContentItem string) : nat :=
  length (flat_map linkedItemCodenames (richTextElements it)).

(** A parser that resolves nothing and reports what it is told to. *)
Definition reportingParser (found : list ParsedLinkedItem) : Parser string :=
  λ _ html' _ _ _, ret {| resolvedHtml := html'; linkedItems := found |}.

Definition museumData (found : list ParsedLinkedItem) : Data.t string :=
  {| Data.enableAdvancedLogging := None;
     Data.queryConfig := query None None;
     Data.linkedItemWrapperTag := None;
     Data.linkedItemWrapperClasses := None;
     Data.richTextHtmlParser := reportingParser found;
     Data.links := [];
     Data.getLinkedItem := museum;
     Data.getGlobalUrlSlugResolver := noGlobalResolver;
     Data.images := [] |}.

End ResolverVocabulary.

(** ** What a call of the mapper leaves behind *)

Module MappingLaws.
Import FieldMapService MappingSpec.

(** The heap a computation ends in, whether it returned or threw. *)
Definition final {A} (o : Outcome Heap A) : option Heap :=
  match o with
  | Done _ h | Thrown _ h => Some h
  | OutOfFuel => None
  end.

(** [h'] continues [h]: every typed item of [h] is there as it was, and
    [processedItems] and the console were only appended to. *)
Definition continues (h h' : Heap) : Prop :=
  store h `prefix_of` store h' ∧ processed h `prefix_of` processed h' ∧
  console h `prefix_of` console h'.

(** The same for the typed items below reference [n] only. *)
Definition grows (n : nat) (h h' : Heap) : Prop :=
  (∀ i, i < n → i < length (store h) → store h' !! i = store h !! i) ∧
  (length (store h) ≤ length (store h'))%nat ∧
  processed h `prefix_of` processed h' ∧ console h `prefix_of` console h'.

Definition keeps {A} (n : nat) (m : M Heap A) : Prop :=
  ∀ h h', final (m h) = Some h' → grows n h h'.

(** [X] embeds [Y] in its rich text: a rich-text element of [X] lists a
    codename that the payload resolves to [Y]. *)
Definition embeds_in_rich_text (mc : gmap string RawItem) (X Y : RawItem) : Prop :=
  ∃ els k f cs c,
    elements X = Some els ∧ k ∈ keys els ∧ field_of els k = Some f ∧
    IField.type f = FieldType.rich_text ∧ IField.modular_content f = Some cs ∧
    c ∈ cs ∧ mc !! c = Some Y.

(** No rich-text element of the item lists an item to embed. *)
Definition embeds_nothing (X : RawItem) : Prop :=
  ∀ els k f, elements X = Some els → k ∈ keys els → field_of els k = Some f →
             IField.type f = FieldType.rich_text →
             IField.modular_content f = None ∨ IField.modular_content f = Some [].

(** What the call added to [processedItems] are the typed items it
    created, in the order in which it created them. *)
Definition registers_created (h h' : Heap) : Prop :=
  (length (store h) ≤ length (store h'))%nat ∧
  processed h' =
    processed h ++ seq (length (store h)) (length (store h') - length (store h)).

(** The element types whose field object is built from the raw field
    alone, without a nested call of [mapFields]. *)
Definition value_types : list string :=
  [FieldType.text; FieldType.asset; FieldType.number; FieldType.multiple_choice;
   FieldType.datetime; FieldType.taxonomy; FieldType.url_slug].

(** The constructor that [mapField] calls for the element returns: an
    asset or taxonomy element has a value its constructor accepts. *)
Definition constructed (this : Collaborators) (f : IField.t) : Prop :=
  (IField.type f = FieldType.asset →
   assetsFieldThrows this (IField.name f) (IField.value f) = None) ∧
  (IField.type f = FieldType.taxonomy →
   taxonomyFieldThrows this (IField.name f) (IField.value f) (IField.taxonomy_group f) = None).

Definition value_field (this : Collaborators) (f : option IField.t) : Prop :=
  ∃ f', f = Some f' ∧ IField.type f' ∈ value_types ∧ constructed this f'.

(** The constructor of the element's field object throws [e]. *)
Definition rejected (this : Collaborators) (f : IField.t) (e : Exn) : Prop :=
  (IField.type f = FieldType.asset ∧
   assetsFieldThrows this (IField.name f) (IField.value f) = Some e) ∨
  (IField.type f = FieldType.taxonomy ∧
   taxonomyFieldThrows this (IField.name f) (IField.value f) (IField.taxonomy_group f) =
     Some e).

(** The element type a field object stands for, and the name and value
    it carries. *)
Definition class_of (v : JsVal) : option string :=
  match v with
  | TextField _ _ => Some FieldType.text
  | AssetsField _ _ => Some FieldType.asset
  | NumberField _ _ => Some FieldType.number
  | MultipleChoiceField _ _ => Some FieldType.multiple_choice
  | DateTimeField _ _ => Some FieldType.datetime
  | TaxonomyField _ _ _ => Some FieldType.taxonomy
  | UrlSlugField _ _ _ _ _ => Some FieldType.url_slug
  | RichTextField _ _ _ _ _ => Some FieldType.rich_text
  | _ => None
  end.

Definition field_data (v : JsVal) : option (string * RawValue) :=
  match v with
  | TextField n x | AssetsField n x | NumberField n x | MultipleChoiceField n x
  | DateTimeField n x | TaxonomyField n x _ | UrlSlugField n x _ _ _
  | RichTextField n x _ _ _ => Some (n, x)
  | _ => None
  end.

(** [v] is the field object of the raw field [f]. *)
Definition carries (f : IField.t) (v : JsVal) : Prop :=
  class_of v = Some (IField.type f) ∧ field_data v = Some (IField.name f, IField.value f).

(** The warning of [mapModularField] for a linked-items element whose
    value is falsy. *)
Definition modularValueMissing (fieldName : string) : string :=
  "Cannot map modular content of '" +:+ fieldName +:+ "' because its value does not exist".

(** The typed link of an entry of [field.links]. *)
Definition typedLink (linkItemId : string) (linkRaw : RawLink.t) : Link.t :=
  {| Link.linkId := linkItemId; Link.codename := RawLink.codename linkRaw;
     Link.type := RawLink.type linkRaw; Link.url_slug := RawLink.url_slug linkRaw |}.


(** *** The typed image of a raw item *)

(** The references that answer to a codename on [st] answer to it on
    [st']. *)
Definition codenames_kept (st st' : list ContentItem) : Prop :=
  ∀ r c, codename_of st r = Some c → codename_of st' r = Some c.

(** [v] is what the element [f] stands for on the store [st]: for a
    linked-items element the list of the typed items that answer, one by
    one and in order, to the listed codenames that the payload has, or
    [null] when the element has no value; for any other element the field
    object of its type with the raw name and value, which for a rich-text
    element holds no embedded item. *)
Definition mirrors (mc : gmap string RawItem) (st : list ContentItem)
    (f : IField.t) (v : JsVal) : Prop :=
  if String.eqb (IField.type f) FieldType.modular_content then
    match IField.value f with
    | RVStrings l =>
        ∃ rs, v = JArray rs ∧
              Forall2 (λ c r, codename_of st r = Some c) (List.filter (present mc) l) rs
    | _ => v = JNull
    end
  else carries f v ∧ (IField.type f = FieldType.rich_text → refs_of v = []).

(** The typed item [o] is the image of the raw item [X]: it has the
    system attributes of [X] and, under the codename of every element of
    [X], what the element stands for. *)
Definition image_of (mc : gmap string RawItem) (st : list ContentItem)
    (X : RawItem) (o : ContentItem) : Prop :=
  (∃ s, system X = Some s ∧ get "system" o = Some (JSystem s)) ∧
  ∀ els k f, elements X = Some els → k ∈ keys els → field_of els k = Some f →
             ∃ v, get k o = Some v ∧ mirrors mc st f v.

(** The typed item at [r] is the image of an item of the payload. *)
Definition imaged (mc : gmap string RawItem) (st : list ContentItem) (r : ref) : Prop :=
  ∃ c Y o, mc !! c = Some Y ∧ st !! r = Some o ∧ image_of mc st Y o.

(** What a call of [mapFields] for [X] has built when it returns [r]:
    the image of [X] at [r], the first new reference, and after it images
    of items of the payload; the typed items of before are kept. *)
Definition call_images (mc : gmap string RawItem) (X : RawItem) (h : Heap) (r : ref)
    (h' : Heap) : Prop :=
  r = length (store h) ∧ store h `prefix_of` store h' ∧
  (∃ o, store h' !! r = Some o ∧ image_of mc (store h') X o) ∧
  ∀ r', length (store h) < r' → r' < length (store h') → imaged mc (store h') r'.

(** Typed items are created without a [propertyResolver] and no
    decorator names a property: every element is assigned to the property
    of its codename. *)
Record generic_items (this : Collaborators) : Prop := {
  generic_resolver : ∀ s X, get "propertyResolver" (newTypedItem this s X) = None;
  generic_decorators : ∀ o k, name_truthy (getPropertyName this o k) = false
}.

(** Every entry of [processedItems] has its system attributes, so that
    [processedItems.find] can compare codenames. *)
Definition searchable (h : Heap) : Prop :=
  ∀ m, m ∈ processed h → is_Some (codename_of (store h) m).

(** An item that is mapped under the codenames of its elements: its
    typed object has no [propertyResolver], no decorator names a
    property, and no element is called [propertyResolver] or
    [__proto__]. *)
Record plain_naming (this : Collaborators) (o : ContentItem)
    (els : list (string * option IField.t)) : Prop := {
  no_resolver : get "propertyResolver" o = None;
  no_decorator : ∀ o' k, name_truthy (getPropertyName this o' k) = false;
  no_resolver_element : "propertyResolver" ∉ keys els;
  no_proto_element : "__proto__" ∉ keys els
}.

(** *** Example data *)

(** A rich-text element that embeds [bob] twice. *)
Definition twiceBob : IField.t :=
  rawField "Body" "rich_text" (RVString "<object><object>") (Some ["bob"; "bob"]).

(** A movie with a title, a release date, a url slug, and no poster
    and no genres yet: two empty arrays. *)
Definition movieElements : list (string * option IField.t) :=
  [("title", field "Title" "text" (RVString "Warrior") None);
   ("released", field "Released" "datetime" (RVString "2011-09-09") None);
   ("seo", field "Url" "url_slug" (RVString "warrior") None);
   ("poster", field "Poster" "asset" (RVStrings []) None);
   ("genres", field "Genres" "taxonomy" (RVStrings []) None)].

Definition movie : RawItem :=
  {| system := Some (sys "warrior" "movie"); elements := Some movieElements |}.

End MappingLaws.


(** * Properties of the rich-text resolver *)

Module RichTextResolverProps.
Import RichTextResolver RichTextGraph ResolverVocabulary.

Section Props.
Context {Fn : Type}.
Variable call : Fn → ContentItem Fn → ItemContext → string.
Variable getLinkedItem : string → option (ContentItem Fn).

Lemma get_Some_keys {V} (k : string) (o : list (string * V)) (v : V) :
  get k o = Some v → k ∈ keys o.
Proof.
  induction o as [|[k' v'] o IH]; simpl; [done|].
  destruct (String.eqb_spec k' k) as [->|Hne]; intros H.
  - apply list_elem_of_here.
  - apply list_elem_of_further. by apply IH.
Qed.

Lemma member_own (name : string) (o : ContentItem Fn) (v : PropVal Fn) :
  get name o = Some v → member Fn name o = Some v.
Proof. unfold member. by intros ->. Qed.

Lemma member_rich_text (name : string) (o : ContentItem Fn) (e : RichTextElement) :
  member Fn name o = Some (PRichText e) → get name o = Some (PRichText e).
Proof. unfold member. destruct (get name o); [done|]. by destruct (inherited name). Qed.

Lemma richTextElements_get (it : ContentItem Fn) k e :
  get k it = Some (PRichText e) → e ∈ richTextElements it.
Proof.
  intros Hget. unfold richTextElements.
  apply list_elem_of_In, in_flat_map. exists k. split.
  - apply list_elem_of_In. by eapply get_Some_keys.
  - rewrite Hget. by left.
Qed.

Lemma findImage_absent id (l : list Image) :
  (∀ img, img ∈ l → imageId img ≠ id) → findImage id l = None.
Proof.
  unfold findImage. induction l as [|x l IH]; intros H; simpl; [done|].
  destruct (String.eqb_spec (imageId x) id) as [Heq|_].
  - exfalso. eapply H; [apply list_elem_of_here | done].
  - apply IH. intros img Him. apply H. by apply list_elem_of_further.
Qed.

Lemma image_absent_step id it it' :
  image_absent getLinkedItem id it → embeds getLinkedItem it it' →
  image_absent getLinkedItem id it'.
Proof.
  intros Habs Hl it'' e img Hr. apply Habs. by eapply rtc_l.
Qed.

Lemma ranked_step rank it it' :
  ranked getLinkedItem rank it → embeds getLinkedItem it it' →
  ranked getLinkedItem rank it'.
Proof.
  intros Hrk Hl it1 it2 Hr. apply Hrk. by eapply rtc_l.
Qed.

(** A search that terminates in a graph without the image returns
    [undefined]. *)
Lemma tryGetImageFromLinkedItem_absent id fuel :
  ∀ it, image_absent getLinkedItem id it →
        ∀ img, tryGetImageFromLinkedItem Fn fuel id it getLinkedItem ≠ Some (Some img).
Proof.
  induction fuel as [|n IH]; intros it Habs img; simpl; [done|].
  assert (Hprops : ∀ names, names ⊆ keys it →
    propertiesLoop Fn (λ li, tryGetImageFromLinkedItem Fn n id li getLinkedItem)
      getLinkedItem id it names ≠ Some (Some img)).
  { induction names as [|k names IHn]; intros Hsub; simpl; [done|].
    assert (Hrest : names ⊆ keys it) by (intros x Hx; apply Hsub; by apply list_elem_of_further).
    destruct (get k it) as [[| | |e|]|] eqn:Hget; try by apply IHn.
    pose proof (richTextElements_get _ _ _ Hget) as He.
    rewrite findImage_absent; last first.
    { intros i Hi. eapply Habs; [apply rtc_refl | exact He | exact Hi]. }
    assert (Hlinked : ∀ cs, cs ⊆ linkedItemCodenames e →
      linkedItemsLoop Fn (λ li, tryGetImageFromLinkedItem Fn n id li getLinkedItem)
        getLinkedItem cs ≠ Some (Some img) ∧
      ∀ j, linkedItemsLoop Fn (λ li, tryGetImageFromLinkedItem Fn n id li getLinkedItem)
        getLinkedItem cs ≠ Some (Some j)).
    { induction cs as [|c cs IHc]; intros Hcs; simpl; [done|].
      assert (Hcs' : cs ⊆ linkedItemCodenames e) by (intros x Hx; apply Hcs; by apply list_elem_of_further).
      destruct (getLinkedItem c) as [li|] eqn:Hli; [|by apply IHc].
      assert (Habs' : image_absent getLinkedItem id li).
      { eapply image_absent_step; [exact Habs|]. exists e, c.
        split; [done|]. split; [apply Hcs, list_elem_of_here | done]. }
      destruct (tryGetImageFromLinkedItem Fn n id li getLinkedItem) as [[j|]|] eqn:Hrec.
      - exfalso. by eapply (IH li Habs' j).
      - by apply IHc.
      - done. }
    destruct (linkedItemsLoop Fn _ getLinkedItem (linkedItemCodenames e))
      as [[j|]|] eqn:Hloop.
    - exfalso. by eapply (proj2 (Hlinked _ (reflexivity _)) j).
    - by apply IHn.
    - done. }
  by apply Hprops.
Qed.

(** A search over items that embed one another without a cycle ends
    within [rank] nested calls. *)
Lemma tryGetImageFromLinkedItem_terminates id rank fuel :
  ∀ it, ranked getLinkedItem rank it → rank it < fuel →
        tryGetImageFromLinkedItem Fn fuel id it getLinkedItem ≠ None.
Proof.
  induction fuel as [|n IH]; intros it Hrk Hlt; simpl; [lia|].
  assert (Hprops : ∀ names, names ⊆ keys it →
    propertiesLoop Fn (λ li, tryGetImageFromLinkedItem Fn n id li getLinkedItem)
      getLinkedItem id it names ≠ None).
  { induction names as [|k names IHn]; intros Hsub; simpl; [done|].
    assert (Hrest : names ⊆ keys it) by (intros x Hx; apply Hsub; by apply list_elem_of_further).
    destruct (get k it) as [[| | |e|]|] eqn:Hget; try by apply IHn.
    pose proof (richTextElements_get _ _ _ Hget) as He.
    destruct (findImage id (images e)); [done|].
    assert (Hlinked : ∀ cs, cs ⊆ linkedItemCodenames e →
      linkedItemsLoop Fn (λ li, tryGetImageFromLinkedItem Fn n id li getLinkedItem)
        getLinkedItem cs ≠ None).
    { induction cs as [|c cs IHc]; intros Hcs; simpl; [done|].
      assert (Hcs' : cs ⊆ linkedItemCodenames e) by (intros x Hx; apply Hcs; by apply list_elem_of_further).
      destruct (getLinkedItem c) as [li|] eqn:Hli; [|by apply IHc].
      assert (Hl : embeds getLinkedItem it li).
      { exists e, c. split; [done|]. split; [apply Hcs, list_elem_of_here | done]. }
      pose proof (Hrk it li (rtc_refl _ _) Hl) as Hlt'.
      destruct (tryGetImageFromLinkedItem Fn n id li getLinkedItem) as [[j|]|] eqn:Hrec.
      - done.
      - by apply IHc.
      - exfalso. eapply (IH li); [by eapply ranked_step | lia | done]. }
    destruct (linkedItemsLoop Fn _ getLinkedItem (linkedItemCodenames e))
      as [[j|]|] eqn:Hloop.
    - done.
    - by apply IHn.
    - exfalso. by eapply Hlinked. }
  by apply Hprops.
Qed.

End Props.

(** C6, as stated, fails: an item that has neither a resolver nor system
    attributes does not resolve to the empty string when advanced logging
    is on; composing the warning reads [linkedItem.system.type] and
    throws. *)
Lemma getLinkedItemHtml_no_resolver_throws :
  getLinkedItemHtml string render (verbose (query None None)) onlyAnonymous
    "anonymous" "linkedItem" [] =
  Thrown (TypeError "Cannot read properties of undefined (reading 'type')") [].
Proof. reflexivity. Qed.

(** C6, amended. When the linked item of an embed is in the graph, its
    HTML is what the per-query [richTextResolver] returns if the query
    configures one; otherwise what the resolver the linked item holds in
    [_config.richTextResolver] returns; and when the item holds none
    either, the embed resolves to the empty string: with advanced logging
    off nothing else happens, with advanced logging on and an item that
    carries its system attributes the warning that names its type is
    written first. *)
Theorem getLinkedItemHtml_resolver_precedence {Fn : Type}
    (call : Fn → ContentItem Fn → ItemContext → string) (config : Config Fn)
    (getLinkedItem : string → option (ContentItem Fn))
    (itemCodename itemType : string) (linkedItem : ContentItem Fn) (c : Console) :
  getLinkedItem itemCodename = Some linkedItem →
  (∀ perQuery, richTextResolver Fn (queryConfig Fn config) = Some perQuery →
     getLinkedItemHtml Fn call config getLinkedItem itemCodename itemType c =
       Done (call perQuery linkedItem {| contentType := itemType |}) c) ∧
  (∀ own, richTextResolver Fn (queryConfig Fn config) = None →
     get "_config" linkedItem = Some (PConfig (Some own)) →
     getLinkedItemHtml Fn call config getLinkedItem itemCodename itemType c =
       Done (call own linkedItem {| contentType := itemType |}) c) ∧
  (richTextResolver Fn (queryConfig Fn config) = None →
   (∀ own, get "_config" linkedItem ≠ Some (PConfig (Some own))) →
   (flag (enableAdvancedLogging Fn config) = false →
      getLinkedItemHtml Fn call config getLinkedItem itemCodename itemType c =
        Done EmptyString c) ∧
   (∀ type, flag (enableAdvancedLogging Fn config) = true →
      get "system" linkedItem = Some (PSystem type) →
      getLinkedItemHtml Fn call config getLinkedItem itemCodename itemType c =
        Done EmptyString (c ++ [noResolverWarning type itemCodename])) ∧
   (flag (enableAdvancedLogging Fn config) = true →
    truthy Fn (get "system" linkedItem) = true →
      ∃ type, getLinkedItemHtml Fn call config getLinkedItem itemCodename itemType c =
                Done EmptyString (c ++ [noResolverWarning type itemCodename]))).
Proof.
  intros Hitem. unfold getLinkedItemHtml. rewrite Hitem.
  split; [|split].
  - intros r ->. reflexivity.
  - intros r -> Hown. unfold itemRichTextResolver. by rewrite Hown.
  - intros -> Hnone.
    assert (itemRichTextResolver Fn linkedItem = None) as ->.
    { unfold itemRichTextResolver.
      destruct (get "_config" linkedItem) as [[| |[own|]| |]|] eqn:Hcfg; try done.
      exfalso. by apply (Hnone own). }
    split; [|split].
    + by intros ->.
    + intros type -> Hsys. by rewrite Hsys.
    + intros -> Hsys.
      destruct (get "system" linkedItem) as [[|type| | |]|]; simpl in Hsys; try discriminate;
        [by exists type | by exists "undefined" ..].
Qed.

Lemma getLinkedItemHtml_resolver_precedence_witness :
  getLinkedItemHtml string render (quiet (query None (Some "perQuery"))) onlyHero
    "hero" "linkedItem" [] = Done "<perQuery linkedItem>" [] ∧
  getLinkedItemHtml string render (quiet (query None None)) onlyHero
    "hero" "linkedItem" [] = Done "<own linkedItem>" [] ∧
  getLinkedItemHtml string render (quiet (query None None)) onlyNarcissus
    "narcissus" "component" [] = Done EmptyString [] ∧
  getLinkedItemHtml string render (verbose (query None None)) onlyNarcissus
    "narcissus" "component" [] = Done EmptyString [noResolverWarning "person" "narcissus"].
Proof.
  split; [|split; [|split]].
  - exact (proj1 (getLinkedItemHtml_resolver_precedence render
                    (quiet (query None (Some "perQuery"))) onlyHero "hero" "linkedItem" hero []
                    eq_refl) "perQuery" eq_refl).
  - exact (proj1 (proj2 (getLinkedItemHtml_resolver_precedence render
                    (quiet (query None None)) onlyHero "hero" "linkedItem" hero []
                    eq_refl)) "own" eq_refl eq_refl).
  - refine (proj1 (proj2 (proj2 (getLinkedItemHtml_resolver_precedence render
                    (quiet (query None None)) onlyNarcissus "narcissus" "component" narcissus []
                    eq_refl)) eq_refl _) eq_refl).
    intros own. discriminate.
  - refine (proj1 (proj2 (proj2 (proj2 (getLinkedItemHtml_resolver_precedence render
                    (verbose (query None None)) onlyNarcissus "narcissus" "component" narcissus []
                    eq_refl)) eq_refl _)) "person" eq_refl eq_refl).
    intros own. discriminate.
Defined.

(** C7. When the item an embed refers to is not in the graph, resolution
    throws [LinkedItemNotFound] if [throwErrorForMissingLinkedItems] is
    set, and otherwise (the flag false or left out, the default) yields
    the empty string, with a warning on the console when advanced logging
    is enabled. *)
Theorem getLinkedItemHtml_missing_item {Fn : Type}
    (call : Fn → ContentItem Fn → ItemContext → string) (config : Config Fn)
    (getLinkedItem : string → option (ContentItem Fn))
    (itemCodename itemType : string) (c : Console) :
  getLinkedItem itemCodename = None →
  (throwErrorForMissingLinkedItems Fn (queryConfig Fn config) = Some true →
     getLinkedItemHtml Fn call config getLinkedItem itemCodename itemType c =
       Thrown (LinkedItemNotFound itemCodename) c) ∧
  (throwErrorForMissingLinkedItems Fn (queryConfig Fn config) ≠ Some true →
     getLinkedItemHtml Fn call config getLinkedItem itemCodename itemType c =
       Done EmptyString (if flag (enableAdvancedLogging Fn config)
                then c ++ [linkedItemMissingWarning itemCodename] else c)).
Proof.
  intros Hitem. unfold getLinkedItemHtml. rewrite Hitem. split.
  - intros ->. reflexivity.
  - intros Hlenient.
    destruct (throwErrorForMissingLinkedItems Fn (queryConfig Fn config)) as [[]|];
      [done| |]; simpl; by destruct (flag (enableAdvancedLogging Fn config)).
Qed.

Lemma getLinkedItemHtml_missing_item_witness :
  getLinkedItemHtml string render (verbose (query (Some true) None)) onlyHero
    "villain" "linkedItem" [] = Thrown (LinkedItemNotFound "villain") [] ∧
  getLinkedItemHtml string render (verbose (query None None)) onlyHero
    "villain" "linkedItem" [] = Done EmptyString [linkedItemMissingWarning "villain"].
Proof.
  split.
  - exact (proj1 (getLinkedItemHtml_missing_item render (verbose (query (Some true) None))
                    onlyHero "villain" "linkedItem" [] eq_refl) eq_refl).
  - apply (proj2 (getLinkedItemHtml_missing_item render (verbose (query None None))
                    onlyHero "villain" "linkedItem" [] eq_refl)).
    discriminate.
Defined.

(** C8, as stated, fails: with advanced logging off, a hyperlink whose id
    is not in the links resolves to the empty result and the console
    stays as it was, so no diagnostic is produced. *)
Lemma getUrlSlugResult_quiet_no_diagnostic :
  ¬ emits_diagnostic []
      (getUrlSlugResult string (quiet (query (Some true) None)) [] onlyHero
         noGlobalResolver "42" "read more" []).
Proof. intros (a & msg & c' & H). discriminate H. Qed.

(** C8, amended. A hyperlink placeholder whose link id is not in the links
    resolves to the empty result (empty html and url) and never throws,
    whatever the configuration; the diagnostic is written exactly when
    advanced logging is enabled. *)
Theorem getUrlSlugResult_missing_link {Fn : Type} (config : Config Fn) (links : list Link)
    (getLinkedItem : string → option (ContentItem Fn))
    (getGlobalUrlSlugResolver :
       string → option (Link → LinkContext Fn → option UrlSlugResult))
    (itemId linkText' : string) (c : Console) :
  (∀ l, l ∈ links → linkId l ≠ itemId) →
  getUrlSlugResult Fn config links getLinkedItem getGlobalUrlSlugResolver itemId linkText' c =
    Done {| html := EmptyString; result_url := EmptyString |}
         (if flag (enableAdvancedLogging Fn config)
          then c ++ [missingLinkWarning itemId] else c).
Proof.
  intros Habsent. unfold getUrlSlugResult.
  assert (findLink itemId links = None) as ->.
  { unfold findLink. induction links as [|x l IH]; simpl; [done|].
    destruct (String.eqb_spec (linkId x) itemId) as [Heq|_].
    - exfalso. by eapply Habsent; [apply list_elem_of_here|].
    - apply IH. intros y Hy. apply Habsent. by apply list_elem_of_further. }
  by destruct (flag (enableAdvancedLogging Fn config)).
Qed.

Lemma getUrlSlugResult_missing_link_witness :
  getUrlSlugResult string (verbose (query (Some true) None))
    [{| linkId := "7"; link_codename := "hero"; link_type := "person"; urlSlug := "hero" |}]
    onlyHero noGlobalResolver "42" "read more" [] =
  Done {| html := EmptyString; result_url := EmptyString |} [missingLinkWarning "42"].
Proof.
  apply (getUrlSlugResult_missing_link (verbose (query (Some true) None))).
  intros l Hl. apply list_elem_of_singleton in Hl as ->. discriminate.
Defined.

(** C9, as stated, fails: in lenient mode (no
    [throwErrorForMissingLinkedItems]) an image that is in no rich-text
    element of the graph still makes [getImageResult] throw; it does not
    resolve to empty content. *)
Lemma getImageResult_lenient_still_throws :
  getImageResult string 1 (verbose (query None None)) onlyHero "hero" "img1" "bio" [] =
  Thrown (ImageNotFound "img1" "hero" "bio") [].
Proof. reflexivity. Qed.

(** C9, amended. When the linked item is in the graph and no rich-text
    element of any item reachable from it holds the image: if what the
    linked item answers under the name of the placeholder's element is a
    rich-text element or falsy, [getImageResult] never returns a result,
    under any configuration, lenient or strict, and when the reachable
    items embed one another without a cycle the search ends and
    [ImageNotFound] is thrown; if it answers with anything else (another
    property, or a member every object inherits, such as [constructor]),
    the invalid-element error is thrown before any search. Lenient mode
    only covers a linked item that is itself missing: the image then
    resolves to the empty url, with a warning when advanced logging is
    enabled. *)
Theorem getImageResult_image_not_found {Fn : Type} (config : Config Fn)
    (getLinkedItem : string → option (ContentItem Fn))
    (itemCodename id elementName : string) (linkedItem : ContentItem Fn) (c : Console) :
  getLinkedItem itemCodename = Some linkedItem →
  image_absent getLinkedItem id linkedItem →
  (rich_text_or_missing elementName linkedItem →
     (∀ fuel r c',
        getImageResult Fn fuel config getLinkedItem itemCodename id elementName c ≠
          Done r c') ∧
     (∀ rank fuel, ranked getLinkedItem rank linkedItem → rank linkedItem < fuel →
        getImageResult Fn fuel config getLinkedItem itemCodename id elementName c =
          Thrown (ImageNotFound id itemCodename elementName) c)) ∧
  (¬ rich_text_or_missing elementName linkedItem →
     ∀ fuel, getImageResult Fn fuel config getLinkedItem itemCodename id elementName c =
               Thrown (InvalidElement itemCodename elementName) c) ∧
  (∀ missing fuel, getLinkedItem missing = None →
     throwErrorForMissingLinkedItems Fn (queryConfig Fn config) ≠ Some true →
     getImageResult Fn fuel config getLinkedItem missing id elementName c =
       Done {| image_url := EmptyString |}
            (if flag (enableAdvancedLogging Fn config)
             then c ++ [imageItemMissingWarning id missing] else c)).
Proof.
  intros Hitem Habs.
  assert (Hshape : rich_text_or_missing elementName linkedItem → ∀ fuel,
    getImageResult Fn fuel config getLinkedItem itemCodename id elementName c =
      match tryGetImageFromLinkedItem Fn fuel id linkedItem getLinkedItem with
      | None => OutOfFuel
      | Some None => Thrown (ImageNotFound id itemCodename elementName) c
      | Some (Some image) =>
          match richTextImageResolver Fn (queryConfig Fn config) with
          | Some resolver => Done (resolver image elementName) c
          | None => Done {| image_url := url image |} c
          end
      end).
  { intros Helem fuel. unfold getImageResult, rich_text_or_missing in *. rewrite Hitem.
    destruct (member Fn elementName linkedItem) as [[| | |e|]|] eqn:Hget; try done; simpl.
    - unfold bind, ret.
      by destruct (tryGetImageFromLinkedItem Fn fuel id linkedItem getLinkedItem)
        as [[img|]|]; [destruct (richTextImageResolver Fn (queryConfig Fn config))| |].
    - rewrite findImage_absent; last first.
      { intros img Himg. eapply Habs; [apply rtc_refl | | exact Himg].
        eapply richTextElements_get. by apply member_rich_text. }
      unfold bind, ret.
      by destruct (tryGetImageFromLinkedItem Fn fuel id linkedItem getLinkedItem)
        as [[img|]|]; [destruct (richTextImageResolver Fn (queryConfig Fn config))| |].
    - unfold bind, ret.
      by destruct (tryGetImageFromLinkedItem Fn fuel id linkedItem getLinkedItem)
        as [[img|]|]; [destruct (richTextImageResolver Fn (queryConfig Fn config))| |]. }
  split; [|split].
  - intros Helem. split.
    + intros fuel r c'. rewrite (Hshape Helem).
      pose proof (tryGetImageFromLinkedItem_absent getLinkedItem id fuel linkedItem Habs) as Hno.
      destruct (tryGetImageFromLinkedItem Fn fuel id linkedItem getLinkedItem) as [[img|]|];
        [by exfalso; eapply Hno | done | done].
    + intros rank fuel Hrk Hlt. rewrite (Hshape Helem).
      pose proof (tryGetImageFromLinkedItem_absent getLinkedItem id fuel linkedItem Habs) as Hno.
      pose proof (tryGetImageFromLinkedItem_terminates getLinkedItem id rank fuel
                    linkedItem Hrk Hlt) as Hend.
      destruct (tryGetImageFromLinkedItem Fn fuel id linkedItem getLinkedItem) as [[img|]|];
        [by exfalso; eapply Hno | done | done].
  - intros Helem fuel. unfold getImageResult, rich_text_or_missing in *. rewrite Hitem.
    by destruct (member Fn elementName linkedItem) as [[| | |e|]|].
  - intros missing fuel Hmiss Hlenient. unfold getImageResult. rewrite Hmiss.
    destruct (throwErrorForMissingLinkedItems Fn (queryConfig Fn config)) as [[]|];
      [done| |]; simpl; by destruct (flag (enableAdvancedLogging Fn config)).
Qed.

(** Where the items embed one another in a cycle and the image is in none
    of them, the search goes round without end. *)
Lemma tryGetImageFromLinkedItem_cycle_diverges (fuel : nat) :
  tryGetImageFromLinkedItem string fuel "img1" narcissus onlyNarcissus = None.
Proof. induction fuel as [|n IH]; [done|]. simpl. by rewrite IH. Qed.

Lemma museum_reachable (it : ContentItem string) :
  embedded_from museum gallery it → it = gallery ∨ it = painter.
Proof.
  intros Hr. apply rtc_inv in Hr as [<-|(mid & (e & c & He & Hc & Hmid) & Hr)]; [by left|].
  right. apply list_elem_of_singleton in He as ->.
  apply list_elem_of_singleton in Hc as ->. injection Hmid as <-.
  apply rtc_inv in Hr as [<-|(mid & (e & c & He & Hc & _) & _)]; [done|].
  apply list_elem_of_singleton in He as ->. by apply elem_of_nil in Hc.
Qed.

Lemma museum_ranked : ranked museum embedCount gallery.
Proof.
  intros it1 it2 Hr (e & c & He & Hc & Hit2).
  apply museum_reachable in Hr as [->| ->].
  - apply list_elem_of_singleton in He as ->.
    apply list_elem_of_singleton in Hc as ->. injection Hit2 as <-. vm_compute. lia.
  - apply list_elem_of_singleton in He as ->. by apply elem_of_nil in Hc.
Qed.

Lemma museum_lacks_img9 : image_absent museum "img9" gallery.
Proof.
  intros it' e img Hr He Himg. apply museum_reachable in Hr as [->| ->];
    apply list_elem_of_singleton in He as ->.
  - by apply elem_of_nil in Himg.
  - by apply list_elem_of_singleton in Himg as ->.
Qed.

Lemma getImageResult_image_not_found_witness :
  getImageResult string 2 (verbose (query None None)) museum "gallery" "img9" "intro" [] =
    Thrown (ImageNotFound "img9" "gallery" "intro") [] ∧
  getImageResult string 2 (verbose (query None None)) museum "gallery" "img9" "constructor" [] =
    Thrown (InvalidElement "gallery" "constructor") [] ∧
  getImageResult string 2 (verbose (query None None)) museum "louvre" "img9" "intro" [] =
    Done {| image_url := EmptyString |} [imageItemMissingWarning "img9" "louvre"].
Proof.
  split; [|split].
  - refine (proj2 (proj1 (getImageResult_image_not_found (verbose (query None None))
                            museum "gallery" "img9" "intro" gallery [] eq_refl
                            museum_lacks_img9) I) embedCount 2 museum_ranked _).
    vm_compute. lia.
  - refine (proj1 (proj2 (getImageResult_image_not_found (verbose (query None None))
                            museum "gallery" "img9" "constructor" gallery [] eq_refl
                            museum_lacks_img9)) _ 2).
    intros H. exact H.
  - refine (proj2 (proj2 (getImageResult_image_not_found (verbose (query None None))
                            museum "gallery" "img9" "intro" gallery [] eq_refl
                            museum_lacks_img9)) "louvre" 2 eq_refl _).
    discriminate.
Defined.

End RichTextResolverProps.


(** * Properties of the field mapper *)

Module FieldMapServiceProps.
Import FieldMapService MappingSpec.

Lemma bind_Done {S A B} (m : M S A) (k : A → M S B) s a s' :
  m s = Done a s' → bind m k s = k a s'.
Proof. unfold bind. by intros ->. Qed.

Lemma bind_Thrown {S A B} (m : M S A) (k : A → M S B) s e s' :
  m s = Thrown e s' → bind m k s = Thrown e s'.
Proof. unfold bind. by intros ->. Qed.

Lemma bind_OutOfFuel {S A B} (m : M S A) (k : A → M S B) s :
  m s = OutOfFuel → bind m k s = OutOfFuel.
Proof. unfold bind. by intros ->. Qed.

Lemma bind_Done_inv {S A B} (m : M S A) (k : A → M S B) s b s'' :
  bind m k s = Done b s'' → ∃ a s', m s = Done a s' ∧ k a s' = Done b s''.
Proof. unfold bind. destruct (m s) as [a s'| |]; [by eauto | done | done]. Qed.

Lemma payloadItem_own (mc : gmap string RawItem) (c : string) (X : RawItem) :
  mc !! c = Some X → payloadItem mc c = Some X.
Proof. unfold payloadItem. by intros ->. Qed.

Lemma payloadItem_inherited (mc : gmap string RawItem) (c : string) :
  mc !! c = None → inherited c = true → payloadItem mc c = Some prototypeMember.
Proof. unfold payloadItem. by intros -> ->. Qed.

Lemma payloadItem_None (mc : gmap string RawItem) (c : string) :
  payloadItem mc c = None ↔ mc !! c = None ∧ inherited c = false.
Proof.
  unfold payloadItem. destruct (mc !! c); [by split; [|intros []]|].
  destruct (inherited c); by split; [|intros []].
Qed.

Lemma payloadItem_own_or_absent (mc : gmap string RawItem) (c : string) :
  own_or_absent mc c = true → payloadItem mc c = mc !! c.
Proof.
  unfold own_or_absent, present, payloadItem. destruct (mc !! c) as [X|]; [done|].
  rewrite bool_decide_eq_false_2 by (by intros [? ?]). simpl.
  by intros ->%negb_true_iff.
Qed.

Lemma answers_Some (mc : gmap string RawItem) (c : string) :
  answers mc c = true ↔ is_Some (payloadItem mc c).
Proof.
  unfold answers, present, payloadItem. destruct (mc !! c) as [X|].
  - rewrite bool_decide_eq_true_2 by eauto. by split; [eauto|].
  - rewrite bool_decide_eq_false_2 by (by intros [? ?]). simpl.
    destruct (inherited c); split; try done; try (by intros [? ?]); eauto.
Qed.

(** C3. An item without system attributes, or without elements, makes
    [mapFields] throw the corresponding error on a heap that is left as it
    was: no typed item has been created and nothing was added to
    [processedItems]; no value is returned. An item that has both passes
    the guards. The error of a nested call is not caught: a rich-text
    field that embeds such an item first throws the same error. *)
Theorem mapFields_malformed_item (this : Collaborators) (fuel : nat) (item : RawItem)
    (mc : gmap string RawItem) (qc : IItemQueryConfig) (processedItems : ProcessedArg)
    (h : Heap) :
  (system item = None →
     mapFields this (S fuel) (Some item) mc qc processedItems h =
       Thrown MalformedResponse_system h) ∧
  (∀ s, system item = Some s → elements item = None →
     mapFields this (S fuel) (Some item) mc qc processedItems h =
       Thrown (MalformedResponse_elements (System.codename s)) h) ∧
  (∀ s els, system item = Some s → elements item = Some els →
     checkArguments (Some item) PArray h = Done (item, s, els) h) ∧
  (∀ f c l, IField.modular_content f = Some (c :: l) → mc !! c = Some item →
     system item = None →
     mapRichTextField this (mapFields this (S fuel)) f mc qc h =
       Thrown MalformedResponse_system h).
Proof.
  split; [|split; [|split]].
  - intros Hs. simpl. unfold mapFields_body, checkArguments. by rewrite Hs.
  - intros s Hs He. simpl. unfold mapFields_body, checkArguments. by rewrite Hs, He.
  - intros s els Hs He. unfold checkArguments. by rewrite Hs, He.
  - intros f c l Hm Hc Hs. unfold mapRichTextField. rewrite Hm. simpl.
    unfold embeddedItemStep at 1. rewrite (payloadItem_own mc c item Hc).
    unfold bind, mapFields_body, checkArguments. by rewrite Hs.
Qed.

Lemma mapFields_malformed_item_witness :
  mapFields (plainMapper false) 1 (Some {| system := None; elements := Some [] |})
    friends noLinkResolver PArray empty_heap = Thrown MalformedResponse_system empty_heap ∧
  mapFields (plainMapper false) 1 (Some {| system := Some (sys "ann" "person"); elements := None |})
    friends noLinkResolver PArray empty_heap =
    Thrown (MalformedResponse_elements "ann") empty_heap.
Proof.
  split.
  - exact (proj1 (mapFields_malformed_item (plainMapper false) 0
                    {| system := None; elements := Some [] |}
                    friends noLinkResolver PArray empty_heap) eq_refl).
  - exact (proj1 (proj2 (mapFields_malformed_item (plainMapper false) 0
                    {| system := Some (sys "ann" "person"); elements := None |}
                    friends noLinkResolver PArray empty_heap)) _ eq_refl eq_refl).
Defined.

(** C10. When what the caller passes as [processedItems] is falsy or is
    not an array, [mapFields] throws on an unchanged heap, before any
    typed item is created; for an item that has system attributes and
    elements the error is the one about [processedItems]. *)
Theorem mapFields_processedItems_guard (this : Collaborators) (fuel : nat)
    (item : option RawItem) (mc : gmap string RawItem) (qc : IItemQueryConfig)
    (processedItems : ProcessedArg) (h : Heap) :
  processedItems ≠ PArray →
  (∃ msg, mapFields this (S fuel) item mc qc processedItems h = Thrown (Error msg) h) ∧
  (∀ X s els, item = Some X → system X = Some s → elements X = Some els →
     mapFields this (S fuel) item mc qc processedItems h =
       Thrown (ProcessedItemsGuard processedItems) h).
Proof.
  intros Hp. split.
  - simpl. unfold mapFields_body, checkArguments.
    destruct item as [X|]; [|by eexists].
    destruct (system X); [|by eexists].
    destruct (elements X); [|by eexists].
    destruct processedItems; [by eexists | by eexists | done].
  - intros X s els -> Hs He. simpl. unfold mapFields_body, checkArguments.
    rewrite Hs, He. by destruct processedItems.
Qed.

Lemma mapFields_processedItems_guard_witness :
  mapFields (plainMapper false) 1 (Some ann) friends noLinkResolver PFalsy empty_heap =
    Thrown (Error "ProcessedItems need to be initialized") empty_heap.
Proof.
  refine (proj2 (mapFields_processedItems_guard (plainMapper false) 0 (Some ann) friends
                   noLinkResolver PFalsy empty_heap _) ann _ _ eq_refl eq_refl eq_refl).
  discriminate.
Defined.

(** C4, as stated, fails: with advanced logging enabled, the one setting
    the dispatch consults, a field of an unknown type is warned about and
    the error is thrown all the same. *)
Lemma mapField_logging_still_throws :
  mapField (plainMapper true) (mapFields (plainMapper true) 1)
    (field "Shape" "polygon" RVNull None) ∅ 0 noLinkResolver empty_heap =
  Thrown (Error "Unsupported field type 'polygon'")
         (logged ["Unsupported field type 'polygon'"] empty_heap).
Proof. reflexivity. Qed.

(** C4, amended. A field whose declared type is not one of text, number,
    datetime, multiple_choice, asset, rich_text, url_slug, taxonomy and
    modular_content makes the dispatch throw the unsupported-field-type
    error under every configuration; advanced logging only adds a warning
    with the same text before the throw. *)
Theorem mapField_unsupported_type (this : Collaborators)
    (rec : option RawItem → gmap string RawItem → IItemQueryConfig → ProcessedArg → M Heap ref)
    (f : IField.t) (mc : gmap string RawItem) (item : ref) (qc : IItemQueryConfig)
    (h : Heap) :
  IField.type f ∉ FieldType.all →
  mapField this rec (Some f) mc item qc h =
    Thrown (Error (unsupportedFieldType (IField.type f)))
           (if enableAdvancedLogging (config this)
            then logged [unsupportedFieldType (IField.type f)] h else h).
Proof.
  intros Hnot. unfold mapField.
  repeat match goal with
  | |- context [String.eqb (IField.type f) ?t] =>
      destruct (String.eqb_spec (IField.type f) t) as [Heq|_];
      [exfalso; apply Hnot; rewrite Heq; unfold FieldType.all;
       repeat (first [apply list_elem_of_here | apply list_elem_of_further]) |]
  end.
  unfold logging. by destruct (enableAdvancedLogging (config this)).
Qed.

Lemma mapField_unsupported_type_witness :
  mapField (plainMapper false) (mapFields (plainMapper false) 1)
    (field "Shape" "polygon" RVNull None) ∅ 0 noLinkResolver empty_heap =
  Thrown (Error "Unsupported field type 'polygon'") empty_heap.
Proof.
  apply (mapField_unsupported_type (plainMapper false)).
  intros Hin. apply list_elem_of_In in Hin. cbv in Hin. intuition discriminate.
Defined.

(** ** Codenames missing from the payload *)

Lemma forEach_push_app {S A B} (l1 l2 : list A) (f : A → list B → M S (list B)) :
  ∀ acc s, forEach_push (l1 ++ l2) f acc s =
           bind (forEach_push l1 f acc) (forEach_push l2 f) s.
Proof.
  induction l1 as [|x l1 IH]; intros acc s; simpl; [done|].
  unfold bind. destruct (f x acc s) as [acc' s'| |]; [|done|done].
  rewrite IH. reflexivity.
Qed.

Section Absent.
Variable this : Collaborators.
Variable rec :
  option RawItem → gmap string RawItem → IItemQueryConfig → ProcessedArg → M Heap ref.
Variable mc : gmap string RawItem.
Variable qc : IItemQueryConfig.

Lemma logged_nil (h : Heap) : logged [] h = h.
Proof. destruct h. unfold logged. simpl. by rewrite app_nil_r. Qed.

Lemma linkedItems_all_absent (f : IField.t) (l : list string) :
  Forall (λ c, payloadItem mc c = None) l →
  ∀ acc h, forEach_push l (linkedItemStep this rec f mc qc) acc h =
    Done acc (if logging this
              then logged (replicate (length l) (modularItemDropped (IField.name f))) h
              else h).
Proof.
  induction 1 as [|c l Hc _ IH]; intros acc h; simpl.
  - unfold ret. destruct (logging this); [by rewrite logged_nil | done].
  - unfold linkedItemStep at 1. rewrite Hc. unfold bind at 1.
    destruct (logging this) eqn:Hlog; simpl.
    + unfold bind, warn, ret. rewrite IH. unfold logged. simpl.
      by rewrite <- app_assoc.
    + unfold bind, ret. by rewrite IH.
Qed.

Lemma linkedItems_filter_answers (f : IField.t) (l : list string) :
  logging this = false →
  ∀ acc h, forEach_push l (linkedItemStep this rec f mc qc) acc h =
           forEach_push (List.filter (answers mc) l) (linkedItemStep this rec f mc qc) acc h.
Proof.
  intros Hlog. induction l as [|c l IH]; intros acc h; simpl; [done|].
  destruct (answers mc c) eqn:Hc.
  - simpl. unfold bind.
    destruct (linkedItemStep this rec f mc qc c acc h); [apply IH | done | done].
  - assert (Hnone : payloadItem mc c = None).
    { destruct (payloadItem mc c) eqn:E; [|done].
      assert (answers mc c = true) by (apply answers_Some; eauto). congruence. }
    unfold linkedItemStep at 1. rewrite Hnone, Hlog. simpl.
    unfold bind, ret. apply IH.
Qed.

Lemma linkedItems_absent_skipped (f : IField.t) (l1 l2 : list string) (c : string) :
  payloadItem mc c = None →
  ∀ acc h, forEach_push (l1 ++ c :: l2) (linkedItemStep this rec f mc qc) acc h =
    (before <- forEach_push l1 (linkedItemStep this rec f mc qc) acc ;;;
     when (logging this) (warn (modularItemDropped (IField.name f))) ;;;
     forEach_push l2 (linkedItemStep this rec f mc qc) before) h.
Proof.
  intros Hc acc h. rewrite forEach_push_app. unfold bind.
  destruct (forEach_push l1 _ acc h) as [before h1| |]; [|done|done].
  simpl. unfold linkedItemStep at 1. rewrite Hc. unfold bind, ret.
  by destruct (when (logging this) _ h1).
Qed.

Lemma embeddedItems_absent (f : IField.t) (l : list string) (c : string) :
  c ∈ l → payloadItem mc c = None →
  ∀ acc h items h', forEach_push l (embeddedItemStep rec f mc qc) acc h ≠ Done items h'.
Proof.
  intros Hin Hc. induction l as [|x l IH]; intros acc h items h'; simpl.
  - by apply elem_of_nil in Hin.
  - unfold bind.
    destruct (embeddedItemStep rec f mc qc x acc h) as [a s'| |] eqn:Hstep; [|done|done].
    apply elem_of_cons in Hin as [<-|Hin].
    + unfold embeddedItemStep in Hstep. by rewrite Hc in Hstep.
    + by apply IH.
Qed.

(** What the payload inherits under a codename is never mapped: it has
    no [system] to compare or to map. *)
Hypothesis Hrec : ∀ h r h', rec (Some prototypeMember) mc qc PArray h ≠ Done r h'.

Lemma linkedItemStep_inherited (f : IField.t) (c : string) (acc : list ref) (h : Heap) :
  mc !! c = None → inherited c = true →
  ∀ res h', linkedItemStep this rec f mc qc c acc h ≠ Done res h'.
Proof.
  intros Hc Hin res h'. unfold linkedItemStep.
  rewrite (payloadItem_inherited mc c Hc Hin). simpl.
  unfold bind, find_processed. destruct (processed h) as [|m ps]; simpl.
  - destruct (rec (Some prototypeMember) mc qc PArray h) as [r h1| |] eqn:E; [|done|done].
    by destruct (Hrec h r h1).
  - unfold same_codename. by destruct (store h !! m ≫= get "system") as [[]|].
Qed.

Lemma linkedItems_inherited (f : IField.t) (l : list string) (c : string) :
  c ∈ l → mc !! c = None → inherited c = true →
  ∀ acc h res h', forEach_push l (linkedItemStep this rec f mc qc) acc h ≠ Done res h'.
Proof.
  intros Hin Hc Hi. induction l as [|x l IH]; intros acc h res h'; simpl.
  - by apply elem_of_nil in Hin.
  - unfold bind.
    destruct (linkedItemStep this rec f mc qc x acc h) as [a s'| |] eqn:Hstep; [|done|done].
    apply elem_of_cons in Hin as [<-|Hin].
    + by destruct (linkedItemStep_inherited f c acc h Hc Hi a s').
    + by apply IH.
Qed.

Lemma embeddedItems_inherited (f : IField.t) (l : list string) (c : string) :
  c ∈ l → mc !! c = None → inherited c = true →
  ∀ acc h res h', forEach_push l (embeddedItemStep rec f mc qc) acc h ≠ Done res h'.
Proof.
  intros Hin Hc Hi. induction l as [|x l IH]; intros acc h res h'; simpl.
  - by apply elem_of_nil in Hin.
  - unfold bind.
    destruct (embeddedItemStep rec f mc qc x acc h) as [a s'| |] eqn:Hstep; [|done|done].
    apply elem_of_cons in Hin as [<-|Hin].
    + unfold embeddedItemStep in Hstep. rewrite (payloadItem_inherited mc c Hc Hi) in Hstep.
      unfold bind in Hstep.
      destruct (rec (Some prototypeMember) mc qc PArray h) as [r h1| |] eqn:E; [|done|done].
      by destruct (Hrec h r h1).
    + by apply IH.
Qed.

End Absent.

Lemma mapFields_prototypeMember (this : Collaborators) (fuel : nat)
    (mc : gmap string RawItem) (qc : IItemQueryConfig) (p : ProcessedArg) (h : Heap) r h' :
  mapFields this fuel (Some prototypeMember) mc qc p h ≠ Done r h'.
Proof. by destruct fuel. Qed.

(** What the payload answers with and a call maps is an item of its
    own. *)
Lemma payloadItem_mapped
    (rec : option RawItem → gmap string RawItem → IItemQueryConfig → ProcessedArg → M Heap ref)
    (mc : gmap string RawItem) (qc : IItemQueryConfig) (c : string) (Y : RawItem)
    (h h' : Heap) (r : ref) :
  (∀ h r h', rec (Some prototypeMember) mc qc PArray h ≠ Done r h') →
  payloadItem mc c = Some Y → rec (Some Y) mc qc PArray h = Done r h' → mc !! c = Some Y.
Proof.
  intros Hrec. unfold payloadItem. destruct (mc !! c); [done|].
  destruct (inherited c); [|done]. intros [= <-] H. by destruct (Hrec h r h').
Qed.

(** A step of the linked-items loop that returns found under the
    codename what the payload itself holds. *)
Lemma linkedItemStep_Done_own (this : Collaborators)
    (rec : option RawItem → gmap string RawItem → IItemQueryConfig → ProcessedArg → M Heap ref)
    (f : IField.t) (mc : gmap string RawItem) (qc : IItemQueryConfig) (c : string)
    (acc res : list ref) (h h' : Heap) :
  (∀ h r h', rec (Some prototypeMember) mc qc PArray h ≠ Done r h') →
  linkedItemStep this rec f mc qc c acc h = Done res h' → payloadItem mc c = mc !! c.
Proof.
  intros Hrec H. destruct (mc !! c) as [Y|] eqn:Hc; [by apply payloadItem_own|].
  destruct (inherited c) eqn:Hi.
  - by destruct (linkedItemStep_inherited this rec mc qc Hrec f c acc h Hc Hi res h').
  - by apply payloadItem_None.
Qed.

Lemma linkedItemStep_mapFields_own (this : Collaborators) (fuel : nat) (f : IField.t)
    (mc : gmap string RawItem) (qc : IItemQueryConfig) (c : string)
    (acc res : list ref) (h h' : Heap) :
  linkedItemStep this (mapFields this fuel) f mc qc c acc h = Done res h' →
  payloadItem mc c = mc !! c.
Proof.
  apply linkedItemStep_Done_own. intros ? ? ?. apply mapFields_prototypeMember.
Qed.

(** C5, as stated, fails: under the default configuration a rich-text
    field that lists a codename the payload lacks is not mapped with the
    codename dropped; [mapRichTextField] throws. *)
Lemma mapRichTextField_absent_codename_throws :
  mapRichTextField (plainMapper false) (mapFields (plainMapper false) 1) teaserBody ∅
    noLinkResolver empty_heap =
  Thrown (modularItemMissing "ghost" "Body") empty_heap.
Proof. reflexivity. Qed.

(** C5, amended. In a linked-items field a codename under which the
    payload holds nothing (no item, and no member every object inherits)
    is dropped from the resulting list and never raises an error, under
    every configuration: a field that lists only such codenames maps to
    the empty list, with one warning each when advanced logging is
    enabled; without logging the field maps exactly as the field that
    lists only the codenames the payload answers to; and wherever such a
    codename stands in the list, the loop passes it with nothing but that
    warning. No setting makes this throw. A rich-text field that lists
    such a codename never maps: as soon as the codenames listed before it
    are mapped, it throws the error that names the codename and the
    field, on the heap as those calls left it. A codename that the
    payload lacks but every object answers to, such as [constructor], is
    not dropped either: neither kind of field maps, and where the
    codename comes first the mapper throws at once, for want of the
    system attributes of what the payload answers with. *)
Theorem modular_codename_absent_from_payload (this : Collaborators)
    (rec : option RawItem → gmap string RawItem → IItemQueryConfig → ProcessedArg → M Heap ref)
    (f : IField.t) (mc : gmap string RawItem) (qc : IItemQueryConfig) (h : Heap) :
  (∀ l, IField.value f = RVStrings l → Forall (λ c, payloadItem mc c = None) l →
     mapModularField this rec (Some f) mc qc h =
       Done (JArray [])
            (if enableAdvancedLogging (config this)
             then logged (replicate (length l) (modularItemDropped (IField.name f))) h
             else h)) ∧
  (∀ l, IField.value f = RVStrings l → enableAdvancedLogging (config this) = false →
     mapModularField this rec (Some f) mc qc h =
     mapModularField this rec
       (Some (with_value f (RVStrings (List.filter (answers mc) l)))) mc qc h) ∧
  (∀ l1 c l2, IField.value f = RVStrings (l1 ++ c :: l2) → payloadItem mc c = None →
     mapModularField this rec (Some f) mc qc h =
       (before <- forEach_push l1 (linkedItemStep this rec f mc qc) [] ;;;
        when (enableAdvancedLogging (config this))
          (warn (modularItemDropped (IField.name f))) ;;;
        items <- forEach_push l2 (linkedItemStep this rec f mc qc) before ;;;
        ret (JArray items)) h) ∧
  (∀ l c, IField.modular_content f = Some l → c ∈ l → payloadItem mc c = None →
     ∀ v h', mapRichTextField this rec f mc qc h ≠ Done v h') ∧
  (∀ l1 c l2 items h1, IField.modular_content f = Some (l1 ++ c :: l2) →
     payloadItem mc c = None →
     forEach_push l1 (embeddedItemStep rec f mc qc) [] h = Done items h1 →
     mapRichTextField this rec f mc qc h =
       Thrown (modularItemMissing c (IField.name f)) h1) ∧
  (∀ fuel l c, c ∈ l → mc !! c = None → inherited c = true →
     (IField.value f = RVStrings l →
      ∀ v h', mapModularField this (mapFields this fuel) (Some f) mc qc h ≠ Done v h') ∧
     (IField.modular_content f = Some l →
      ∀ v h', mapRichTextField this (mapFields this fuel) f mc qc h ≠ Done v h')) ∧
  (∀ fuel l c, mc !! c = None → inherited c = true →
     (IField.value f = RVStrings (c :: l) →
      mapModularField this (mapFields this (S fuel)) (Some f) mc qc h =
        Thrown (match processed h with
                | [] => MalformedResponse_system
                | _ => TypeError "Cannot read properties of undefined (reading 'codename')"
                end) h) ∧
     (IField.modular_content f = Some (c :: l) →
      mapRichTextField this (mapFields this (S fuel)) f mc qc h =
        Thrown MalformedResponse_system h)).
Proof.
  split; [|split; [|split; [|split; [|split; [|split]]]]].
  - intros l Hv Habs. unfold mapModularField. rewrite Hv. simpl.
    unfold bind. rewrite (linkedItems_all_absent this rec mc qc f l Habs). reflexivity.
  - intros l Hv Hlog. unfold mapModularField. rewrite Hv. simpl.
    unfold bind. by rewrite (linkedItems_filter_answers this rec mc qc f l Hlog).
  - intros l1 c l2 Hv Hc. unfold mapModularField. rewrite Hv. simpl.
    unfold bind at 1. rewrite (linkedItems_absent_skipped this rec mc qc f l1 l2 c Hc).
    fold (logging this). unfold bind.
    destruct (forEach_push l1 _ [] h) as [before h1| |]; [|done|done].
    by destruct (when (logging this) _ h1).
  - intros l c Hm Hin Hc v h'. unfold mapRichTextField. rewrite Hm. unfold bind.
    destruct (forEach_push l _ [] h) as [items s'| |] eqn:Hloop; [|done|done].
    exfalso. by eapply (embeddedItems_absent rec mc qc f l c Hin Hc).
  - intros l1 c l2 items h1 Hm Hc Hbefore. unfold mapRichTextField. rewrite Hm.
    unfold bind at 1. rewrite forEach_push_app. unfold bind at 1. rewrite Hbefore.
    simpl. unfold bind at 1. unfold embeddedItemStep at 1. by rewrite Hc.
  - intros fuel l c Hin Hc Hi. split.
    + intros Hv v h'. unfold mapModularField. rewrite Hv. simpl. unfold bind.
      destruct (forEach_push l _ [] h) as [items s'| |] eqn:Hloop; [|done|done].
      exfalso. eapply (linkedItems_inherited this (mapFields this fuel) mc qc); try done.
      intros ? ? ?. apply mapFields_prototypeMember.
    + intros Hm v h'. unfold mapRichTextField. rewrite Hm. unfold bind.
      destruct (forEach_push l _ [] h) as [items s'| |] eqn:Hloop; [|done|done].
      exfalso. eapply (embeddedItems_inherited (mapFields this fuel) mc qc); try done.
      intros ? ? ?. apply mapFields_prototypeMember.
  - intros fuel l c Hc Hi. split.
    + intros Hv. unfold mapModularField. rewrite Hv. simpl.
      unfold bind at 1. unfold bind at 1. unfold linkedItemStep at 1.
      rewrite (payloadItem_inherited mc c Hc Hi). simpl.
      unfold bind at 1. unfold find_processed. destruct (processed h) as [|m ps]; simpl.
      * reflexivity.
      * unfold same_codename. by destruct (store h !! m ≫= get "system") as [[]|].
    + intros Hm. unfold mapRichTextField. rewrite Hm. simpl.
      unfold bind at 1. unfold bind at 1. unfold embeddedItemStep at 1.
      by rewrite (payloadItem_inherited mc c Hc Hi).
Qed.

Lemma modular_codename_absent_from_payload_witness :
  mapModularField (plainMapper true) (mapFields (plainMapper true) 1)
    (field "Friends" "modular_content" (RVStrings ["ghost"]) None) team noLinkResolver
    empty_heap =
  Done (JArray []) (logged [modularItemDropped "Friends"] empty_heap) ∧
  mapRichTextField (plainMapper true) (mapFields (plainMapper true) 1) teaserBody team
    noLinkResolver empty_heap =
  Thrown (modularItemMissing "ghost" "Body") empty_heap ∧
  mapModularField (plainMapper true) (mapFields (plainMapper true) 1)
    (field "Friends" "modular_content" (RVStrings ["constructor"; "bob"]) None) team
    noLinkResolver empty_heap =
  Thrown MalformedResponse_system empty_heap.
Proof.
  split; [|split].
  - refine (proj1 (modular_codename_absent_from_payload (plainMapper true)
                     (mapFields (plainMapper true) 1)
                     (rawField "Friends" "modular_content" (RVStrings ["ghost"]) None)
                     team noLinkResolver empty_heap) ["ghost"] eq_refl _).
    by repeat constructor.
  - exact (proj1 (proj2 (proj2 (proj2 (proj2 (modular_codename_absent_from_payload
                     (plainMapper true) (mapFields (plainMapper true) 1) teaserBody team
                     noLinkResolver empty_heap))))) [] "ghost" [] [] empty_heap
                   eq_refl eq_refl eq_refl).
  - refine (proj1 (proj2 (proj2 (proj2 (proj2 (proj2 (proj2
              (modular_codename_absent_from_payload (plainMapper true)
                 (mapFields (plainMapper true) 1)
                 (rawField "Friends" "modular_content" (RVStrings ["constructor"; "bob"])
                    None)
                 team noLinkResolver empty_heap)))))) 0 ["bob"] "constructor" _ eq_refl)
              eq_refl).
    by vm_compute.
Defined.

(** ** More fuel changes nothing *)

Lemma extends_refl {S A} (m : M S A) : extends m m.
Proof. by intros s _. Qed.

Lemma bind_extends {S A B} (m m' : M S A) (k k' : A → M S B) :
  extends m m' → (∀ a, extends (k a) (k' a)) → extends (bind m k) (bind m' k').
Proof.
  intros Hm Hk s Hs. unfold bind in *.
  destruct (m s) as [a s1| |] eqn:E; [| |done].
  - rewrite (Hm s) by (by rewrite E). rewrite E. by apply Hk.
  - rewrite (Hm s) by (by rewrite E). by rewrite E.
Qed.

Lemma forEach_extends {S A} (l : list A) (f f' : A → M S unit) :
  (∀ x, extends (f x) (f' x)) → extends (forEach l f) (forEach l f').
Proof.
  intros Hf. induction l as [|x l IH]; simpl; [apply extends_refl|].
  apply bind_extends; [apply Hf | by intros _].
Qed.

Lemma forEach_push_extends {S A B} (l : list A) (f f' : A → list B → M S (list B)) :
  (∀ x acc, extends (f x acc) (f' x acc)) →
  ∀ acc, extends (forEach_push l f acc) (forEach_push l f' acc).
Proof.
  intros Hf. induction l as [|x l IH]; intros acc; simpl; [apply extends_refl|].
  apply bind_extends; [apply Hf | apply IH].
Qed.

Section Fuel.
Variable this : Collaborators.
Variable rec :
  option RawItem → gmap string RawItem → IItemQueryConfig → ProcessedArg → M Heap ref.
Variable rec' :
  option RawItem → gmap string RawItem → IItemQueryConfig → ProcessedArg → M Heap ref.
Hypothesis Hrec : ∀ item mc qc p, extends (rec item mc qc p) (rec' item mc qc p).

Lemma mapModularField_extends f mc qc :
  extends (mapModularField this rec f mc qc) (mapModularField this rec' f mc qc).
Proof.
  unfold mapModularField. destruct f as [f|]; [|apply extends_refl].
  destruct (negb (value_truthy (IField.value f))); [apply extends_refl|].
  destruct (IField.value f); try apply extends_refl.
  apply bind_extends; [|intros; apply extends_refl].
  apply forEach_push_extends. intros c acc. unfold linkedItemStep.
  destruct (payloadItem mc c); [|apply extends_refl].
  apply bind_extends; [apply extends_refl|]. intros [?|]; [apply extends_refl|].
  apply bind_extends; [apply Hrec | intros; apply extends_refl].
Qed.

Lemma mapRichTextField_extends f mc qc :
  extends (mapRichTextField this rec f mc qc) (mapRichTextField this rec' f mc qc).
Proof.
  unfold mapRichTextField. apply bind_extends; [|intros; apply extends_refl].
  destruct (IField.modular_content f); [|apply extends_refl].
  apply forEach_push_extends. intros c acc. unfold embeddedItemStep.
  destruct (payloadItem mc c); [|apply extends_refl].
  apply bind_extends; [apply Hrec | intros; apply extends_refl].
Qed.

Lemma mapField_extends f mc item qc :
  extends (mapField this rec f mc item qc) (mapField this rec' f mc item qc).
Proof.
  unfold mapField. destruct f as [f|]; [|apply extends_refl].
  repeat match goal with
         | |- context [if ?b then _ else _] => destruct b
         end;
    try apply extends_refl;
    [apply mapModularField_extends | apply mapRichTextField_extends].
Qed.

Lemma mapFields_body_extends item mc qc p :
  extends (mapFields_body this rec item mc qc p) (mapFields_body this rec' item mc qc p).
Proof.
  unfold mapFields_body. apply bind_extends; [apply extends_refl|].
  intros [[X s] els]. apply bind_extends; [apply extends_refl|]. intros r.
  apply bind_extends; [apply extends_refl|]. intros res.
  apply bind_extends; [apply extends_refl|]. intros _.
  apply bind_extends; [|intros; apply extends_refl].
  apply forEach_extends. intros k. unfold mapProperty.
  apply bind_extends; [apply extends_refl|]. intros o.
  apply bind_extends; [apply extends_refl|]. intros pn.
  apply bind_extends; [apply mapField_extends | intros; apply extends_refl].
Qed.
End Fuel.

Lemma mapFields_more_fuel (this : Collaborators) (fuel fuel' : nat) :
  (fuel ≤ fuel')%nat →
  ∀ item mc qc p, extends (mapFields this fuel item mc qc p) (mapFields this fuel' item mc qc p).
Proof.
  revert fuel'. induction fuel as [|n IH]; intros fuel' Hle item mc qc p.
  - by intros s Hs.
  - destruct fuel' as [|n']; [lia|]. simpl.
    apply mapFields_body_extends. intros. apply IH. lia.
Qed.

(** ** A pass over a graph of linked items *)

(** ** Objects *)

Lemma get_set_eq {V} (k : string) (v : V) (o : list (string * V)) :
  get k (set k v o) = Some v.
Proof.
  induction o as [|[k' v'] o IH]; simpl.
  - by rewrite String.eqb_refl.
  - destruct (String.eqb k' k) eqn:E; simpl; by rewrite E.
Qed.

Lemma get_set_ne {V} (k k' : string) (v : V) (o : list (string * V)) :
  k ≠ k' → get k' (set k v o) = get k' o.
Proof.
  intros Hne. induction o as [|[k1 v1] o IH]; simpl.
  - by destruct (String.eqb_spec k k').
  - destruct (String.eqb_spec k1 k) as [->|Hk]; simpl.
    + by destruct (String.eqb_spec k k').
    + by rewrite IH.
Qed.

Lemma elem_of_set {V} (k : string) (v : V) (o : list (string * V)) k' v' :
  (k', v') ∈ set k v o → (k', v') ∈ o ∨ v' = v.
Proof.
  induction o as [|[k1 v1] o IH]; simpl; intros Hin.
  - apply list_elem_of_singleton in Hin. right. congruence.
  - destruct (String.eqb k1 k); apply elem_of_cons in Hin as [Hin|Hin].
    + right. congruence.
    + left. by apply list_elem_of_further.
    + left. rewrite Hin. apply list_elem_of_here.
    + destruct (IH Hin); [left; by apply list_elem_of_further | by right].
Qed.

Lemma reserved_system (p : string) : reserved p = false → p ≠ "system".
Proof. intros H ->. discriminate H. Qed.

Lemma reserved_resolver (p : string) : reserved p = false → p ≠ "propertyResolver".
Proof. intros H ->. discriminate H. Qed.

Lemma good_object_set (o : ContentItem) (p : string) (v : JsVal) :
  reserved p = false → good_object o → good_object (set p v o).
Proof.
  intros Hp [[s Hs] Hr]. split.
  - exists s. rewrite get_set_ne; [done | by apply reserved_system].
  - unfold resolver_ok in *. rewrite get_set_ne; [done | by apply reserved_resolver].
Qed.

(** ** Codenames of references *)

Lemma codename_of_Some (st : list ContentItem) (r : ref) (c : string) :
  codename_of st r = Some c →
  ∃ o s, st !! r = Some o ∧ get "system" o = Some (JSystem s) ∧ System.codename s = c.
Proof.
  unfold codename_of. destruct (st !! r) as [o|]; simpl; [|done].
  destruct (get "system" o) as [[]|] eqn:Hs; try done. intros [= <-]. eauto.
Qed.

Lemma codename_of_intro (st : list ContentItem) (r : ref) o s :
  st !! r = Some o → get "system" o = Some (JSystem s) →
  codename_of st r = Some (System.codename s).
Proof. unfold codename_of. intros -> . simpl. by intros ->. Qed.

Lemma codename_of_app (st : list ContentItem) (o : ContentItem) (r : ref) c :
  codename_of st r = Some c → codename_of (st ++ [o]) r = Some c.
Proof.
  intros (o' & s & Hl & Hs & <-)%codename_of_Some.
  eapply codename_of_intro; [|done]. by apply lookup_app_l_Some.
Qed.

Lemma codename_of_insert (st : list ContentItem) (r0 : ref) o p v (r : ref) :
  st !! r0 = Some o → reserved p = false →
  codename_of (<[r0 := set p v o]> st) r = codename_of st r.
Proof.
  intros Hl Hp. unfold codename_of.
  destruct (decide (r = r0)) as [->|Hne].
  - rewrite list_lookup_insert_eq by (by eapply lookup_lt_Some). rewrite Hl. simpl.
    rewrite get_set_ne; [done | by apply reserved_system].
  - by rewrite list_lookup_insert_ne.
Qed.

Lemma Inv_codename (h : Heap) (r : ref) :
  Inv h → r ∈ processed h → is_Some (codename_of (store h) r).
Proof.
  intros HI Hr. pose proof (inv_valid h HI r Hr) as Hlt.
  apply lookup_lt_is_Some in Hlt as [o Ho].
  destruct (inv_objects h HI o) as [[s Hs] _]; [by eapply list_elem_of_lookup_2|].
  exists (System.codename s). by eapply codename_of_intro.
Qed.

Lemma registered_pcodes (h : Heap) c r : registered h c r → c ∈ pcodes h.
Proof. intros [Hr Hc]. apply list_elem_of_omap. eauto. Qed.

Lemma pcodes_registered (h : Heap) c : c ∈ pcodes h → ∃ r, registered h c r.
Proof. intros (r & Hr & Hc)%list_elem_of_omap. by exists r. Qed.

(** ** [processedItems.find] *)

Lemma same_codename_registered (st : list ContentItem) (s : System.t) (m : ref) c :
  codename_of st m = Some c →
  same_codename st (Some s) m = Some (String.eqb c (System.codename s)).
Proof.
  intros (o & s' & Hl & Hs & <-)%codename_of_Some.
  unfold same_codename. rewrite Hl. simpl. by rewrite Hs.
Qed.

Lemma find_in_spec (st : list ContentItem) (s : System.t) (ps : list ref) :
  (∀ r, r ∈ ps → is_Some (codename_of st r)) →
  ∃ res, find_in st (Some s) ps = Some res ∧
         match res with
         | None => System.codename s ∉ omap (codename_of st) ps
         | Some r => r ∈ ps ∧ codename_of st r = Some (System.codename s)
         end.
Proof.
  induction ps as [|m ps IH]; intros Hall; simpl.
  - exists None. split; [done|]. apply not_elem_of_nil.
  - destruct (Hall m) as [c Hc]; [apply list_elem_of_here|].
    rewrite (same_codename_registered _ _ _ _ Hc), Hc.
    destruct (String.eqb_spec c (System.codename s)) as [->|Hne].
    + exists (Some m). split; [done|]. split; [apply list_elem_of_here | done].
    + destruct IH as [res [Hres Hpost]].
      { intros r Hr. apply Hall. by apply list_elem_of_further. }
      exists res. split; [done|]. destruct res as [r|].
      * destruct Hpost. split; [by apply list_elem_of_further | done].
      * intros [Heq|Hin]%elem_of_cons; [congruence | done].
Qed.

Lemma find_processed_spec (h : Heap) (s : System.t) :
  Inv h →
  ∃ res, find_processed (Some s) h = Done res h ∧
         match res with
         | None => System.codename s ∉ pcodes h
         | Some r => registered h (System.codename s) r
         end.
Proof.
  intros HI. destruct (find_in_spec (store h) s (processed h)) as [res [Hres Hpost]].
  { intros r Hr. by apply Inv_codename. }
  exists res. unfold find_processed. rewrite Hres. done.
Qed.

Lemma read_ok (h : Heap) (r : ref) (o : ContentItem) :
  store h !! r = Some o → read r h = Done o h.
Proof. intros H. unfold read. by rewrite H. Qed.

(** ** Growth of the heap *)

Lemma evolves_refl (h : Heap) : evolves h h.
Proof. split; [done | auto]. Qed.

Lemma evolves_trans (h1 h2 h3 : Heap) : evolves h1 h2 → evolves h2 h3 → evolves h1 h3.
Proof. intros [Hp1 Hc1] [Hp2 Hc2]. split; [by etrans | auto]. Qed.

Lemma evolves_processed (h h' : Heap) r : evolves h h' → r ∈ processed h → r ∈ processed h'.
Proof. intros [[k ->] _] Hr. apply elem_of_app. by left. Qed.

Lemma evolves_registered (h h' : Heap) c r :
  evolves h h' → registered h c r → registered h' c r.
Proof.
  intros Hev [Hr Hc]. split; [by eapply evolves_processed | by apply Hev].
Qed.

Lemma evolves_pcodes (h h' : Heap) c : evolves h h' → c ∈ pcodes h → c ∈ pcodes h'.
Proof.
  intros Hev (r & Hreg)%pcodes_registered.
  eapply registered_pcodes, evolves_registered; eauto.
Qed.

Lemma omap_agree {A B} (f g : A → option B) (l : list A) :
  (∀ x, x ∈ l → is_Some (f x) ∧ g x = f x) → omap g l = omap f l.
Proof.
  induction l as [|x l IH]; intros H; [done|].
  destruct (H x) as [_ Hx]; [apply list_elem_of_here|].
  assert (IH' : omap g l = omap f l).
  { apply IH. intros y Hy. apply H. by apply list_elem_of_further. }
  cbn. rewrite Hx. destruct (f x); [f_equal|]; exact IH'.
Qed.

(** Registering [r] under a codename that is not there yet, without
    touching the codename of any reference. *)
Lemma pcodes_push (h h' : Heap) (r : ref) c :
  Inv h → processed h' = processed h ++ [r] →
  (∀ r' c', codename_of (store h) r' = Some c' → codename_of (store h') r' = Some c') →
  codename_of (store h') r = Some c →
  pcodes h' = pcodes h ++ [c].
Proof.
  intros HI Hp Hst Hc. unfold pcodes. rewrite Hp, omap_app. simpl. rewrite Hc. f_equal.
  apply omap_agree. intros x Hx. destruct (Inv_codename h x HI Hx) as [cx Hcx].
  split; [by eexists|]. rewrite Hcx. by apply Hst.
Qed.

Lemma same_data_pcodes (h h' : Heap) :
  store h' = store h → processed h' = processed h → pcodes h' = pcodes h.
Proof. unfold pcodes. by intros -> ->. Qed.

Lemma same_data_Inv (h h' : Heap) :
  store h' = store h → processed h' = processed h → Inv h → Inv h'.
Proof.
  intros Hs Hp [H1 H2 H3 H4].
  constructor; rewrite ?(same_data_pcodes h h' Hs Hp), ?Hs, ?Hp; done.
Qed.

Lemma same_data_evolves (h h' : Heap) :
  store h' = store h → processed h' = processed h → evolves h h'.
Proof. intros Hs Hp. split; rewrite ?Hs, ?Hp; [done | auto]. Qed.

Lemma when_warn (b : bool) (msg : string) (h : Heap) :
  ∃ h', when b (warn msg) h = Done tt h' ∧ store h' = store h ∧ processed h' = processed h.
Proof. destruct b; simpl; eexists; (split; [reflexivity | done]). Qed.

(** ** The primitive steps keep the invariant *)

Lemma alloc_ok (h : Heap) (o : ContentItem) (s : System.t) :
  Inv h → good_object o → get "system" o = Some (JSystem s) →
  (∀ k v, (k, v) ∈ o → refs_of v = []) →
  ∃ h1, alloc o h = Done (length (store h)) h1 ∧ Inv h1 ∧ evolves h h1 ∧
        pcodes h1 = pcodes h ∧
        codename_of (store h1) (length (store h)) = Some (System.codename s).
Proof.
  intros HI Hgood Hs Hrefs. eexists. split; [reflexivity|].
  assert (Hpc : pcodes {| store := store h ++ [o]; processed := processed h;
                          console := console h |} = pcodes h).
  { unfold pcodes. simpl. apply omap_agree. intros x Hx.
    destruct (Inv_codename h x HI Hx) as [c Hc]. split; [by eexists|].
    rewrite Hc. by apply codename_of_app. }
  split; [|split; [|split; [done|]]].
  - constructor; simpl.
    + intros o' [Hin|Hin%list_elem_of_singleton]%elem_of_app;
        [by apply (inv_objects h HI) | by subst].
    + intros r Hr. rewrite length_app. simpl. pose proof (inv_valid h HI r Hr). lia.
    + rewrite Hpc. apply (inv_nodup h HI).
    + intros o' k v r [Hin|Hin%list_elem_of_singleton]%elem_of_app Hkv Hr.
      * by eapply (inv_closed h HI).
      * subst o'. rewrite (Hrefs k v Hkv) in Hr. by apply elem_of_nil in Hr.
  - split; simpl; [done|]. intros r c. apply codename_of_app.
  - simpl. eapply codename_of_intro; [|done]. by rewrite lookup_app_r, Nat.sub_diag.
Qed.

Lemma push_ok (h : Heap) (r : ref) (c : string) :
  Inv h → codename_of (store h) r = Some c → c ∉ pcodes h →
  ∃ h2, push_processed r h = Done tt h2 ∧ Inv h2 ∧ evolves h h2 ∧
        store h2 = store h ∧ pcodes h2 = pcodes h ++ [c] ∧ r ∈ processed h2.
Proof.
  intros HI Hc Hnew. eexists. split; [reflexivity|].
  assert (Hpc : pcodes {| store := store h; processed := processed h ++ [r];
                          console := console h |} = pcodes h ++ [c]).
  { apply (pcodes_push h _ r c); simpl; auto. }
  split; [|split; [|split; [done|split; [done|]]]].
  - constructor; simpl.
    + apply (inv_objects h HI).
    + intros r' [Hr|Hr%list_elem_of_singleton]%elem_of_app; [by apply (inv_valid h HI)|].
      subst r'. apply codename_of_Some in Hc as (o & _ & Hl & _). by eapply lookup_lt_Some.
    + rewrite Hpc. apply NoDup_app. split; [apply (inv_nodup h HI)|]. split.
      * intros x Hx ->%list_elem_of_singleton. done.
      * apply NoDup_singleton.
    + intros o k v r' Ho Hkv Hr. apply elem_of_app. left. by eapply (inv_closed h HI).
  - split; simpl; [by apply prefix_app_r | auto].
  - simpl. apply elem_of_app. right. apply list_elem_of_here.
Qed.

Lemma set_property_ok (h : Heap) (r0 : ref) (o : ContentItem) (p : string) (v : JsVal) :
  Inv h → store h !! r0 = Some o → reserved p = false →
  (∀ r, r ∈ refs_of v → r ∈ processed h) →
  ∃ h3, set_property r0 p v h = Done tt h3 ∧ Inv h3 ∧ evolves h h3 ∧
        processed h3 = processed h ∧ pcodes h3 = pcodes h.
Proof.
  intros HI Hl Hp Hrefs. unfold set_property. setoid_rewrite Hl.
  eexists. split; [reflexivity|].
  assert (Hpc : pcodes {| store := <[r0 := set p v o]> (store h); processed := processed h;
                          console := console h |} = pcodes h).
  { unfold pcodes. simpl. apply omap_agree. intros x Hx.
    split; [by apply Inv_codename|]. by apply codename_of_insert. }
  split; [|split; [|split; [done|done]]].
  - constructor; simpl.
    + intros o' (i & Hi)%list_elem_of_lookup_1.
      apply list_lookup_insert_Some in Hi as [(-> & <- & _)|(_ & Hi)].
      * apply good_object_set; [done|]. apply (inv_objects h HI).
        by eapply list_elem_of_lookup_2.
      * apply (inv_objects h HI). by eapply list_elem_of_lookup_2.
    + intros r Hr. rewrite length_insert. by apply (inv_valid h HI).
    + rewrite Hpc. apply (inv_nodup h HI).
    + intros o' k v' r (i & Hi)%list_elem_of_lookup_1 Hkv Hr.
      apply list_lookup_insert_Some in Hi as [(-> & <- & _)|(_ & Hi)].
      * apply elem_of_set in Hkv as [Hkv| ->]; [|by apply Hrefs].
        eapply (inv_closed h HI); [|exact Hkv|exact Hr]. by eapply list_elem_of_lookup_2.
      * eapply (inv_closed h HI); [|exact Hkv|exact Hr]. by eapply list_elem_of_lookup_2.
  - split; simpl; [done|]. intros r c Hc. by rewrite codename_of_insert.
Qed.

(** ** The number of codenames left to register *)

Lemma remaining_mono (mc : gmap string RawItem) (root : RawItem) (h h' : Heap) :
  (∀ c, c ∈ pcodes h → c ∈ pcodes h') →
  (remaining mc root h' ≤ remaining mc root h)%nat.
Proof.
  intros Hsub. unfold remaining. apply subseteq_size.
  intros x [Hu Hn]%elem_of_difference. apply elem_of_difference. split; [done|].
  intros Hx%elem_of_list_to_set. apply Hn, elem_of_list_to_set. by apply Hsub.
Qed.

Lemma remaining_lt (mc : gmap string RawItem) (root : RawItem) (h h' : Heap) (c : string) :
  (∀ c, c ∈ pcodes h → c ∈ pcodes h') →
  c ∈ universe mc root → c ∉ pcodes h → c ∈ pcodes h' →
  remaining mc root h' < remaining mc root h.
Proof.
  intros Hsub Hu Hn Hy. unfold remaining. apply subset_size. split.
  - intros x [Hxu Hxn]%elem_of_difference. apply elem_of_difference. split; [done|].
    intros Hx%elem_of_list_to_set. apply Hxn, elem_of_list_to_set. by apply Hsub.
  - intros Hsup. specialize (Hsup c). rewrite !elem_of_difference in Hsup.
    destruct Hsup as [_ Hc]; [by rewrite elem_of_list_to_set|].
    apply Hc. by apply elem_of_list_to_set.
Qed.

Section Pass.
Variable this : Collaborators.
Variable mc : gmap string RawItem.
Variable root : RawItem.
Variable qc : IItemQueryConfig.
Hypothesis Hreg : registry_ok this.
Hypothesis Hgraph : graph_ok this mc root.

Lemma ready_pcodes_eq budget stack (h h' : Heap) :
  Inv h' → pcodes h' = pcodes h → ready mc root budget stack h → ready mc root budget stack h'.
Proof.
  intros HI Hpc (_ & Hrem & Hfin & Hroot).
  split; [done|]. unfold remaining, finished in *. rewrite Hpc. done.
Qed.

Lemma ready_same_data budget stack (h h' : Heap) :
  store h' = store h → processed h' = processed h →
  ready mc root budget stack h → ready mc root budget stack h'.
Proof.
  intros Hs Hp Hr. eapply ready_pcodes_eq; [|by apply same_data_pcodes|done].
  eapply same_data_Inv; [done|done|apply Hr].
Qed.

Section Fields.
Variable rec :
  option RawItem → gmap string RawItem → IItemQueryConfig → ProcessedArg → M Heap ref.
Variable budget : nat.
Hypothesis Hrec : call_ok mc root qc rec budget.

Lemma registered_all (h : Heap) (cs : list string) (rs : list ref) :
  Forall2 (registered h) cs rs →
  (∀ r, r ∈ rs → r ∈ processed h) ∧ (∀ c, c ∈ cs → c ∈ pcodes h).
Proof.
  induction 1 as [|c r cs rs Hcr _ [IHr IHc]]; split; intros x Hx.
  - by apply elem_of_nil in Hx.
  - by apply elem_of_nil in Hx.
  - apply elem_of_cons in Hx as [->|Hx]; [apply Hcr | by apply IHr].
  - apply elem_of_cons in Hx as [->|Hx]; [by eapply registered_pcodes | by apply IHc].
Qed.

Lemma linkedItemStep_ok stack (f : IField.t) (c : string) (acc : list ref) (h : Heap) :
  own_or_absent mc c = true → ready mc root budget stack h →
  ∃ new h1, linkedItemStep this rec f mc qc c acc h = Done (acc ++ new) h1 ∧
            ready mc root budget stack h1 ∧ evolves h h1 ∧
            Forall2 (registered h1) (List.filter (present mc) [c]) new.
Proof.
  intros Hown Hready. unfold linkedItemStep. rewrite (payloadItem_own_or_absent mc c Hown).
  simpl. unfold present.
  destruct (mc !! c) as [X|] eqn:HX.
  - rewrite bool_decide_eq_true_2 by eauto.
    destruct (items_ok this mc root Hgraph c X HX) as [HXok Hcode].
    destruct (system X) as [s|] eqn:Hs; [|done]. simpl in Hcode.
    injection Hcode as Hcode.
    destruct Hready as (HI & Hrem & Hfin & Hroot).
    destruct (find_processed_spec h s HI) as [res [Hfind Hres]].
    rewrite (bind_Done _ _ _ _ _ Hfind). rewrite Hcode in Hres. destruct res as [r|].
    + exists [r], h. split; [done|]. split; [done|]. split; [apply evolves_refl|].
      constructor; [done | constructor].
    + destruct (Hrec stack X s h) as (r & h1 & Hcall & HI1 & Hev & Hreg1 & Hfin1);
        rewrite ?Hcode; try done.
      * unfold item_of. rewrite bool_decide_eq_false_2; [done|].
        intros Hrootc. by apply Hres, Hroot.
      * intros c0 Hc0. right. by apply Hroot.
      * rewrite Hcode in Hreg1.
        rewrite (bind_Done _ _ _ _ _ Hcall). exists [r], h1.
        split; [done|]. split; [|split; [done|constructor; [done | constructor]]].
        split; [done|]. split; [|split; [done|]].
        -- etrans; [|exact Hrem]. apply remaining_mono. intros c'. by apply evolves_pcodes.
        -- intros c0 Hc0. eapply evolves_pcodes; [done|]. by apply Hroot.
  - rewrite bool_decide_eq_false_2 by (by intros [? ?]).
    destruct (when_warn (logging this) (modularItemDropped (IField.name f)) h)
      as (h1 & Hw & Hs1 & Hp1).
    change (when (logging this) (warn (modularItemDropped (IField.name f))) h = Done tt h1) in Hw.
    rewrite (bind_Done _ _ _ _ _ Hw). exists [], h1. rewrite app_nil_r.
    split; [done|]. split; [by eapply ready_same_data|].
    split; [by apply same_data_evolves | constructor].
Qed.

Lemma linkedItems_ok stack (f : IField.t) (l : list string) :
  forallb (own_or_absent mc) l = true →
  ∀ acc h, ready mc root budget stack h →
  ∃ new h', forEach_push l (linkedItemStep this rec f mc qc) acc h = Done (acc ++ new) h' ∧
            ready mc root budget stack h' ∧ evolves h h' ∧
            Forall2 (registered h') (List.filter (present mc) l) new.
Proof.
  induction l as [|c l IH]; intros Hown acc h Hready.
  - exists [], h. rewrite app_nil_r. split; [done|]. split; [done|].
    split; [apply evolves_refl | constructor].
  - simpl in Hown. apply andb_true_iff in Hown as [Hc Hown].
    destruct (linkedItemStep_ok stack f c acc h Hc Hready)
      as (new1 & h1 & Hstep & Hready1 & Hev1 & Hnew1).
    destruct (IH Hown (acc ++ new1) h1 Hready1)
      as (new2 & h' & Hloop & Hready' & Hev' & Hnew2).
    cbn [forEach_push]. rewrite (bind_Done _ _ _ _ _ Hstep), Hloop.
    exists (new1 ++ new2), h'. rewrite app_assoc.
    split; [done|]. split; [done|]. split; [by eapply evolves_trans|].
    change (c :: l) with ([c] ++ l). rewrite List.filter_app.
    apply Forall2_app; [|done].
    eapply Forall2_impl; [exact Hnew1|]. intros c' r'. by apply evolves_registered.
Qed.

(** In a heap that is ready, a linked-items field maps to the list of the
    registered instances of the codenames the payload has, in the order
    the field lists them. *)
Lemma mapModularField_registered_instances stack (f : IField.t) (l : list string) (h : Heap) :
  ready mc root budget stack h → IField.value f = RVStrings l →
  forallb (own_or_absent mc) l = true →
  ∃ items h', mapModularField this rec (Some f) mc qc h = Done (JArray items) h' ∧
              ready mc root budget stack h' ∧ evolves h h' ∧
              Forall2 (registered h') (List.filter (present mc) l) items.
Proof.
  intros Hready Hv Hown. unfold mapModularField. rewrite Hv. simpl.
  destruct (linkedItems_ok stack f l Hown [] h Hready) as (items & h' & Hloop & Hrest).
  rewrite (bind_Done _ _ _ _ _ Hloop). by exists items, h'.
Qed.

Lemma field_links_other (f : IField.t) :
  String.eqb (IField.type f) FieldType.modular_content = false → field_links (Some f) = [].
Proof. unfold field_links. by intros ->. Qed.

Lemma mapField_ok stack (f : IField.t) (r0 : ref) (h : Heap) :
  ready mc root budget stack h → field_ok this mc (Some f) = true → r0 ∈ processed h →
  ∃ v h', mapField this rec (Some f) mc r0 qc h = Done v h' ∧
          ready mc root budget stack h' ∧ evolves h h' ∧
          (∀ r, r ∈ refs_of v → r ∈ processed h') ∧
          (∀ c, c ∈ field_links (Some f) → is_Some (mc !! c) → c ∈ pcodes h').
Proof.
  intros Hready Hok Hr0.
  assert (Hpure : ∀ v, refs_of v = [] → field_links (Some f) = [] →
    ∃ v' h', ret v h = Done v' h' ∧ ready mc root budget stack h' ∧ evolves h h' ∧
             (∀ r, r ∈ refs_of v' → r ∈ processed h') ∧
             (∀ c, c ∈ field_links (Some f) → is_Some (mc !! c) → c ∈ pcodes h')).
  { intros v Hv Hl. exists v, h. split; [done|]. split; [done|]. split; [apply evolves_refl|].
    rewrite Hv, Hl. split; intros x Hx; by apply elem_of_nil in Hx. }
  unfold mapField, field_ok in *.
  destruct (String.eqb (IField.type f) FieldType.modular_content) eqn:Hmod.
  - (* linked items *)
    unfold mapModularField, field_links. rewrite Hmod.
    destruct (IField.value f) as [|s|n|l|] eqn:Hv; simpl in Hok; simpl;
      try (rewrite Hok; simpl);
      try (destruct (when_warn (logging this)
               ("Cannot map modular content of '" +:+ IField.name f +:+
                "' because its value does not exist") h) as (h1 & Hw & Hs1 & Hp1);
           rewrite (bind_Done _ _ _ _ _ Hw); exists JNull, h1;
           split; [done|]; split; [by eapply ready_same_data|];
           split; [by apply same_data_evolves|];
           split; intros x Hx; by apply elem_of_nil in Hx); try done.
    destruct (linkedItems_ok stack f l Hok [] h Hready)
      as (items & h' & Hloop & Hready' & Hev & Hreg').
    rewrite (bind_Done _ _ _ _ _ Hloop). exists (JArray items), h'.
    destruct (registered_all h' _ _ Hreg') as [Hitems Hcodes].
    split; [done|]. split; [done|]. split; [done|]. split; [done|].
    intros c Hc [X HX]. apply Hcodes, list_elem_of_In, filter_In.
    split; [by apply list_elem_of_In|]. unfold present. by rewrite bool_decide_eq_true_2.
  - pose proof (field_links_other f Hmod) as Hlinks.
    apply String.eqb_neq in Hmod.
    destruct (String.eqb_spec (IField.type f) FieldType.text) as [_|Hn1]; [by apply Hpure|].
    destruct (String.eqb_spec (IField.type f) FieldType.asset) as [Ha|Hn2].
    { (* asset: the constructor accepts the value *)
      unfold mapAssetsField. try rewrite Ha in Hok. simpl in Hok.
      destruct (assetsFieldThrows this (IField.name f) (IField.value f)); [done|].
      by apply Hpure. }
    destruct (String.eqb_spec (IField.type f) FieldType.number) as [_|Hn3]; [by apply Hpure|].
    destruct (String.eqb_spec (IField.type f) FieldType.multiple_choice) as [_|Hn4];
      [by apply Hpure|].
    destruct (String.eqb_spec (IField.type f) FieldType.datetime) as [_|Hn5];
      [by apply Hpure|].
    destruct (String.eqb_spec (IField.type f) FieldType.rich_text) as [_|Hn6].
    { (* rich text that lists no modular content *)
      unfold mapRichTextField, mapRichTextLinks.
      destruct (IField.modular_content f) as [[|c l]|], (IField.links f) as [links|];
        try done; simpl; by apply Hpure. }
    destruct (String.eqb_spec (IField.type f) FieldType.url_slug) as [_|Hn7].
    { (* URL slug: reads the typed item *)
      unfold mapUrlSlugField.
      pose proof (inv_valid h (proj1 Hready) r0 Hr0) as Hlt.
      apply lookup_lt_is_Some in Hlt as [o Ho].
      pose proof (read_ok h r0 o Ho) as Hread.
      rewrite (bind_Done _ _ _ _ _ Hread). eexists _, h. split; [reflexivity|].
      split; [done|]. split; [apply evolves_refl|]. rewrite Hlinks. split.
      - simpl. by intros r ->%list_elem_of_singleton.
      - intros x Hx. by apply elem_of_nil in Hx. }
    destruct (String.eqb_spec (IField.type f) FieldType.taxonomy) as [Ht|Hn8].
    { (* taxonomy: the constructor accepts the value *)
      unfold mapTaxonomyField. simpl in Hok.
      destruct (taxonomyFieldThrows this (IField.name f) (IField.value f)
                  (IField.taxonomy_group f)); [done|].
      by apply Hpure. }
    (* no other type is in the closed set *)
    exfalso. apply bool_decide_eq_true_1 in Hok. unfold FieldType.all in Hok.
    repeat (apply elem_of_cons in Hok as [Hok|Hok]; [done|]).
    by apply elem_of_nil in Hok.
Qed.

Lemma resolvePropertyName_ok (o : ContentItem) (k : string) (h : Heap) :
  good_object o → reserved k = false →
  ∃ p, resolvePropertyName this o k h = Done p h ∧ reserved p = false.
Proof.
  intros [_ Hres] Hk. unfold resolvePropertyName, resolver_ok in *.
  assert (Hfinal : ∀ n : option string, name_ok n →
    reserved (match n with
              | Some s => if nonempty s then s else k
              | None => k
              end) = false).
  { intros [s|] Hn; [|done]. by destruct (nonempty s). }
  assert (Hchoice : ∀ n : option string, name_ok n →
    name_ok (if name_truthy n then n else getPropertyName this o k)).
  { intros n Hn. destruct (name_truthy n); [done|]. apply (decorators_ok this Hreg). }
  destruct (get "propertyResolver" o) as [[]|]; try done; simpl;
    eexists; (split; [reflexivity|]); apply Hfinal, Hchoice; done.
Qed.

Lemma mapProperty_ok stack (c : string) (r0 : ref)
    (els : list (string * option IField.t)) (k : string) (h : Heap) :
  ready mc root budget stack h → registered h c r0 →
  reserved k = false → field_ok this mc (field_of els k) = true →
  ∃ h', mapProperty this rec els mc qc r0 k h = Done tt h' ∧
        ready mc root budget stack h' ∧ evolves h h' ∧
        (∀ c', c' ∈ field_links (field_of els k) → is_Some (mc !! c') → c' ∈ pcodes h').
Proof.
  intros Hready [Hr0 Hc0] Hk Hok. unfold mapProperty.
  fold (field_of els k). destruct (field_of els k) as [f|] eqn:Hf; [|done].
  apply codename_of_Some in Hc0 as Ho. destruct Ho as (o & s & Ho & Hs & Hcode).
  pose proof (read_ok h r0 o Ho) as Hread.
  rewrite (bind_Done _ _ _ _ _ Hread).
  destruct (resolvePropertyName_ok o k h) as (p & Hname & Hp); [|done|].
  { apply (inv_objects h (proj1 Hready)). by eapply list_elem_of_lookup_2. }
  rewrite (bind_Done _ _ _ _ _ Hname).
  destruct (mapField_ok stack f r0 h Hready Hok Hr0)
    as (v & h2 & Hmap & Hready2 & Hev2 & Hrefs & Hlinks).
  rewrite (bind_Done _ _ _ _ _ Hmap).
  assert (Hc2 : codename_of (store h2) r0 = Some c) by (by apply Hev2).
  apply codename_of_Some in Hc2 as (o2 & s2 & Ho2 & _).
  destruct (set_property_ok h2 r0 o2 p v (proj1 Hready2) Ho2 Hp Hrefs)
    as (h3 & Hset & HI3 & Hev3 & Hp3 & Hpc3).
  exists h3. split; [done|]. split; [by eapply ready_pcodes_eq|].
  split; [by eapply evolves_trans|]. intros c' Hc' Hsome. rewrite Hpc3. by apply Hlinks.
Qed.

Lemma mapProperties_ok stack (c : string) (r0 : ref)
    (els : list (string * option IField.t)) (l : list string) :
  (∀ k, k ∈ l → reserved k = false ∧ field_ok this mc (field_of els k) = true) →
  ∀ h, ready mc root budget stack h → registered h c r0 →
  ∃ h', forEach l (mapProperty this rec els mc qc r0) h = Done tt h' ∧
        ready mc root budget stack h' ∧ evolves h h' ∧
        (∀ k c', k ∈ l → c' ∈ field_links (field_of els k) → is_Some (mc !! c') →
                 c' ∈ pcodes h').
Proof.
  induction l as [|k l IH]; intros Hall h Hready Hreg0; simpl.
  - exists h. split; [done|]. split; [done|]. split; [apply evolves_refl|].
    intros k c' Hk. by apply elem_of_nil in Hk.
  - destruct (Hall k) as [Hk Hok]; [apply list_elem_of_here|].
    destruct (mapProperty_ok stack c r0 els k h Hready Hreg0 Hk Hok)
      as (h1 & Hstep & Hready1 & Hev1 & Hlinks1).
    destruct (IH (λ k' Hk', Hall k' (list_elem_of_further _ _ _ Hk')) h1 Hready1)
      as (h' & Hloop & Hready' & Hev' & Hlinks'); [by eapply evolves_registered|].
    rewrite (bind_Done _ _ _ _ _ Hstep). exists h'.
    split; [done|]. split; [done|]. split; [by eapply evolves_trans|].
    intros k' c' [->|Hk']%elem_of_cons Hc' Hsome; [|by eapply Hlinks'].
    eapply evolves_pcodes; [done|]. by apply Hlinks1.
Qed.
End Fields.

Lemma item_of_ok (c : string) (X : RawItem) :
  item_of mc root c = Some X → item_ok this mc X = true ∧ c ∈ universe mc root.
Proof.
  unfold item_of, universe. case_bool_decide as Hc.
  - intros [= <-]. split; [apply (root_ok this mc root Hgraph)|].
    destruct (system root); [|done]. injection Hc as <-.
    by apply elem_of_union_r, elem_of_singleton.
  - intros HX. split; [by apply (items_ok this mc root Hgraph c X)|].
    apply elem_of_union_l, elem_of_dom. eauto.
Qed.

Lemma item_ok_inv (X : RawItem) :
  item_ok this mc X = true →
  ∃ s els, system X = Some s ∧ elements X = Some els ∧
           ∀ k, k ∈ keys els → reserved k = false ∧ field_ok this mc (field_of els k) = true.
Proof.
  unfold item_ok. destruct (system X) as [s|]; [|done].
  destruct (elements X) as [els|]; [|done]. intros Hall. exists s, els.
  split; [done|]. split; [done|]. intros k Hk.
  rewrite forallb_forall in Hall. specialize (Hall k (proj1 (list_elem_of_In _ _) Hk)).
  apply andb_true_iff in Hall as [Hres Hok]. by apply negb_true_iff in Hres.
Qed.

Lemma checkArguments_pass (X : RawItem) s els (h : Heap) :
  system X = Some s → elements X = Some els →
  checkArguments (Some X) PArray h = Done (X, s, els) h.
Proof. intros Hs He. unfold checkArguments. by rewrite Hs, He. Qed.

Lemma mapFields_ok (fuel : nat) : call_ok mc root qc (mapFields this fuel) fuel.
Proof.
  induction fuel as [|n IH]; intros stack X s h HI Hitem Hs Hnew Hrootk Hrem Hfin.
  { exfalso. destruct (item_of_ok _ _ Hitem) as [_ Hu].
    apply Nat.le_0_r, size_empty_iff in Hrem.
    apply (not_elem_of_empty (C := gset string) (System.codename s)). rewrite <- Hrem.
    apply elem_of_difference. split; [done|]. by rewrite elem_of_list_to_set. }
  destruct (item_of_ok _ _ Hitem) as [HXok Hu].
  destruct (item_ok_inv X HXok) as (s' & els & Hs' & Hels & Hall).
  assert (s' = s) as -> by congruence.
  set (c := System.codename s) in *.
  simpl. unfold mapFields_body.
  rewrite (bind_Done _ _ _ _ _ (checkArguments_pass X s els h Hs Hels)).
  destruct (alloc_ok h (newTypedItem this s X) s HI) as (h1 & Halloc & HI1 & Hev1 & Hpc1 & Hc1).
  { split; [exists s; by apply (created_system this Hreg) | apply (created_resolver this Hreg)]. }
  { by apply (created_system this Hreg). }
  { apply (created_no_refs this Hreg). }
  rewrite (bind_Done _ _ _ _ _ Halloc).
  destruct (find_processed_spec h1 s HI1) as [res [Hfind Hres]].
  rewrite (bind_Done _ _ _ _ _ Hfind).
  destruct res as [r|].
  { exfalso. apply Hnew. rewrite <- Hpc1. by eapply registered_pcodes. }
  destruct (push_ok h1 (length (store h)) c HI1 Hc1) as (h2 & Hpush & HI2 & Hev2 & Hst2 & Hpc2 & Hin2).
  { by rewrite Hpc1. }
  rewrite (bind_Done _ _ _ _ _ Hpush).
  rewrite Hpc1 in Hpc2.
  assert (Hsub : ∀ c', c' ∈ pcodes h → c' ∈ pcodes h2).
  { intros c' Hc'. rewrite Hpc2. apply elem_of_app. by left. }
  assert (Hlast : c ∈ pcodes h2).
  { rewrite Hpc2. apply elem_of_app. right. apply list_elem_of_here. }
  assert (Hready2 : ready mc root n (c :: stack) h2).
  { split; [done|]. split; [|split].
    - pose proof (remaining_lt mc root h h2 c Hsub Hu Hnew Hlast). lia.
    - intros c1 X1 c' Hc1' Hnot Hitem1 Hc' Hsome. apply Hsub.
      rewrite Hpc2 in Hc1'. apply elem_of_app in Hc1' as [Hc1'|Hc1'%list_elem_of_singleton].
      + eapply Hfin; try done. intros Hst. apply Hnot. by apply list_elem_of_further.
      + exfalso. apply Hnot. subst c1. apply list_elem_of_here.
    - intros c0 Hc0. destruct (Hrootk c0 Hc0) as [->|Hin]; [done | by apply Hsub]. }
  assert (Hreg2 : registered h2 c (length (store h))).
  { split; [done|]. by rewrite Hst2. }
  destruct (mapProperties_ok (mapFields this n) n IH (c :: stack) c (length (store h)) els
              (keys els) Hall h2 Hready2 Hreg2) as (h3 & Hloop & Hready3 & Hev3 & Hlinks).
  rewrite (bind_Done _ _ _ _ _ Hloop).
  exists (length (store h)), h3. split; [done|].
  destruct Hready3 as (HI3 & _ & Hfin3 & _).
  split; [done|]. split; [by eapply evolves_trans; [eapply evolves_trans|]|].
  split; [by eapply evolves_registered|].
  intros c1 X1 c' Hc1' Hnot Hitem1 Hc' Hsome.
  destruct (decide (c1 = c)) as [->|Hne].
  - assert (X1 = X) as -> by congruence.
    unfold item_links in Hc'. rewrite Hels in Hc'.
    apply list_elem_of_In, in_flat_map in Hc' as (k & Hk & Hc').
    eapply Hlinks; [by apply list_elem_of_In | by apply list_elem_of_In | done].
  - eapply Hfin3; try done. intros [?|?]%elem_of_cons; done.
Qed.
End Pass.

Lemma Inv_empty : Inv empty_heap.
Proof.
  constructor; simpl.
  - intros o Ho. by apply elem_of_nil in Ho.
  - intros r Hr. by apply elem_of_nil in Hr.
  - apply NoDup_nil_2.
  - intros o k v r Ho. by apply elem_of_nil in Ho.
Qed.



(** A pass from an empty heap over a graph linked through linked-items
    fields returns, whatever fuel it is given beyond one unit for the root
    and one for each codename of the payload, and leaves a heap that
    satisfies the invariant. *)
Lemma mapFields_pass (this : Collaborators) (mc : gmap string RawItem)
    (root : RawItem) (qc : IItemQueryConfig) :
  registry_ok this → graph_ok this mc root →
  ∃ s r h,
    system root = Some s ∧
    (∀ fuel, size (dom mc) < fuel →
             mapFields this fuel (Some root) mc qc PArray empty_heap = Done r h) ∧
    call_post mc root [] (System.codename s) empty_heap r h.
Proof.
  intros Hreg Hgraph.
  destruct (item_ok_inv this mc root (root_ok this mc root Hgraph))
    as (s & els & Hs & Hels & _).
  destruct (mapFields_ok this mc root qc Hreg Hgraph (S (size (dom mc))) [] root s empty_heap)
    as (r & h & Hcall & Hpost); try done.
  - apply Inv_empty.
  - unfold item_of. rewrite Hs. simpl. by rewrite bool_decide_eq_true_2.
  - apply not_elem_of_nil.
  - intros c0 Hc0. left. rewrite Hs in Hc0. simpl in Hc0. congruence.
  - unfold remaining, universe. rewrite Hs. simpl.
    etrans; [apply subseteq_size, subseteq_difference_l, reflexivity|].
    rewrite size_union_alt. pose proof (subseteq_size ({[System.codename s]} ∖ dom mc)
      ({[System.codename s]} : gset string)) as Hle.
    rewrite size_singleton in Hle.
    specialize (Hle (subseteq_difference_l _ _ _ (reflexivity _))). lia.
  - intros c X c' Hc. by apply elem_of_nil in Hc.
  - exists s, r, h. split; [done|]. split; [|done]. intros fuel Hfuel.
    rewrite (mapFields_more_fuel this (S (size (dom mc))) fuel Hfuel (Some root) mc qc
               PArray empty_heap); by rewrite Hcall.
Qed.

Lemma plainMapper_ok (log : bool) : registry_ok (plainMapper log).
Proof.
  constructor.
  - intros s X Hs. unfold newTypedItem. simpl. unfold plainItem. by rewrite Hs.
  - intros s X. unfold resolver_ok, newTypedItem. simpl. unfold plainItem.
    by destruct (system X).
  - intros s X k v. unfold newTypedItem. simpl. unfold plainItem.
    destruct (system X); intros Hin;
      repeat (apply elem_of_cons in Hin as [[= -> ->]|Hin]; [done|]);
      by apply elem_of_nil in Hin.
  - done.
Qed.

Lemma friends_ok (log : bool) : graph_ok (plainMapper log) friends ann.
Proof.
  constructor; [by vm_compute|]. intros c X Hc. unfold friends in Hc.
  apply lookup_insert_Some in Hc as [[<- <-]|[_ Hc]]; [done|].
  apply lookup_insert_Some in Hc as [[<- <-]|[_ Hc]]; [done|].
  by rewrite lookup_empty in Hc.
Qed.




(** Why [graph_ok] asks that no element be bound to [system]: the field
    assigned to that property replaces the system attributes that
    [processedItems.find] compares, so [ann], once more reached through
    [bob], is not recognised and is registered a second time. *)
Example mapFields_element_named_system :
  ∃ h, mapFields (plainMapper false) 4 (Some shadowedAnn)
         (<["ann" := shadowedAnn]> team) noLinkResolver PArray empty_heap = Done 0 h ∧
       processed h = [0; 1; 2] ∧
       (store h !! 0) ≫= get "system" = Some (TextField "System" (RVString "x")) ∧
       (store h !! 2) ≫= get "system" = Some (TextField "System" (RVString "x")).
Proof. eexists. split; [vm_compute; reflexivity|]. done. Qed.

(** The pass over [ann] and [bob], who list each other: two typed items,
    each registered once, each holding the other. *)
Example mapFields_friends :
  mapFields (plainMapper false) 2 (Some ann) friends noLinkResolver PArray empty_heap =
  Done 0 {| store := [typedAnn; typedFriendBob]; processed := [0; 1]; console := [] |}.
Proof. reflexivity. Qed.

(** ** An item that is registered already *)

Lemma checkArguments_Done (item : option RawItem) (p : ProcessedArg) (h h' : Heap) x :
  checkArguments item p h = Done x h' → h' = h.
Proof.
  unfold checkArguments. destruct item as [X|]; [|done].
  destruct (system X); [|done]. destruct (elements X); [|done].
  destruct p; try done. by intros [= _ <-].
Qed.

(** Whatever [processedItems] holds, the reference [mapFields] returns is
    that of the typed item it has just created. *)
Lemma mapFields_returns_new_reference (this : Collaborators) (fuel : nat)
    (item : option RawItem) (mc : gmap string RawItem) (qc : IItemQueryConfig)
    (p : ProcessedArg) (h h' : Heap) (r : ref) :
  mapFields this fuel item mc qc p h = Done r h' → r = length (store h).
Proof.
  destruct fuel as [|n]; [done|]. simpl. unfold mapFields_body. intros H.
  apply bind_Done_inv in H as ([[X s] els] & h0 & Hcheck & H).
  apply checkArguments_Done in Hcheck as ->.
  apply bind_Done_inv in H as (r0 & h1 & Halloc & H).
  injection Halloc as <- <-.
  apply bind_Done_inv in H as (res & h2 & _ & H).
  apply bind_Done_inv in H as ([] & h3 & _ & H).
  apply bind_Done_inv in H as ([] & h4 & _ & H).
  by injection H as <- _.
Qed.

(** An item whose rich text embeds the item itself sends [mapFields] into
    a recursion that no amount of fuel ends. *)
Lemma mapFields_rich_text_cycle_diverges (this : Collaborators) (qc : IItemQueryConfig) :
  registry_ok this →
  ∀ fuel h, Inv h → mapFields this fuel (Some page) pages qc PArray h = OutOfFuel.
Proof.
  intros Hreg. induction fuel as [|n IH]; intros h HI; [done|].
  simpl. unfold mapFields_body.
  rewrite (bind_Done _ _ _ _ _ (checkArguments_pass page _ _ h eq_refl eq_refl)).
  destruct (alloc_ok h (newTypedItem this (sys "page" "page") page) (sys "page" "page") HI)
    as (h1 & Halloc & HI1 & Hev1 & Hpc1 & Hc1).
  { split; [eexists; by apply (created_system this Hreg) | apply (created_resolver this Hreg)]. }
  { by apply (created_system this Hreg). }
  { apply (created_no_refs this Hreg). }
  rewrite (bind_Done _ _ _ _ _ Halloc).
  destruct (find_processed_spec h1 (sys "page" "page") HI1) as [res [Hfind Hres]].
  rewrite (bind_Done _ _ _ _ _ Hfind).
  assert (∃ h2, match res with
                | None => push_processed (length (store h))
                | Some _ => ret tt
                end h1 = Done tt h2 ∧ Inv h2 ∧
                codename_of (store h2) (length (store h)) = Some "page")
    as (h2 & Hpush & HI2 & Hc2).
  { destruct res as [r|]; [by exists h1|].
    destruct (push_ok h1 (length (store h)) "page" HI1 Hc1 Hres)
      as (h2 & Hpush & HI2 & _ & Hst2 & _).
    exists h2. by rewrite Hst2. }
  rewrite (bind_Done _ _ _ _ _ Hpush).
  apply bind_OutOfFuel. simpl. apply bind_OutOfFuel. unfold mapProperty.
  apply codename_of_Some in Hc2 as (o & s & Ho & _).
  rewrite (bind_Done _ _ _ _ _ (read_ok h2 _ o Ho)).
  destruct (resolvePropertyName_ok this Hreg o "body" h2) as (p & Hname & _); [|done|].
  { apply (inv_objects h2 HI2). by eapply list_elem_of_lookup_2. }
  rewrite (bind_Done _ _ _ _ _ Hname).
  apply bind_OutOfFuel. simpl. unfold mapRichTextField. simpl.
  apply bind_OutOfFuel, bind_OutOfFuel. unfold embeddedItemStep, payloadItem, pages.
  rewrite lookup_insert_eq. apply bind_OutOfFuel. by apply IH.
Qed.


(** C2 fails on the code. [bob] has his entry, reference 0, in
    [processedItems]; [mapFields] on [bob] does not return that entry: it
    builds a second typed item, maps every field of [bob] again and
    returns the new reference 1. This is the call that [mapRichTextField]
    makes for an embedded item that a linked-items field registered
    before: the rich text of [article] holds reference 2, its [author]
    list the registered reference 1. *)
Theorem mapFields_registered_item_mapped_again :
  mapFields (plainMapper false) 1 (Some bob) team noLinkResolver PArray
    {| store := [typedBob]; processed := [0]; console := [] |} =
  Done 1 {| store := [typedBob; typedBob]; processed := [0]; console := [] |} ∧
  mapFields (plainMapper false) 2 (Some article) team noLinkResolver PArray empty_heap =
  Done 0 {| store := [typedArticle; typedBob; typedBob]; processed := [0; 1]; console := [] |}.
Proof. split; reflexivity. Qed.

End FieldMapServiceProps.

(** * More on the rich-text resolver *)

Module RichTextResolverMore.
Import RichTextResolver RichTextGraph ResolverVocabulary RichTextResolverProps.

Section Search.
Context {Fn : Type}.
Variable getLinkedItem : string → option (ContentItem Fn).

Lemma findImage_Some id (l : list Image) img :
  findImage id l = Some img → img ∈ l ∧ imageId img = id.
Proof.
  unfold findImage. intros H. apply List.find_some in H as [Hin Heq].
  split; [by apply list_elem_of_In | by apply String.eqb_eq].
Qed.

Lemma findImage_None id (l : list Image) img :
  findImage id l = None → img ∈ l → imageId img ≠ id.
Proof.
  unfold findImage. intros H Hin Heq.
  pose proof (List.find_none _ _ H img (proj1 (list_elem_of_In _ _) Hin)) as Hf.
  simpl in Hf. apply String.eqb_neq in Hf. done.
Qed.

Lemma richTextElements_inv (it : ContentItem Fn) e :
  e ∈ richTextElements it → ∃ k, k ∈ keys it ∧ get k it = Some (PRichText e).
Proof.
  unfold richTextElements. intros H.
  apply list_elem_of_In, in_flat_map in H as (k & Hk & He).
  exists k. split; [by apply list_elem_of_In|].
  destruct (get k it) as [[| | |e'|]|]; simpl in He; try done.
  destruct He as [->|[]]. done.
Qed.

(** What the two loops return when they return an image. *)
Lemma linkedItemsLoop_Some rec cs img :
  linkedItemsLoop Fn rec getLinkedItem cs = Some (Some img) →
  ∃ c li, c ∈ cs ∧ getLinkedItem c = Some li ∧ rec li = Some (Some img).
Proof.
  induction cs as [|c cs IH]; simpl; [done|].
  destruct (getLinkedItem c) as [li|] eqn:Hli.
  - destruct (rec li) as [[j|]|] eqn:Hrec; [| |done].
    + intros [= ->]. exists c, li. split; [apply list_elem_of_here | done].
    + intros H. destruct (IH H) as (c' & li' & Hc & Hr).
      exists c', li'. split; [by apply list_elem_of_further | done].
  - intros H. destruct (IH H) as (c' & li' & Hc & Hr).
    exists c', li'. split; [by apply list_elem_of_further | done].
Qed.

Lemma propertiesLoop_Some rec id (it : ContentItem Fn) names img :
  propertiesLoop Fn rec getLinkedItem id it names = Some (Some img) →
  ∃ k e, k ∈ names ∧ get k it = Some (PRichText e) ∧
         (findImage id (images e) = Some img ∨
          linkedItemsLoop Fn rec getLinkedItem (linkedItemCodenames e) = Some (Some img)).
Proof.
  induction names as [|k names IH]; simpl; [done|].
  assert (Hrest : propertiesLoop Fn rec getLinkedItem id it names = Some (Some img) →
    ∃ k0 e, k0 ∈ k :: names ∧ get k0 it = Some (PRichText e) ∧
         (findImage id (images e) = Some img ∨
          linkedItemsLoop Fn rec getLinkedItem (linkedItemCodenames e) = Some (Some img))).
  { intros H. destruct (IH H) as (k0 & e & Hk & Hr).
    exists k0, e. split; [by apply list_elem_of_further | done]. }
  destruct (get k it) as [[| | |e|]|] eqn:Hget; try exact Hrest.
  destruct (findImage id (images e)) as [i|] eqn:Hfind.
  - intros [= ->]. exists k, e. split; [apply list_elem_of_here|]. split; [done|by left].
  - destruct (linkedItemsLoop Fn rec getLinkedItem (linkedItemCodenames e))
      as [[j|]|] eqn:Hloop; [| exact Hrest | done].
    intros [= ->]. exists k, e. split; [apply list_elem_of_here|]. split; [done|by right].
Qed.

(** What they have looked at when they end without an image. *)
Lemma linkedItemsLoop_None rec cs :
  linkedItemsLoop Fn rec getLinkedItem cs = Some None →
  ∀ c li, c ∈ cs → getLinkedItem c = Some li → rec li = Some None.
Proof.
  induction cs as [|c cs IH]; simpl; intros H c' li Hc Hli.
  - by apply elem_of_nil in Hc.
  - apply elem_of_cons in Hc as [->|Hc].
    + rewrite Hli in H. by destruct (rec li) as [[j|]|].
    + destruct (getLinkedItem c) as [li0|]; [|by eapply IH].
      destruct (rec li0) as [[j|]|]; [done | by eapply IH | done].
Qed.

Lemma propertiesLoop_None rec id (it : ContentItem Fn) names :
  propertiesLoop Fn rec getLinkedItem id it names = Some None →
  ∀ k e, k ∈ names → get k it = Some (PRichText e) →
         findImage id (images e) = None ∧
         linkedItemsLoop Fn rec getLinkedItem (linkedItemCodenames e) = Some None.
Proof.
  induction names as [|k names IH]; simpl; intros H k' e Hk Hget.
  - by apply elem_of_nil in Hk.
  - apply elem_of_cons in Hk as [->|Hk].
    + rewrite Hget in H. destruct (findImage id (images e)); [done|].
      by destruct (linkedItemsLoop Fn rec getLinkedItem (linkedItemCodenames e)) as [[j|]|].
    + destruct (get k it) as [[| | |e0|]|]; try by eapply IH.
      destruct (findImage id (images e0)); [done|].
      destruct (linkedItemsLoop Fn rec getLinkedItem (linkedItemCodenames e0)) as [[j|]|];
        [done | by eapply IH | done].
Qed.

Lemma tryGetImageFromLinkedItem_found id fuel :
  ∀ it img,
    tryGetImageFromLinkedItem Fn fuel id it getLinkedItem = Some (Some img) →
    imageId img = id ∧
    ∃ it' e, embedded_from getLinkedItem it it' ∧ e ∈ richTextElements it' ∧ img ∈ images e.
Proof.
  induction fuel as [|n IH]; intros it img; simpl; [done|]. intros H.
  apply propertiesLoop_Some in H as (k & e & _ & Hget & [Hfind|Hloop]).
  - apply findImage_Some in Hfind as [Hin Hid]. split; [done|].
    exists it, e. split; [apply rtc_refl|]. split; [by eapply richTextElements_get | done].
  - apply linkedItemsLoop_Some in Hloop as (c & li & Hc & Hli & Hrec).
    destruct (IH li img Hrec) as (Hid & it' & e' & Hr & He' & Hin). split; [done|].
    exists it', e'. split; [|done].
    eapply rtc_l; [|exact Hr]. exists e, c.
    split; [by eapply richTextElements_get | done].
Qed.

Lemma tryGetImageFromLinkedItem_searched id fuel :
  ∀ it, tryGetImageFromLinkedItem Fn fuel id it getLinkedItem = Some None →
        image_absent getLinkedItem id it.
Proof.
  induction fuel as [|n IH]; intros it; simpl; [done|]. intros H it' e img Hr He Himg.
  apply rtc_inv in Hr as [<-|(mid & (e0 & c & He0 & Hc & Hmid) & Hr)].
  - apply richTextElements_inv in He as (k & Hk & Hget).
    destruct (propertiesLoop_None _ _ _ _ H k e Hk Hget) as [Hfind _].
    by eapply findImage_None.
  - apply richTextElements_inv in He0 as (k & Hk & Hget).
    destruct (propertiesLoop_None _ _ _ _ H k e0 Hk Hget) as [_ Hloop].
    pose proof (linkedItemsLoop_None _ _ Hloop c mid Hc Hmid) as Hrec.
    by eapply (IH mid Hrec it' e img).
Qed.

End Search.

(** X11. An image that [tryGetImageFromLinkedItem] returns has the id
    that was asked for and lies in a rich-text element of the item the
    search started from or of an item embedded from it, directly or
    through other items. *)
Theorem tryGetImageFromLinkedItem_sound {Fn : Type}
    (getLinkedItem : string → option (ContentItem Fn)) (fuel : nat) (id : string)
    (contentItem : ContentItem Fn) (image : Image) :
  tryGetImageFromLinkedItem Fn fuel id contentItem getLinkedItem = Some (Some image) →
  imageId image = id ∧
  ∃ it e, embedded_from getLinkedItem contentItem it ∧ e ∈ richTextElements it ∧
          image ∈ images e.
Proof. apply tryGetImageFromLinkedItem_found. Qed.

Lemma tryGetImageFromLinkedItem_sound_witness :
  tryGetImageFromLinkedItem string 2 "img1" gallery museum = Some (Some portrait) ∧
  imageId portrait = "img1" ∧
  ∃ it e, embedded_from museum gallery it ∧ e ∈ richTextElements it ∧ portrait ∈ images e.
Proof.
  split; [reflexivity|].
  exact (tryGetImageFromLinkedItem_sound museum 2 "img1" gallery portrait eq_refl).
Defined.

(** X12. The search is complete on items that embed one another without a
    cycle: when some rich-text element of the item, or of an item
    embedded from it, holds an image with the id, the search returns an
    image with that id; and a search that returns [undefined] has met no
    such image. *)
Theorem tryGetImageFromLinkedItem_complete {Fn : Type}
    (getLinkedItem : string → option (ContentItem Fn)) (rank : ContentItem Fn → nat)
    (fuel : nat) (contentItem it : ContentItem Fn) (e : RichTextElement) (image : Image) :
  ranked getLinkedItem rank contentItem → rank contentItem < fuel →
  embedded_from getLinkedItem contentItem it → e ∈ richTextElements it → image ∈ images e →
  (∃ found, tryGetImageFromLinkedItem Fn fuel (imageId image) contentItem getLinkedItem =
              Some (Some found) ∧ imageId found = imageId image) ∧
  (∀ id n, tryGetImageFromLinkedItem Fn n id contentItem getLinkedItem = Some None →
           imageId image ≠ id).
Proof.
  intros Hrk Hlt Hr He Himg. split.
  - pose proof (tryGetImageFromLinkedItem_terminates getLinkedItem (imageId image) rank fuel
                  contentItem Hrk Hlt) as Hend.
    destruct (tryGetImageFromLinkedItem Fn fuel (imageId image) contentItem getLinkedItem)
      as [[found|]|] eqn:Hres; [| |done].
    + exists found. split; [done|].
      by destruct (tryGetImageFromLinkedItem_found getLinkedItem _ _ _ _ Hres).
    + exfalso.
      by eapply (tryGetImageFromLinkedItem_searched getLinkedItem _ _ _ Hres it e image).
  - intros id n Hres.
    by eapply (tryGetImageFromLinkedItem_searched getLinkedItem _ _ _ Hres it e image).
Qed.

Lemma tryGetImageFromLinkedItem_complete_witness :
  (∃ found, tryGetImageFromLinkedItem string 2 "img1" gallery museum = Some (Some found) ∧
            imageId found = "img1") ∧
  (∀ id n, tryGetImageFromLinkedItem string n id gallery museum = Some None → "img1" ≠ id).
Proof.
  refine (tryGetImageFromLinkedItem_complete museum embedCount 2 gallery painter
            {| images := [portrait]; linkedItemCodenames := [] |} portrait
            museum_ranked _ _ _ _).
  - vm_compute. lia.
  - eapply rtc_l; [|apply rtc_refl].
    exists {| images := []; linkedItemCodenames := ["painter"] |}, "painter".
    split; [apply list_elem_of_singleton; reflexivity|].
    split; [apply list_elem_of_here | reflexivity].
  - apply list_elem_of_singleton. reflexivity.
  - apply list_elem_of_here.
Defined.

(** X14. Whatever [getImageResult] returns comes from an image of the
    graph: when the linked item is there, the result is that of the
    custom [richTextImageResolver], or else the url, of an image that has
    the id asked for and lies in a rich-text element of the linked item
    or of an item embedded from it, and nothing is written to the
    console; the only other result is the empty url of lenient mode for
    a linked item that is missing. *)
Theorem getImageResult_sound {Fn : Type} (fuel : nat) (config : Config Fn)
    (getLinkedItem : string → option (ContentItem Fn))
    (itemCodename id elementName : string) (c c' : Console) (result : ImageResult) :
  getImageResult Fn fuel config getLinkedItem itemCodename id elementName c = Done result c' →
  match getLinkedItem itemCodename with
  | None =>
      flag (throwErrorForMissingLinkedItems Fn (queryConfig Fn config)) = false ∧
      result = {| image_url := EmptyString |}
  | Some linkedItem =>
      c' = c ∧
      ∃ image, imageId image = id ∧
        (∃ it e, embedded_from getLinkedItem linkedItem it ∧ e ∈ richTextElements it ∧
                 image ∈ images e) ∧
        result = match richTextImageResolver Fn (queryConfig Fn config) with
                 | Some resolver => resolver image elementName
                 | None => {| image_url := url image |}
                 end
  end.
Proof.
  unfold getImageResult. destruct (getLinkedItem itemCodename) as [linkedItem|] eqn:Hitem.
  - assert (Hfinish : ∀ image,
      imageId image = id →
      (∃ it e, embedded_from getLinkedItem linkedItem it ∧ e ∈ richTextElements it ∧
               image ∈ images e) →
      match richTextImageResolver Fn (queryConfig Fn config) with
      | Some resolver => ret (resolver image elementName)
      | None => ret {| image_url := url image |}
      end c = Done result c' →
      c' = c ∧
      ∃ image, imageId image = id ∧
        (∃ it e, embedded_from getLinkedItem linkedItem it ∧ e ∈ richTextElements it ∧
                 image ∈ images e) ∧
        result = match richTextImageResolver Fn (queryConfig Fn config) with
                 | Some resolver => resolver image elementName
                 | None => {| image_url := url image |}
                 end).
    { intros image Hid Hin H. unfold ret in H.
      destruct (richTextImageResolver Fn (queryConfig Fn config));
        injection H as <- <-; (split; [done|]); by exists image. }
    assert (Hsearch :
      (image <- (λ c0, match tryGetImageFromLinkedItem Fn fuel id linkedItem getLinkedItem with
                       | None => OutOfFuel
                       | Some r => Done r c0
                       end) ;;;
       match image with
       | None => throw (ImageNotFound id itemCodename elementName)
       | Some image =>
           match richTextImageResolver Fn (queryConfig Fn config) with
           | Some resolver => ret (resolver image elementName)
           | None => ret {| image_url := url image |}
           end
       end) c = Done result c' →
      c' = c ∧
      ∃ image, imageId image = id ∧
        (∃ it e, embedded_from getLinkedItem linkedItem it ∧ e ∈ richTextElements it ∧
                 image ∈ images e) ∧
        result = match richTextImageResolver Fn (queryConfig Fn config) with
                 | Some resolver => resolver image elementName
                 | None => {| image_url := url image |}
                 end).
    { unfold bind.
      destruct (tryGetImageFromLinkedItem Fn fuel id linkedItem getLinkedItem)
        as [[image|]|] eqn:Hres; [|done|done].
      destruct (tryGetImageFromLinkedItem_found getLinkedItem _ _ _ _ Hres) as [Hid Hin].
      by apply Hfinish. }
    destruct (member Fn elementName linkedItem) as [[| | |e|]|] eqn:Hget; simpl; try done;
      try exact Hsearch.
    unfold bind at 1. unfold ret at 1.
    destruct (findImage id (images e)) as [image|] eqn:Hfind; [|exact Hsearch].
    unfold bind, ret at 1.
    apply findImage_Some in Hfind as [Hin Hid]. apply Hfinish; [done|].
    exists linkedItem, e. split; [apply rtc_refl|].
    split; [eapply richTextElements_get; by apply member_rich_text | done].
  - destruct (flag (throwErrorForMissingLinkedItems Fn (queryConfig Fn config))); [done|].
    unfold bind. destruct (flag (enableAdvancedLogging Fn config)); simpl;
      by intros [= <- _].
Qed.

Lemma getImageResult_sound_witness :
  getImageResult string 2 (quiet (query None None)) museum "gallery" "img1" "intro" [] =
    Done {| image_url := "https://assets.example/portrait.png" |} [] ∧
  ∃ image, imageId image = "img1" ∧
    (∃ it e, embedded_from museum gallery it ∧ e ∈ richTextElements it ∧ image ∈ images e) ∧
    {| image_url := "https://assets.example/portrait.png" |} = {| image_url := url image |}.
Proof.
  split; [reflexivity|].
  exact (proj2 (getImageResult_sound 2 (quiet (query None None)) museum "gallery" "img1"
                  "intro" [] [] _ eq_refl)).
Defined.

(** X16. A placeholder that names a property of the linked item which is
    there but is not a rich-text element (its [system], say) makes
    [getImageResult] throw, before any search and under every
    configuration; and a linked item that is missing makes it throw in
    strict mode. *)
Theorem getImageResult_rejects {Fn : Type} (fuel : nat) (config : Config Fn)
    (getLinkedItem : string → option (ContentItem Fn))
    (itemCodename id elementName : string) (c : Console) :
  (∀ linkedItem v,
     getLinkedItem itemCodename = Some linkedItem → get elementName linkedItem = Some v →
     v ≠ PUndefined → (∀ e, v ≠ PRichText e) →
     getImageResult Fn fuel config getLinkedItem itemCodename id elementName c =
       Thrown (InvalidElement itemCodename elementName) c) ∧
  (getLinkedItem itemCodename = None →
   throwErrorForMissingLinkedItems Fn (queryConfig Fn config) = Some true →
     getImageResult Fn fuel config getLinkedItem itemCodename id elementName c =
       Thrown (ImageItemNotFound itemCodename id) c).
Proof.
  split.
  - intros linkedItem v Hitem Hget Hu Hr. unfold getImageResult.
    rewrite Hitem, (member_own _ _ _ Hget).
    destruct v as [| | |e|]; try done. by destruct (Hr e).
  - intros Hitem Hs. unfold getImageResult. by rewrite Hitem, Hs.
Qed.

Lemma getImageResult_rejects_witness :
  getImageResult string 0 (quiet (query None None)) museum "gallery" "img1" "system" [] =
    Thrown (InvalidElement "gallery" "system") [] ∧
  getImageResult string 0 (quiet (query (Some true) None)) museum "louvre" "img1" "intro" [] =
    Thrown (ImageItemNotFound "louvre" "img1") [].
Proof.
  split.
  - by apply (proj1 (getImageResult_rejects 0 (quiet (query None None)) museum
                       "gallery" "img1" "system" []) gallery (PSystem "gallery")).
  - by apply (proj2 (getImageResult_rejects 0 (quiet (query (Some true) None)) museum
                       "louvre" "img1" "intro" [])).
Defined.

(** X17. [getUrlSlugResult] never throws: it returns under every
    configuration and for every link, writes at most one warning, none
    unless advanced logging is enabled, and what it returns along with a
    warning is the empty result. *)
Theorem getUrlSlugResult_never_throws {Fn : Type} (config : Config Fn) (links : list Link)
    (getLinkedItem : string → option (ContentItem Fn))
    (getGlobalUrlSlugResolver :
       string → option (Link → LinkContext Fn → option UrlSlugResult))
    (itemId linkText' : string) (c : Console) :
  ∃ result msgs,
    getUrlSlugResult Fn config links getLinkedItem getGlobalUrlSlugResolver itemId linkText' c =
      Done result (c ++ msgs) ∧
    (length msgs ≤ 1)%nat ∧
    (flag (enableAdvancedLogging Fn config) = false → msgs = []) ∧
    (msgs ≠ [] → result = emptyUrlSlugResult).
Proof.
  assert (Hempty : ∀ msg,
    ∃ result msgs,
      (when (flag (enableAdvancedLogging Fn config)) (warn msg) ;;;
       ret {| html := EmptyString; result_url := EmptyString |}) c = Done result (c ++ msgs) ∧
      (length msgs ≤ 1)%nat ∧
      (flag (enableAdvancedLogging Fn config) = false → msgs = []) ∧
      (msgs ≠ [] → result = emptyUrlSlugResult)).
  { intros msg. destruct (flag (enableAdvancedLogging Fn config)).
    - exists emptyUrlSlugResult, [msg].
      split; [reflexivity|]. split; [simpl; lia|]. split; done.
    - exists emptyUrlSlugResult, []. unfold bind, when, ret. rewrite app_nil_r.
      split; [reflexivity|]. split; [simpl; lia|]. split; done. }
  assert (Hret : ∀ r,
    ∃ result msgs, ret r c = Done result (c ++ msgs) ∧ (length msgs ≤ 1)%nat ∧
      (flag (enableAdvancedLogging Fn config) = false → msgs = []) ∧
      (msgs ≠ [] → result = emptyUrlSlugResult)).
  { intros r. exists r, []. unfold ret. rewrite app_nil_r.
    split; [reflexivity|]. split; [simpl; lia|]. split; done. }
  unfold getUrlSlugResult. destruct (findLink itemId links) as [existingLink|]; [|apply Hempty].
  destruct (match urlSlugResolver Fn (queryConfig Fn config) with
            | Some q => _
            | None => None
            end); [apply Hret|].
  destruct (match getGlobalUrlSlugResolver (link_type existingLink) with
            | Some g => _
            | None => None
            end); [apply Hret | apply Hempty].
Qed.

(** X18. For a link that is among the links, the resolver of the query
    comes first: what it returns is the result, if it returns one;
    otherwise the global resolver of the link's type is asked; and when
    neither returns a result, the result is empty, with a warning when
    advanced logging is enabled. Both resolvers are given the first link
    with the id and a context that holds the link text, the linked item
    as the graph has it and the id. *)
Theorem getUrlSlugResult_resolver_precedence {Fn : Type} (config : Config Fn)
    (links : list Link) (getLinkedItem : string → option (ContentItem Fn))
    (getGlobalUrlSlugResolver :
       string → option (Link → LinkContext Fn → option UrlSlugResult))
    (itemId linkText' : string) (c : Console) (link : Link) :
  findLink itemId links = Some link →
  let context := {| linkText := linkText'; item := getLinkedItem (link_codename link);
                    ctx_linkId := itemId |} in
  let fromQuery := urlSlugResolver Fn (queryConfig Fn config) ≫= λ q, q link context in
  let fromGlobal := getGlobalUrlSlugResolver (link_type link) ≫= λ g, g link context in
  linkId link = itemId ∧
  getUrlSlugResult Fn config links getLinkedItem getGlobalUrlSlugResolver itemId linkText' c =
    match fromQuery, fromGlobal with
    | Some result, _ => Done result c
    | None, Some result => Done result c
    | None, None =>
        Done emptyUrlSlugResult
             (if flag (enableAdvancedLogging Fn config)
              then c ++ [unresolvedUrlWarning link] else c)
    end.
Proof.
  intros Hlink context fromQuery fromGlobal. split.
  { unfold findLink in Hlink. apply List.find_some in Hlink as [_ Heq].
    by apply String.eqb_eq. }
  unfold getUrlSlugResult. rewrite Hlink. subst fromQuery fromGlobal context.
  destruct (urlSlugResolver Fn (queryConfig Fn config)) as [q|]; simpl.
  - destruct (q link _); [done|].
    destruct (getGlobalUrlSlugResolver (link_type link)) as [g|]; simpl.
    + destruct (g link _); [done|]. by destruct (flag (enableAdvancedLogging Fn config)).
    + by destruct (flag (enableAdvancedLogging Fn config)).
  - destruct (getGlobalUrlSlugResolver (link_type link)) as [g|]; simpl.
    + destruct (g link _); [done|]. by destruct (flag (enableAdvancedLogging Fn config)).
    + by destruct (flag (enableAdvancedLogging Fn config)).
Qed.

Lemma getUrlSlugResult_resolver_precedence_witness :
  getUrlSlugResult string (quiet (queryWithSlugs "/q/")) [heroLink] onlyHero personResolver
    "7" "read more" [] =
    Done {| html := EmptyString; result_url := "/q/hero-of-time" |} [] ∧
  getUrlSlugResult string (quiet (query None None)) [heroLink] onlyHero personResolver
    "7" "read more" [] =
    Done {| html := EmptyString; result_url := "/people/hero-of-time" |} [].
Proof.
  split.
  - exact (proj2 (getUrlSlugResult_resolver_precedence (quiet (queryWithSlugs "/q/"))
                    [heroLink] onlyHero personResolver "7" "read more" [] heroLink eq_refl)).
  - exact (proj2 (getUrlSlugResult_resolver_precedence (quiet (query None None))
                    [heroLink] onlyHero personResolver "7" "read more" [] heroLink eq_refl)).
Defined.

(** X19. [getLinkedItemHtml] throws in two cases only, each time before
    anything is written to the console: the linked item is missing
    and the query is strict; or the linked item is there without a
    [system], no resolver is configured for it, and advanced logging is
    enabled, when the warning itself cannot be composed. *)
Theorem getLinkedItemHtml_error_paths {Fn : Type}
    (call : Fn → ContentItem Fn → ItemContext → string) (config : Config Fn)
    (getLinkedItem : string → option (ContentItem Fn))
    (itemCodename itemType' : string) (c c' : Console) (e : Exn) :
  getLinkedItemHtml Fn call config getLinkedItem itemCodename itemType' c = Thrown e c' →
  c' = c ∧
  ((getLinkedItem itemCodename = None ∧
    throwErrorForMissingLinkedItems Fn (queryConfig Fn config) = Some true ∧
    e = LinkedItemNotFound itemCodename) ∨
   (∃ linkedItem,
      getLinkedItem itemCodename = Some linkedItem ∧
      richTextResolver Fn (queryConfig Fn config) = None ∧
      itemRichTextResolver Fn linkedItem = None ∧
      enableAdvancedLogging Fn config = Some true ∧
      truthy Fn (get "system" linkedItem) = false ∧
      e = TypeError "Cannot read properties of undefined (reading 'type')")).
Proof.
  unfold getLinkedItemHtml.
  destruct (getLinkedItem itemCodename) as [linkedItem|] eqn:Hitem.
  - destruct (richTextResolver Fn (queryConfig Fn config)) as [r|]; [done|].
    destruct (itemRichTextResolver Fn linkedItem) as [r|] eqn:Hown; [done|].
    destruct (enableAdvancedLogging Fn config) as [[]|] eqn:Hlog; simpl; [|done|done].
    destruct (get "system" linkedItem) as [[| | | |]|] eqn:Hsys; try done;
      intros [= <- <-]; (split; [done|]); right; exists linkedItem; by rewrite Hsys.
  - destruct (throwErrorForMissingLinkedItems Fn (queryConfig Fn config)) as [[]|] eqn:Hs;
      simpl.
    + intros [= <- <-]. split; [done|]. by left.
    + unfold bind. by destruct (flag (enableAdvancedLogging Fn config)).
    + unfold bind. by destruct (flag (enableAdvancedLogging Fn config)).
Qed.

Lemma getLinkedItemHtml_error_paths_witness :
  getLinkedItemHtml string render (verbose (query None None)) (λ _, Some [("bio", POther)])
    "anyone" "linkedItem" [] =
    Thrown (TypeError "Cannot read properties of undefined (reading 'type')") [] ∧
  ((λ _ : string, Some [("bio", @POther string)]) "anyone" = None ∧
    throwErrorForMissingLinkedItems string (queryConfig string (verbose (query None None))) =
      Some true ∧
    TypeError "Cannot read properties of undefined (reading 'type')" =
      LinkedItemNotFound "anyone" ∨
   ∃ linkedItem,
      (λ _ : string, Some [("bio", @POther string)]) "anyone" = Some linkedItem ∧
      richTextResolver string (queryConfig string (verbose (query None None))) = None ∧
      itemRichTextResolver string linkedItem = None ∧
      enableAdvancedLogging string (verbose (query None None)) = Some true ∧
      truthy string (get "system" linkedItem) = false ∧
      TypeError "Cannot read properties of undefined (reading 'type')" =
        TypeError "Cannot read properties of undefined (reading 'type')").
Proof.
  split; [reflexivity|].
  exact (proj2 (getLinkedItemHtml_error_paths render (verbose (query None None))
                  (λ _, Some [("bio", POther)]) "anyone" "linkedItem" [] [] _ eq_refl)).
Defined.

Lemma sorted_kinds_sublist (t : string) (l : list ParsedLinkedItem) :
  map dataCodename (List.filter (λ m, String.eqb (itemType m) t) l)
    `sublist_of` map dataCodename l.
Proof.
  apply (fmap_sublist dataCodename). induction l as [|m l IH]; simpl; [done|].
  destruct (String.eqb (itemType m) t); [by apply sublist_skip | by apply sublist_cons].
Qed.

Lemma sorted_kinds_permutation (l : list ParsedLinkedItem) :
  map dataCodename (List.filter (λ m, String.eqb (itemType m) "component") l) ++
  map dataCodename (List.filter (λ m, String.eqb (itemType m) "linkedItem") l)
  ≡ₚ map dataCodename (List.filter knownItemType l).
Proof.
  induction l as [|m l IH]; simpl; [done|]. unfold knownItemType at 1.
  destruct (String.eqb_spec (itemType m) "component") as [Hc|Hc]; simpl.
  - rewrite Hc. simpl. by rewrite IH.
  - destruct (String.eqb (itemType m) "linkedItem"); simpl; [|done].
    rewrite <- IH. by rewrite Permutation_middle.
Qed.

Lemma sorted_kinds_length (l : list ParsedLinkedItem) :
  (length (List.filter (λ m, String.eqb (itemType m) "component") l) +
   length (List.filter (λ m, String.eqb (itemType m) "linkedItem") l) ≤ length l)%nat ∧
  (length (List.filter (λ m, String.eqb (itemType m) "component") l) +
   length (List.filter (λ m, String.eqb (itemType m) "linkedItem") l) = length l ↔
   Forall (λ m, knownItemType m = true) l).
Proof.
  induction l as [|m l [IHle IH]]; simpl.
  - split; [lia|]. split; [by constructor | done].
  - rewrite Forall_cons. unfold knownItemType at 1.
    destruct (String.eqb_spec (itemType m) "component") as [Hc|Hc]; simpl.
    + rewrite Hc. simpl. split; [lia|].
      split; [intros H; split; [done|]; apply IH; lia | intros [_ H]; apply IH in H; lia].
    + destruct (String.eqb (itemType m) "linkedItem"); simpl.
      * split; [lia|].
        split; [intros H; split; [done|]; apply IH; lia | intros [_ H]; apply IH in H; lia].
      * split; [lia|]. split; [lia | by intros [? _]].
Qed.

Lemma sorted_kinds_elem (t code : string) (l : list ParsedLinkedItem) :
  code ∈ map dataCodename (List.filter (λ m, String.eqb (itemType m) t) l) ↔
  ∃ m, m ∈ l ∧ itemType m = t ∧ dataCodename m = code.
Proof.
  rewrite list_elem_of_In, in_map_iff. split.
  - intros (m & Hcode & [Hm Ht]%filter_In). exists m.
    split; [by apply list_elem_of_In|]. split; [by apply String.eqb_eq | done].
  - intros (m & Hm & Ht & Hcode). exists m. split; [done|]. apply filter_In.
    split; [by apply list_elem_of_In | by apply String.eqb_eq].
Qed.

Lemma sorted_kinds_split (t : string) (before after : list ParsedLinkedItem)
    (m : ParsedLinkedItem) :
  itemType m = t →
  map dataCodename (List.filter (λ m, String.eqb (itemType m) t) (before ++ m :: after)) =
  map dataCodename (List.filter (λ m, String.eqb (itemType m) t) before) ++
  dataCodename m :: map dataCodename (List.filter (λ m, String.eqb (itemType m) t) after).
Proof.
  intros Ht. rewrite List.filter_app, map_app. simpl.
  by rewrite (proj2 (String.eqb_eq _ _) Ht).
Qed.

(** X20. [resolveData] returns when the parser returns and throws what
    the parser throws. Of the linked items the parser reports, the
    components go to [componentCodenames] and the linked items to
    [linkedItemCodenames]: a codename is in [componentCodenames] exactly
    when an entry of kind component carries it, and in
    [linkedItemCodenames] exactly when an entry of kind linkedItem does;
    an entry of either kind has its codename in its list between the
    codenames of the entries reported before it and of those reported
    after it, so each list is in the order of the report, with repeated
    codenames kept; an entry of any other kind is in neither list, so
    that the two lists together are as long as the report only if every
    entry is of one of the two kinds. *)
Theorem resolveData_sorts_linked_items {Fn : Type}
    (call : Fn → ContentItem Fn → ItemContext → string) (fuel : nat)
    (contentItemCodename html' elementName : string) (data : Data.t Fn) (c : Console) :
  match Data.richTextHtmlParser Fn data contentItemCodename html' elementName
          (callbacks Fn call fuel data) (parserConfig Fn data) c with
  | Done result c' =>
      ∃ resolved,
        resolveData Fn call fuel contentItemCodename html' elementName data c =
          Done resolved c' ∧
        ResolvedData.html resolved = resolvedHtml result ∧
        (∀ code, code ∈ ResolvedData.componentCodenames resolved ↔
           ∃ m, m ∈ linkedItems result ∧ itemType m = "component" ∧ dataCodename m = code) ∧
        (∀ code, code ∈ ResolvedData.linkedItemCodenames resolved ↔
           ∃ m, m ∈ linkedItems result ∧ itemType m = "linkedItem" ∧ dataCodename m = code) ∧
        (∀ before m after, linkedItems result = before ++ m :: after →
           (itemType m = "component" →
            ∃ cb ca, ResolvedData.componentCodenames resolved = cb ++ dataCodename m :: ca ∧
                     cb `sublist_of` map dataCodename before ∧
                     ca `sublist_of` map dataCodename after) ∧
           (itemType m = "linkedItem" →
            ∃ lb la, ResolvedData.linkedItemCodenames resolved = lb ++ dataCodename m :: la ∧
                     lb `sublist_of` map dataCodename before ∧
                     la `sublist_of` map dataCodename after)) ∧
        ResolvedData.componentCodenames resolved `sublist_of`
          map dataCodename (linkedItems result) ∧
        ResolvedData.linkedItemCodenames resolved `sublist_of`
          map dataCodename (linkedItems result) ∧
        ResolvedData.componentCodenames resolved ++ ResolvedData.linkedItemCodenames resolved
          ≡ₚ map dataCodename (List.filter knownItemType (linkedItems result)) ∧
        (length (ResolvedData.componentCodenames resolved) +
         length (ResolvedData.linkedItemCodenames resolved) = length (linkedItems result) ↔
         Forall (λ m, knownItemType m = true) (linkedItems result))
  | Thrown e c' =>
      resolveData Fn call fuel contentItemCodename html' elementName data c = Thrown e c'
  | OutOfFuel =>
      resolveData Fn call fuel contentItemCodename html' elementName data c = OutOfFuel
  end.
Proof.
  unfold resolveData, bind.
  destruct (Data.richTextHtmlParser Fn data contentItemCodename html' elementName
              (callbacks Fn call fuel data) (parserConfig Fn data) c)
    as [result c'| |]; [|done|done].
  eexists. split; [reflexivity|]. simpl. split; [done|].
  split; [intros code; apply sorted_kinds_elem|].
  split; [intros code; apply sorted_kinds_elem|].
  split.
  { intros before m after ->. split; intros Ht; eexists _, _;
      (split; [by apply sorted_kinds_split|]); split; apply sorted_kinds_sublist. }
  split; [apply sorted_kinds_sublist|]. split; [apply sorted_kinds_sublist|].
  split; [apply sorted_kinds_permutation|].
  rewrite !length_map. apply sorted_kinds_length.
Qed.

Lemma resolveData_sorts_linked_items_witness :
  ∃ resolved,
    resolveData string render 0 "gallery" "<p>intro</p>" "intro"
      (museumData [{| dataCodename := "teaser"; itemType := "component" |};
                   {| dataCodename := "painter"; itemType := "linkedItem" |};
                   {| dataCodename := "banner"; itemType := "component" |};
                   {| dataCodename := "footnote"; itemType := "note" |}]) [] =
      Done resolved [] ∧
    ResolvedData.html resolved = "<p>intro</p>" ∧
    ResolvedData.componentCodenames resolved = ["teaser"; "banner"] ∧
    ResolvedData.linkedItemCodenames resolved = ["painter"].
Proof.
  destruct (resolveData_sorts_linked_items render 0 "gallery" "<p>intro</p>" "intro"
              (museumData [{| dataCodename := "teaser"; itemType := "component" |};
                           {| dataCodename := "painter"; itemType := "linkedItem" |};
                           {| dataCodename := "banner"; itemType := "component" |};
                           {| dataCodename := "footnote"; itemType := "note" |}]) [])
    as (resolved & Hrun & Hhtml & _).
  exists resolved. split; [exact Hrun|]. split; [exact Hhtml|].
  injection Hrun as <-. split; reflexivity.
Defined.

Lemma tryGetImageFromLinkedItem_on_cycle {Fn : Type}
    (getLinkedItem : string → option (ContentItem Fn)) (id : string) (fuel : nat) :
  ∀ it, tc (embeds getLinkedItem) it it →
        tryGetImageFromLinkedItem Fn fuel id it getLinkedItem ≠ Some None.
Proof.
  induction fuel as [|n IH]; intros it Hcycle; simpl; [done|]. intros H.
  assert (∃ mid, embeds getLinkedItem it mid ∧ tc (embeds getLinkedItem) mid mid)
    as (mid & (e & c & He & Hc & Hmid) & Hcycle').
  { inversion Hcycle as [? ? Hstep|? mid ? Hstep Hrest]; subst.
    - exists it. split; [done | by apply tc_once].
    - exists mid. split; [done|]. eapply tc_rtc_r; [exact Hrest|]. by apply rtc_once. }
  apply richTextElements_inv in He as (k & Hk & Hget).
  destruct (propertiesLoop_None _ _ _ _ _ H k e Hk Hget) as [_ Hloop].
  by apply (IH mid Hcycle'), (linkedItemsLoop_None _ _ _ Hloop c mid Hc Hmid).
Qed.

(** X13. A search that starts from an item on a cycle of embeds never
    ends with [undefined]: it returns an image or it does not end. So
    when no item of the graph holds the image, the search from such an
    item does not end, and [getImageResult], asked for an element that
    the item answers to with a rich-text element or a falsy value,
    neither returns nor throws its error that the image was not found. *)
Theorem tryGetImageFromLinkedItem_cycle_never_gives_up {Fn : Type}
    (getLinkedItem : string → option (ContentItem Fn)) (id : string)
    (contentItem : ContentItem Fn) :
  tc (embeds getLinkedItem) contentItem contentItem →
  (∀ fuel, tryGetImageFromLinkedItem Fn fuel id contentItem getLinkedItem ≠ Some None) ∧
  (image_absent getLinkedItem id contentItem →
   ∀ fuel, tryGetImageFromLinkedItem Fn fuel id contentItem getLinkedItem = None) ∧
  (image_absent getLinkedItem id contentItem →
   ∀ fuel config itemCodename elementName c,
     getLinkedItem itemCodename = Some contentItem →
     rich_text_or_missing elementName contentItem →
     getImageResult Fn fuel config getLinkedItem itemCodename id elementName c = OutOfFuel).
Proof.
  intros Hcycle.
  assert (Hnone : image_absent getLinkedItem id contentItem →
    ∀ fuel, tryGetImageFromLinkedItem Fn fuel id contentItem getLinkedItem = None).
  { intros Habs fuel.
    pose proof (tryGetImageFromLinkedItem_on_cycle getLinkedItem id fuel _ Hcycle) as H1.
    pose proof (tryGetImageFromLinkedItem_absent getLinkedItem id fuel _ Habs) as H2.
    destruct (tryGetImageFromLinkedItem Fn fuel id contentItem getLinkedItem) as [[img|]|];
      [by destruct (H2 img) | done | done]. }
  split; [intros fuel; by apply tryGetImageFromLinkedItem_on_cycle|]. split; [done|].
  intros Habs fuel config itemCodename elementName c Hitem Hel.
  unfold getImageResult, rich_text_or_missing in *. rewrite Hitem.
  destruct (member Fn elementName contentItem) as [[| | |e|]|] eqn:Hget; try done; simpl;
    try (unfold bind, ret; by rewrite (Hnone Habs fuel)).
  rewrite findImage_absent; last first.
  { intros img Himg. eapply Habs; [apply rtc_refl | | exact Himg].
    eapply richTextElements_get. by apply member_rich_text. }
  unfold bind, ret. by rewrite (Hnone Habs fuel).
Qed.

Lemma narcissus_reachable (it : ContentItem string) :
  embedded_from onlyNarcissus narcissus it → it = narcissus.
Proof.
  unfold embedded_from. revert it.
  apply (rtc_ind_r (R := embeds onlyNarcissus) (λ z, z = narcissus)); [done|].
  intros y z _ (e & c & He & Hc & Hz) ->.
  apply list_elem_of_singleton in He as ->.
  apply list_elem_of_singleton in Hc as ->. by injection Hz as <-.
Qed.

Lemma tryGetImageFromLinkedItem_cycle_never_gives_up_witness :
  tc (embeds onlyNarcissus) narcissus narcissus ∧
  (∀ fuel, tryGetImageFromLinkedItem string fuel "img1" narcissus onlyNarcissus ≠ Some None) ∧
  getImageResult string 7 (verbose (query None None)) onlyNarcissus "narcissus" "img1" "bio" [] =
    OutOfFuel.
Proof.
  assert (Hcycle : tc (embeds onlyNarcissus) narcissus narcissus).
  { apply tc_once. exists {| images := []; linkedItemCodenames := ["narcissus"] |}, "narcissus".
    split; [apply list_elem_of_singleton; reflexivity|].
    split; [apply list_elem_of_here | reflexivity]. }
  split; [exact Hcycle|]. split.
  - exact (proj1 (tryGetImageFromLinkedItem_cycle_never_gives_up onlyNarcissus "img1" narcissus
                    Hcycle)).
  - refine (proj2 (proj2 (tryGetImageFromLinkedItem_cycle_never_gives_up onlyNarcissus "img1"
                            narcissus Hcycle)) _ 7 (verbose (query None None)) "narcissus"
                  "bio" [] eq_refl I).
    intros it' e img Hr He Himg. apply narcissus_reachable in Hr as ->.
    apply list_elem_of_singleton in He as ->. by apply elem_of_nil in Himg.
Defined.

(** X15. The element that the placeholder names comes first: when it is
    a rich-text element of the linked item that holds an image with the
    id, [getImageResult] resolves the first such image of that element,
    through the custom [richTextImageResolver] if the query has one and
    to the url of the image otherwise, without searching the other
    elements or items, whatever these hold, and without writing to the
    console. *)
Theorem getImageResult_named_element_first {Fn : Type} (fuel : nat) (config : Config Fn)
    (getLinkedItem : string → option (ContentItem Fn))
    (itemCodename id elementName : string) (c : Console)
    (linkedItem : ContentItem Fn) (e : RichTextElement) (before after : list Image)
    (image : Image) :
  getLinkedItem itemCodename = Some linkedItem →
  get elementName linkedItem = Some (PRichText e) →
  images e = before ++ image :: after → imageId image = id →
  (∀ other, other ∈ before → imageId other ≠ id) →
  getImageResult Fn fuel config getLinkedItem itemCodename id elementName c =
    Done (match richTextImageResolver Fn (queryConfig Fn config) with
          | Some resolver => resolver image elementName
          | None => {| image_url := url image |}
          end) c.
Proof.
  intros Hitem Hget Himgs Hid Hbefore. unfold getImageResult.
  rewrite Hitem, (member_own _ _ _ Hget). simpl.
  assert (findImage id (images e) = Some image) as ->.
  { rewrite Himgs. unfold findImage. clear Himgs.
    induction before as [|x before IH]; simpl.
    - by rewrite Hid, String.eqb_refl.
    - destruct (String.eqb_spec (imageId x) id) as [Hx|_].
      + by destruct (Hbefore x (list_elem_of_here _ _)).
      + apply IH. intros other Ho. apply Hbefore. by apply list_elem_of_further. }
  unfold bind, ret. by destruct (richTextImageResolver Fn (queryConfig Fn config)).
Qed.

Lemma getImageResult_named_element_first_witness :
  getImageResult string 0 (quiet (query None None)) museum "painter" "img1" "bio" [] =
    Done {| image_url := "https://assets.example/portrait.png" |} [].
Proof.
  refine (getImageResult_named_element_first 0 (quiet (query None None)) museum "painter"
            "img1" "bio" [] painter {| images := [portrait]; linkedItemCodenames := [] |}
            [] [] portrait eq_refl eq_refl eq_refl eq_refl _).
  intros other Ho. by apply elem_of_nil in Ho.
Defined.

End RichTextResolverMore.

(** * More on the field mapper *)

Module FieldMapServiceMore.
Import FieldMapService MappingSpec MappingLaws FieldMapServiceProps.

(** ** What a call leaves of the heap it started from *)

Lemma grows_refl (n : nat) (h : Heap) : grows n h h.
Proof. repeat split; done. Qed.

Lemma grows_trans (n : nat) (h1 h2 h3 : Heap) :
  grows n h1 h2 → grows n h2 h3 → grows n h1 h3.
Proof.
  intros (Hs1 & Hl1 & Hp1 & Hc1) (Hs2 & Hl2 & Hp2 & Hc2). split; [|split; [|split]].
  - intros i Hn Hi. rewrite Hs2; [by apply Hs1 | done | lia].
  - lia.
  - by etrans.
  - by etrans.
Qed.

Lemma grows_mono (n m : nat) (h h' : Heap) : (n ≤ m)%nat → grows m h h' → grows n h h'.
Proof.
  intros Hle (Hs & Hrest). split; [|done]. intros i Hn Hi. apply Hs; [lia | done].
Qed.

(** A call that keeps every item of the heap it started from keeps the
    items below any reference. *)
Lemma grows_all (n : nat) (h h' : Heap) : grows (length (store h)) h h' → grows n h h'.
Proof. intros (Hs & Hrest). split; [|done]. intros i _ Hi. by apply Hs. Qed.

Lemma continues_grows (h h' : Heap) : grows (length (store h)) h h' → continues h h'.
Proof.
  intros (Hs & Hl & Hp & Hc). split; [|done].
  exists (drop (length (store h)) (store h')).
  rewrite <- (take_drop (length (store h)) (store h')) at 1. f_equal.
  apply list_eq. intros i. destruct (decide (i < length (store h))) as [Hi|Hi].
  - rewrite lookup_take_lt by done. by apply Hs.
  - rewrite lookup_take_ge by lia. symmetry. apply lookup_ge_None. lia.
Qed.

Lemma final_bind {A B} (m : M Heap A) (k : A → M Heap B) (h h' : Heap) :
  final (bind m k h) = Some h' →
  (∃ e, m h = Thrown e h') ∨ (∃ a h1, m h = Done a h1 ∧ final (k a h1) = Some h').
Proof.
  unfold bind. destruct (m h) as [a h1|e h1|]; simpl; [|by intros [= ->]; left; eauto|done].
  intros H. right. by exists a, h1.
Qed.

Lemma keeps_bind {A B} (n : nat) (m : M Heap A) (k : A → M Heap B) :
  keeps n m → (∀ a, keeps n (k a)) → keeps n (bind m k).
Proof.
  intros Hm Hk h h' H. apply final_bind in H as [[e H]|(a & h1 & H & Hfin)].
  - apply Hm. by rewrite H.
  - eapply grows_trans; [apply Hm; by rewrite H | by eapply Hk].
Qed.

Lemma keeps_ret {A} (n : nat) (a : A) : keeps n (ret a).
Proof. intros h h' [= <-]. apply grows_refl. Qed.

Lemma keeps_throw {A} (n : nat) (e : Exn) : keeps n (throw (A := A) e).
Proof. intros h h' [= <-]. apply grows_refl. Qed.

Lemma keeps_warn (n : nat) (msg : string) : keeps n (warn msg).
Proof.
  intros h h' [= <-]. repeat split; simpl; try done. by apply prefix_app_r.
Qed.

Lemma keeps_when (n : nat) (b : bool) (m : M Heap unit) : keeps n m → keeps n (when b m).
Proof. intros Hm. destruct b; [done | apply keeps_ret]. Qed.

Lemma keeps_read (n : nat) (r : ref) : keeps n (read r).
Proof.
  intros h h'. unfold read. destruct (store h !! r); intros [= <-]; apply grows_refl.
Qed.

Lemma keeps_find_processed (n : nat) (target : option System.t) :
  keeps n (find_processed target).
Proof.
  intros h h'. unfold find_processed.
  destruct (find_in (store h) target (processed h)); intros [= <-]; apply grows_refl.
Qed.

Lemma keeps_push_processed (n : nat) (r : ref) : keeps n (push_processed r).
Proof.
  intros h h' [= <-]. repeat split; simpl; try done. by apply prefix_app_r.
Qed.

Lemma keeps_alloc (n : nat) (o : ContentItem) : keeps n (alloc o).
Proof.
  intros h h' [= <-]. split; [|split; [|done]]; simpl.
  - intros i _ Hi. by apply lookup_app_l.
  - rewrite length_app. lia.
Qed.

Lemma keeps_set_property (n : nat) (r : ref) (p : string) (v : JsVal) :
  (n ≤ r)%nat → keeps n (set_property r p v).
Proof.
  intros Hle h h'. unfold set_property.
  destruct (store h !! r); intros [= <-]; [|apply grows_refl].
  split; [|split; [|done]]; simpl.
  - intros i Hn _. apply list_lookup_insert_ne. lia.
  - by rewrite length_insert.
Qed.

Lemma keeps_forEach {A} (n : nat) (l : list A) (f : A → M Heap unit) :
  (∀ x, keeps n (f x)) → keeps n (forEach l f).
Proof.
  intros Hf. induction l as [|x l IH]; simpl; [apply keeps_ret|].
  apply keeps_bind; [apply Hf | done].
Qed.

Lemma keeps_forEach_push {A B} (n : nat) (l : list A) (f : A → list B → M Heap (list B)) :
  (∀ x acc, keeps n (f x acc)) → ∀ acc, keeps n (forEach_push l f acc).
Proof.
  intros Hf. induction l as [|x l IH]; intros acc; simpl; [apply keeps_ret|].
  apply keeps_bind; [apply Hf | done].
Qed.

Section Frame.
Variable this : Collaborators.
Variable rec :
  option RawItem → gmap string RawItem → IItemQueryConfig → ProcessedArg → M Heap ref.
Hypothesis Hrec : ∀ n item mc qc p, keeps n (rec item mc qc p).

Lemma keeps_mapModularField n f mc qc : keeps n (mapModularField this rec f mc qc).
Proof.
  unfold mapModularField. destruct f as [f|].
  - destruct (negb (value_truthy (IField.value f))).
    + apply keeps_bind; [apply keeps_when, keeps_warn | intros; apply keeps_ret].
    + destruct (IField.value f); try apply keeps_throw.
      apply keeps_bind; [|intros; apply keeps_ret].
      apply keeps_forEach_push. intros c acc. unfold linkedItemStep.
      destruct (payloadItem mc c).
      * apply keeps_bind; [apply keeps_find_processed|]. intros [?|]; [apply keeps_ret|].
        apply keeps_bind; [apply Hrec | intros; apply keeps_ret].
      * apply keeps_bind; [apply keeps_when, keeps_warn | intros; apply keeps_ret].
  - apply keeps_bind; [apply keeps_when, keeps_warn | intros; apply keeps_ret].
Qed.

Lemma keeps_mapRichTextField n f mc qc : keeps n (mapRichTextField this rec f mc qc).
Proof.
  unfold mapRichTextField. apply keeps_bind.
  - destruct (IField.modular_content f); [|apply keeps_ret].
    apply keeps_forEach_push. intros c acc. unfold embeddedItemStep.
    destruct (payloadItem mc c); [|apply keeps_throw].
    apply keeps_bind; [apply Hrec | intros; apply keeps_ret].
  - intros items. apply keeps_bind; [|intros; apply keeps_ret].
    unfold mapRichTextLinks. destruct (IField.links f); [apply keeps_ret | apply keeps_throw].
Qed.

Lemma keeps_mapField n f mc r qc : keeps n (mapField this rec f mc r qc).
Proof.
  unfold mapField. destruct f as [f|]; [|apply keeps_throw].
  repeat (match goal with
          | |- keeps _ (if ?b then _ else _) => destruct b
          end);
    try apply keeps_ret.
  - apply keeps_mapModularField.
  - unfold mapAssetsField.
    destruct (assetsFieldThrows _ _ _); [apply keeps_throw | apply keeps_ret].
  - apply keeps_mapRichTextField.
  - unfold mapUrlSlugField. apply keeps_bind; [apply keeps_read | intros; apply keeps_ret].
  - unfold mapTaxonomyField.
    destruct (taxonomyFieldThrows _ _ _ _); [apply keeps_throw | apply keeps_ret].
  - apply keeps_bind; [apply keeps_when, keeps_warn | intros; apply keeps_throw].
Qed.

Lemma keeps_resolvePropertyName n o k : keeps n (resolvePropertyName this o k).
Proof.
  unfold resolvePropertyName. apply keeps_bind; [|intros; apply keeps_ret].
  destruct (get "propertyResolver" o) as [[]|]; try apply keeps_ret; apply keeps_throw.
Qed.

Lemma keeps_mapProperty n els mc qc r k :
  (n ≤ r)%nat → keeps n (mapProperty this rec els mc qc r k).
Proof.
  intros Hle. unfold mapProperty.
  apply keeps_bind; [apply keeps_read | intros o].
  apply keeps_bind; [apply keeps_resolvePropertyName | intros p].
  apply keeps_bind; [apply keeps_mapField | intros v].
  by apply keeps_set_property.
Qed.

Lemma keeps_checkArguments n item p : keeps n (checkArguments item p).
Proof.
  unfold checkArguments. destruct item as [X|]; [|apply keeps_throw].
  destruct (system X); [|apply keeps_throw]. destruct (elements X); [|apply keeps_throw].
  destruct p; try apply keeps_throw. apply keeps_ret.
Qed.

(** The rest of [mapFields] once the typed item is created. *)
Lemma keeps_mapFields_rest n s els mc qc r :
  (n ≤ r)%nat →
  keeps n (processedItem <- find_processed (Some s) ;;;
           match processedItem with
           | None => push_processed r
           | Some _ => ret tt
           end ;;;
           forEach (keys els) (mapProperty this rec els mc qc r) ;;;
           ret r).
Proof.
  intros Hle. apply keeps_bind; [apply keeps_find_processed | intros res].
  apply keeps_bind; [destruct res; [apply keeps_ret | apply keeps_push_processed]|].
  intros _. apply keeps_bind; [|intros; apply keeps_ret].
  apply keeps_forEach. intros k. by apply keeps_mapProperty.
Qed.

Lemma mapFields_body_grows item mc qc p (h h' : Heap) :
  final (mapFields_body this rec item mc qc p h) = Some h' →
  grows (length (store h)) h h'.
Proof.
  unfold mapFields_body. intros H.
  apply final_bind in H as [[e H]|([[X s] els] & h0 & Hcheck & H)].
  { apply (keeps_checkArguments _ item p). by rewrite H. }
  apply checkArguments_Done in Hcheck as ->.
  apply final_bind in H as [[e H]|(r & h1 & Halloc & H)]; [done|].
  eapply grows_trans; [apply (keeps_alloc _ (newTypedItem this s X)); by rewrite Halloc|].
  injection Halloc as <- <-.
  by apply (keeps_mapFields_rest _ s els mc qc (length (store h))).
Qed.

Lemma keeps_mapFields_body n item mc qc p : keeps n (mapFields_body this rec item mc qc p).
Proof. intros h h' H. eapply grows_all, mapFields_body_grows. exact H. Qed.

End Frame.

Lemma keeps_mapFields (this : Collaborators) (fuel : nat) :
  ∀ n item mc qc p, keeps n (mapFields this fuel item mc qc p).
Proof.
  induction fuel as [|fuel IH]; intros n item mc qc p; [by intros h h'|].
  simpl. by apply keeps_mapFields_body.
Qed.

(** X1. Whether [mapFields] returns or throws, it leaves every typed
    item that was there before the call as it was, and what
    [processedItems] and the console held before is still there, in
    place, with what the call added after it. *)
Theorem mapFields_frame (this : Collaborators) (fuel : nat) (item : option RawItem)
    (mc : gmap string RawItem) (qc : IItemQueryConfig) (p : ProcessedArg) (h h' : Heap) :
  final (mapFields this fuel item mc qc p h) = Some h' → continues h h'.
Proof. intros H. apply continues_grows. by apply (keeps_mapFields this fuel _ item mc qc p). Qed.

Lemma mapFields_frame_witness :
  ∃ h', final (mapFields (plainMapper false) 2 (Some article) team noLinkResolver PArray
                 {| store := [typedBob]; processed := [0]; console := ["started"] |}) =
          Some h' ∧
        store h' !! 0 = Some typedBob ∧ length (store h') = 3 ∧
        continues {| store := [typedBob]; processed := [0]; console := ["started"] |} h'.
Proof.
  eexists. split; [vm_compute; reflexivity|]. split; [reflexivity|]. split; [reflexivity|].
  apply (mapFields_frame (plainMapper false) 2 (Some article) team noLinkResolver PArray).
  vm_compute. reflexivity.
Defined.

(** ** Every call creates its typed item *)

Lemma mapFields_Done_new (this : Collaborators) (fuel : nat) (item : option RawItem)
    (mc : gmap string RawItem) (qc : IItemQueryConfig) (p : ProcessedArg)
    (h h' : Heap) (r : ref) :
  mapFields this fuel item mc qc p h = Done r h' →
  r = length (store h) ∧ r < length (store h') ∧ grows (length (store h)) h h'.
Proof.
  intros H.
  assert (r = length (store h)) as -> by (by eapply mapFields_returns_new_reference).
  split; [done|]. split.
  - destruct fuel as [|n]; [done|]. simpl in H. unfold mapFields_body in H.
    apply bind_Done_inv in H as ([[X s] els] & h0 & Hcheck & H).
    apply checkArguments_Done in Hcheck as ->.
    apply bind_Done_inv in H as (r0 & h1 & Halloc & H).
    injection Halloc as <- <-.
    assert (Hg : grows 0 {| store := store h ++ [newTypedItem this s X];
                            processed := processed h; console := console h |} h').
    { eapply (keeps_mapFields_rest this (mapFields this n) (keeps_mapFields this n)
                0 s els mc qc (length (store h))); [lia|]. by rewrite H. }
    destruct Hg as (_ & Hlen & _). simpl in Hlen. rewrite length_app in Hlen.
    simpl in Hlen. lia.
  - apply (keeps_mapFields this fuel _ item mc qc p). by rewrite H.
Qed.

(** X2. The reference [mapFields] returns is always that of a typed
    item created by this very call: it is the first reference past the
    items the heap held before, whatever [processedItems] holds, and the
    items of before are all kept. A registered item is therefore never
    what [mapFields] returns. *)
Theorem mapFields_always_new_item (this : Collaborators) (fuel : nat)
    (item : option RawItem) (mc : gmap string RawItem) (qc : IItemQueryConfig)
    (p : ProcessedArg) (h h' : Heap) (r : ref) :
  mapFields this fuel item mc qc p h = Done r h' →
  r = length (store h) ∧ store h !! r = None ∧ is_Some (store h' !! r) ∧
  store h `prefix_of` store h' ∧
  (∀ m, m ∈ processed h → m < length (store h) → m ≠ r).
Proof.
  intros H. destruct (mapFields_Done_new _ _ _ _ _ _ _ _ _ H) as (-> & Hlt & Hg).
  split; [done|]. split; [by apply lookup_ge_None|].
  split; [by apply lookup_lt_is_Some|].
  split; [by destruct (continues_grows _ _ Hg)|]. intros m _ Hm. lia.
Qed.

Lemma mapFields_always_new_item_witness :
  ∃ h', mapFields (plainMapper false) 1 (Some bob) team noLinkResolver PArray
          {| store := [typedBob]; processed := [0]; console := [] |} = Done 1 h' ∧
        store h' = [typedBob; typedBob] ∧ processed h' = [0] ∧
        is_Some (store h' !! 1) ∧ [typedBob] `prefix_of` store h'.
Proof.
  eexists. split; [vm_compute; reflexivity|]. split; [reflexivity|]. split; [reflexivity|].
  destruct (mapFields_always_new_item (plainMapper false) 1 (Some bob) team noLinkResolver
              PArray {| store := [typedBob]; processed := [0]; console := [] |}
              {| store := [typedBob; typedBob]; processed := [0]; console := [] |} 1)
    as (_ & _ & H2 & H3 & _); [vm_compute; reflexivity|].
  split; [exact H2 | exact H3].
Defined.

(** ** The items a rich-text element embeds *)

Lemma embeddedItems_new (this : Collaborators) (fuel : nat) (f : IField.t)
    (mc : gmap string RawItem) (qc : IItemQueryConfig) (cs : list string) :
  ∀ acc h res h',
    forEach_push cs (embeddedItemStep (mapFields this fuel) f mc qc) acc h = Done res h' →
    ∃ new, res = acc ++ new ∧ length new = length cs ∧
           (length (store h) ≤ length (store h'))%nat ∧
           (∀ r, r ∈ new → (length (store h) ≤ r)%nat ∧ r < length (store h')) ∧
           NoDup new ∧ Forall (λ c, is_Some (mc !! c)) cs.
Proof.
  induction cs as [|c cs IH]; intros acc h res h' H; simpl in H.
  - injection H as <- <-. exists []. rewrite app_nil_r.
    split; [done|]. split; [done|]. split; [done|]. split; [|split; constructor].
    intros r Hr. by apply elem_of_nil in Hr.
  - apply bind_Done_inv in H as (acc1 & h1 & Hstep & H).
    unfold embeddedItemStep in Hstep. destruct (payloadItem mc c) as [Y|] eqn:HcY; [|done].
    apply bind_Done_inv in Hstep as (r & h0 & Hmap & Hret). injection Hret as <- <-.
    assert (Hc : mc !! c = Some Y).
    { eapply (payloadItem_mapped (mapFields this fuel)); [|done|done].
      intros ? ? ?. apply mapFields_prototypeMember. }
    destruct (mapFields_Done_new _ _ _ _ _ _ _ _ _ Hmap) as (-> & Hlt & (_ & Hle & _)).
    destruct (IH _ _ _ _ H) as (new & -> & Hlen & Hle' & Hrange & Hnd & Hall).
    exists (length (store h) :: new). split; [by rewrite <- app_assoc|].
    split; [simpl; by rewrite Hlen|]. split; [lia|]. split; [|split].
    + intros r [->|Hr]%elem_of_cons; [lia|]. destruct (Hrange r Hr). lia.
    + constructor; [|done]. intros Hin. destruct (Hrange _ Hin). lia.
    + constructor; [by rewrite Hc | done].
Qed.

(** X3. A rich-text element gets one typed item for every codename it
    lists, each created by the call for this element: they are pairwise
    distinct, also where a codename is listed twice, and none of them was
    on the heap before, also where the codename is registered in
    [processedItems]. *)
Theorem mapRichTextField_new_instances (this : Collaborators) (fuel : nat) (f : IField.t)
    (mc : gmap string RawItem) (qc : IItemQueryConfig) (cs : list string) (h h' : Heap)
    (name : string) (value : RawValue) (modularItems : list ref) (links : list Link.t)
    (logging' : bool) :
  IField.modular_content f = Some cs →
  mapRichTextField this (mapFields this fuel) f mc qc h =
    Done (RichTextField name value modularItems links logging') h' →
  length modularItems = length cs ∧ NoDup modularItems ∧
  (∀ r, r ∈ modularItems → store h !! r = None ∧ is_Some (store h' !! r)) ∧
  Forall (λ c, is_Some (mc !! c)) cs.
Proof.
  intros Hcs H. unfold mapRichTextField in H. rewrite Hcs in H.
  apply bind_Done_inv in H as (items & h1 & Hloop & H).
  apply bind_Done_inv in H as (ls & h2 & Hlinks & H). injection H as _ _ <- _ _ <-.
  assert (h2 = h1) as ->.
  { unfold mapRichTextLinks in Hlinks. destruct (IField.links f); [|done].
    by injection Hlinks as _ <-. }
  destruct (embeddedItems_new _ _ _ _ _ _ _ _ _ _ Hloop)
    as (new & -> & Hlen & _ & Hrange & Hnd & Hall).
  simpl. split; [done|]. split; [done|]. split; [|done].
  intros r Hr. destruct (Hrange r Hr).
  split; [by apply lookup_ge_None | by apply lookup_lt_is_Some].
Qed.

Lemma mapRichTextField_new_instances_witness :
  ∃ h', mapRichTextField (plainMapper false) (mapFields (plainMapper false) 1) twiceBob team
          noLinkResolver {| store := [typedBob]; processed := [0]; console := [] |} =
          Done (RichTextField "Body" (RVString "<object><object>") [1; 2] [] false) h' ∧
        length [1; 2] = length ["bob"; "bob"] ∧ NoDup [1; 2].
Proof.
  eexists. split; [vm_compute; reflexivity|].
  destruct (mapRichTextField_new_instances (plainMapper false) 1 twiceBob team noLinkResolver
              ["bob"; "bob"] {| store := [typedBob]; processed := [0]; console := [] |}
              {| store := [typedBob; typedBob; typedBob]; processed := [0]; console := [] |}
              "Body" (RVString "<object><object>") [1; 2] [] false eq_refl)
    as (H1 & H2 & _); [vm_compute; reflexivity|].
  split; [exact H1 | exact H2].
Defined.

(** ** Rich text that embeds in a cycle *)

Lemma forEach_Done_inv {S A} (l : list A) (f : A → M S unit) (s s' : S) :
  forEach l f s = Done tt s' → ∀ x, x ∈ l → ∃ s1 s2, f x s1 = Done tt s2.
Proof.
  revert s. induction l as [|y l IH]; intros s H x Hx; [by apply elem_of_nil in Hx|].
  simpl in H. apply bind_Done_inv in H as ([] & s1 & Hy & H).
  apply elem_of_cons in Hx as [->|Hx]; [by eauto | by eapply IH].
Qed.

Lemma forEach_push_Done_inv {S A B} (l : list A) (f : A → list B → M S (list B))
    (acc res : list B) (s s' : S) :
  forEach_push l f acc s = Done res s' →
  ∀ x, x ∈ l → ∃ acc1 s1 acc2 s2, f x acc1 s1 = Done acc2 s2.
Proof.
  revert acc s. induction l as [|y l IH]; intros acc s H x Hx; [by apply elem_of_nil in Hx|].
  simpl in H. apply bind_Done_inv in H as (acc1 & s1 & Hy & H).
  apply elem_of_cons in Hx as [->|Hx]; [by eauto 6 | by eapply IH].
Qed.

Lemma checkArguments_Done_item (item : option RawItem) (p : ProcessedArg) (h h' : Heap)
    X s els :
  checkArguments item p h = Done (X, s, els) h' →
  item = Some X ∧ system X = Some s ∧ elements X = Some els.
Proof.
  unfold checkArguments. destruct item as [Y|]; [|done].
  destruct (system Y) eqn:Hs; [|done]. destruct (elements Y) eqn:He; [|done].
  destruct p; try done. intros [= -> -> -> _]. done.
Qed.

(** A rich-text element is not mapped unless every item it embeds is. *)
Lemma mapField_rich_text_Done (this : Collaborators)
    (rec : option RawItem → gmap string RawItem → IItemQueryConfig → ProcessedArg → M Heap ref)
    (f : IField.t) (mc : gmap string RawItem) (r : ref) (qc : IItemQueryConfig)
    (h h' : Heap) (v : JsVal) (cs : list string) (c : string) (Y : RawItem) :
  IField.type f = FieldType.rich_text → IField.modular_content f = Some cs →
  c ∈ cs → mc !! c = Some Y →
  mapField this rec (Some f) mc r qc h = Done v h' →
  ∃ h1 r1 h2, rec (Some Y) mc qc PArray h1 = Done r1 h2.
Proof.
  intros Ht Hcs Hc HY H. unfold mapField in H. rewrite Ht in H. simpl in H.
  unfold mapRichTextField in H. rewrite Hcs in H.
  apply bind_Done_inv in H as (items & h1 & Hloop & _).
  destruct (forEach_push_Done_inv _ _ _ _ _ _ Hloop c Hc) as (acc1 & s1 & acc2 & s2 & Hstep).
  unfold embeddedItemStep in Hstep. rewrite (payloadItem_own _ _ _ HY) in Hstep.
  apply bind_Done_inv in Hstep as (r1 & h2 & Hrec & _). by eauto.
Qed.

Lemma mapFields_Done_embeds (this : Collaborators) (fuel : nat)
    (mc : gmap string RawItem) (qc : IItemQueryConfig) (X Y : RawItem)
    (p : ProcessedArg) (h h' : Heap) (r : ref) :
  embeds_in_rich_text mc X Y →
  mapFields this (S fuel) (Some X) mc qc p h = Done r h' →
  ∃ h1 r1 h2, mapFields this fuel (Some Y) mc qc PArray h1 = Done r1 h2.
Proof.
  intros (els & k & f & cs & c & Hels & Hk & Hf & Ht & Hcs & Hc & HY) H.
  simpl in H. unfold mapFields_body in H.
  apply bind_Done_inv in H as ([[X' s] els'] & h0 & Hcheck & H).
  apply checkArguments_Done_item in Hcheck as ([= <-] & _ & Hels').
  rewrite Hels in Hels'. injection Hels' as <-.
  apply bind_Done_inv in H as (r0 & h1 & _ & H).
  apply bind_Done_inv in H as (res & h2 & _ & H).
  apply bind_Done_inv in H as ([] & h3 & _ & H).
  apply bind_Done_inv in H as ([] & h4 & Hloop & _).
  destruct (forEach_Done_inv _ _ _ _ Hloop k Hk) as (s1 & s2 & Hprop).
  unfold mapProperty in Hprop.
  apply bind_Done_inv in Hprop as (o & s3 & _ & Hprop).
  apply bind_Done_inv in Hprop as (pn & s4 & _ & Hprop).
  apply bind_Done_inv in Hprop as (v & s5 & Hfield & _).
  unfold field_of in Hf. rewrite Hf in Hfield.
  by eapply mapField_rich_text_Done.
Qed.

(** X4. An item that lies on a cycle of rich-text embeds is never
    mapped: whatever the budget of nested calls and whatever
    [processedItems] holds, [mapFields] does not return for it. The
    registry that [mapFields] keeps does not stop the recursion through
    rich text. *)
Theorem mapFields_rich_text_cycle_never_returns (this : Collaborators)
    (mc : gmap string RawItem) (qc : IItemQueryConfig) (X : RawItem) :
  tc (embeds_in_rich_text mc) X X →
  ∀ fuel p h r h', mapFields this fuel (Some X) mc qc p h ≠ Done r h'.
Proof.
  intros Hcycle fuel. revert X Hcycle.
  induction fuel as [|n IH]; intros X Hcycle p h r h' H; [done|].
  assert (∃ Y, embeds_in_rich_text mc X Y ∧ tc (embeds_in_rich_text mc) Y Y) as (Y & HXY & HY).
  { inversion Hcycle as [? ? Hstep|? Y ? Hstep Hrest]; subst.
    - exists X. split; [done | by apply tc_once].
    - exists Y. split; [done|]. eapply tc_rtc_r; [exact Hrest|]. by apply rtc_once. }
  destruct (mapFields_Done_embeds _ _ _ _ _ _ _ _ _ _ HXY H) as (h1 & r1 & h2 & Hrec).
  by eapply (IH Y HY).
Qed.

Lemma mapFields_rich_text_cycle_never_returns_witness :
  tc (embeds_in_rich_text pages) page page ∧
  ∀ fuel p h r h', mapFields (plainMapper true) fuel (Some page) pages noLinkResolver p h ≠
                   Done r h'.
Proof.
  assert (Hcycle : tc (embeds_in_rich_text pages) page page).
  { apply tc_once.
    exists [("body", field "Body" "rich_text" (RVString "<object>") (Some ["page"]))],
      "body", (rawField "Body" "rich_text" (RVString "<object>") (Some ["page"])),
      ["page"], "page".
    split; [reflexivity|]. split; [apply list_elem_of_here|]. split; [reflexivity|].
    split; [reflexivity|]. split; [reflexivity|]. split; [apply list_elem_of_here|].
    reflexivity. }
  split; [exact Hcycle|].
  exact (mapFields_rich_text_cycle_never_returns (plainMapper true) pages noLinkResolver page
           Hcycle).
Defined.

(** ** The list a linked-items element maps to *)

Lemma find_in_elem (st : list ContentItem) (t : option System.t) (ps : list ref) (m : ref) :
  find_in st t ps = Some (Some m) → m ∈ ps.
Proof.
  induction ps as [|x ps IH]; simpl; [done|].
  destruct (same_codename st t x) as [[]|]; [|by right; apply IH|done].
  intros [= ->]. apply list_elem_of_here.
Qed.

Lemma same_codename_app (st : list ContentItem) (o : ContentItem) (t : option System.t)
    (m : ref) (b : bool) :
  same_codename st t m = Some b → same_codename (st ++ [o]) t m = Some b.
Proof.
  unfold same_codename. destruct (st !! m) as [x|] eqn:Hm; [|done].
  by rewrite (lookup_app_l_Some _ _ _ _ Hm).
Qed.

Lemma find_in_app (st : list ContentItem) (o : ContentItem) (t : option System.t)
    (ps : list ref) (res : option ref) :
  find_in st t ps = Some res → find_in (st ++ [o]) t ps = Some res.
Proof.
  induction ps as [|x ps IH]; simpl; [done|].
  destruct (same_codename st t x) as [b|] eqn:Hx; [|done].
  rewrite (same_codename_app _ o _ _ _ Hx). destruct b; [done | exact IH].
Qed.

(** An item that [processedItems.find] does not find is registered by
    the call that maps it. *)
Lemma mapFields_registers (this : Collaborators) (fuel : nat) (X : RawItem)
    (mc : gmap string RawItem) (qc : IItemQueryConfig) (h h' : Heap) (r : ref) :
  find_in (store h) (system X) (processed h) = Some None →
  mapFields this fuel (Some X) mc qc PArray h = Done r h' → r ∈ processed h'.
Proof.
  intros Hfind H. destruct fuel as [|n]; [done|]. simpl in H. unfold mapFields_body in H.
  apply bind_Done_inv in H as ([[X' s] els] & h0 & Hcheck & H).
  apply checkArguments_Done in Hcheck as Hh. subst h0.
  apply checkArguments_Done_item in Hcheck as ([= <-] & Hs & _).
  apply bind_Done_inv in H as (r0 & h1 & Halloc & H). injection Halloc as <- <-.
  apply bind_Done_inv in H as (res & h2 & Hf & H).
  unfold find_processed in Hf. simpl in Hf. rewrite Hs in Hfind.
  rewrite (find_in_app _ _ _ _ _ Hfind) in Hf. injection Hf as <- <-.
  apply bind_Done_inv in H as ([] & h3 & Hpush & H). injection Hpush as <-.
  apply bind_Done_inv in H as ([] & h4 & Hloop & H). injection H as <- ->.
  assert (Hg : grows 0 {| store := store h ++ [newTypedItem this s X];
                          processed := processed h ++ [length (store h)];
                          console := console h |} h').
  { eapply (keeps_forEach 0 (keys els)); [|by rewrite Hloop].
    intros k. apply keeps_mapProperty; [apply keeps_mapFields | lia]. }
  destruct Hg as (_ & _ & [rest Hp] & _). simpl in Hp. rewrite Hp.
  apply elem_of_app. left. apply elem_of_app. right. apply list_elem_of_here.
Qed.

Lemma linkedItems_registered (this : Collaborators) (fuel : nat) (f : IField.t)
    (mc : gmap string RawItem) (qc : IItemQueryConfig) (l : list string) :
  ∀ acc h res h',
    forEach_push l (linkedItemStep this (mapFields this fuel) f mc qc) acc h = Done res h' →
    processed h `prefix_of` processed h' ∧
    ∃ new, res = acc ++ new ∧ length new = length (List.filter (present mc) l) ∧
           Forall (λ r, r ∈ processed h') new.
Proof.
  induction l as [|c l IH]; intros acc h res h' H; simpl in H.
  - injection H as <- <-. split; [done|]. exists []. by rewrite app_nil_r.
  - apply bind_Done_inv in H as (acc1 & h1 & Hstep & H).
    destruct (IH _ _ _ _ H) as (Hpre & new & -> & Hlen & Hall).
    pose proof (linkedItemStep_mapFields_own _ _ _ _ _ _ _ _ _ _ Hstep) as Hown.
    unfold linkedItemStep in Hstep. rewrite Hown in Hstep. simpl. unfold present at 1.
    destruct (mc !! c) as [Y|] eqn:Hc.
    + rewrite bool_decide_eq_true_2 by eauto.
      apply bind_Done_inv in Hstep as (found & h0 & Hfind & Hstep).
      unfold find_processed in Hfind.
      destruct (find_in (store h) (system Y) (processed h)) as [res|] eqn:Hres; [|done].
      injection Hfind as <- <-. destruct res as [m|].
      * injection Hstep as <- <-. split; [done|].
        exists (m :: new). split; [by rewrite <- app_assoc|]. split; [simpl; by rewrite Hlen|].
        constructor; [|done]. apply find_in_elem in Hres.
        destruct Hpre as [rest ->]. apply elem_of_app. by left.
      * apply bind_Done_inv in Hstep as (r & h2 & Hmap & Hret). injection Hret as <- ->.
        pose proof (mapFields_registers _ _ _ _ _ _ _ _ Hres Hmap) as Hr.
        assert (Hp : processed h `prefix_of` processed h1).
        { eapply (keeps_mapFields this fuel 0 (Some Y) mc qc PArray). by rewrite Hmap. }
        split; [by etrans|].
        exists (r :: new). split; [by rewrite <- app_assoc|]. split; [simpl; by rewrite Hlen|].
        constructor; [|done]. destruct Hpre as [rest ->]. apply elem_of_app. by left.
    + rewrite bool_decide_eq_false_2 by (by intros [? ?]).
      apply bind_Done_inv in Hstep as ([] & h0 & Hwarn & Hret). injection Hret as <- ->.
      assert (Hp : processed h `prefix_of` processed h1).
      { eapply (keeps_when 0 _ _ (keeps_warn 0 _)). by rewrite Hwarn. }
      split; [by etrans|]. by exists new.
Qed.

(** X5. What a linked-items element maps to. A value that is an array
    of codenames gives a list with one entry for every listed codename
    that the payload has, and every entry is an item of
    [processedItems]: an instance that was registered, or one that the
    call registered. A falsy value gives [null], not an empty list, with
    a warning under advanced logging. Any other value makes the mapper
    throw the [TypeError] of iterating what is not an array. *)
Theorem mapModularField_shape (this : Collaborators) (fuel : nat) (f : IField.t)
    (mc : gmap string RawItem) (qc : IItemQueryConfig) (h : Heap) :
  (∀ l v h', IField.value f = RVStrings l →
     mapModularField this (mapFields this fuel) (Some f) mc qc h = Done v h' →
     ∃ items, v = JArray items ∧
              length items = length (List.filter (present mc) l) ∧
              Forall (λ r, r ∈ processed h') items) ∧
  (value_truthy (IField.value f) = false →
     mapModularField this (mapFields this fuel) (Some f) mc qc h =
       Done JNull (if enableAdvancedLogging (config this)
                   then logged [modularValueMissing (IField.name f)] h else h)) ∧
  (value_truthy (IField.value f) = true → (∀ l, IField.value f ≠ RVStrings l) →
     mapModularField this (mapFields this fuel) (Some f) mc qc h =
       Thrown (TypeError "fieldModularContent.forEach is not a function") h).
Proof.
  split; [|split].
  - intros l v h' Hv H. unfold mapModularField in H. rewrite Hv in H. simpl in H.
    apply bind_Done_inv in H as (items & h1 & Hloop & Hret). injection Hret as <- <-.
    destruct (linkedItems_registered _ _ _ _ _ _ _ _ _ _ Hloop) as (_ & new & -> & Hlen & Hall).
    by exists new.
  - intros Hv. unfold mapModularField. rewrite Hv. simpl. unfold bind, logging.
    by destruct (enableAdvancedLogging (config this)).
  - intros Hv Hl. unfold mapModularField. rewrite Hv. simpl.
    destruct (IField.value f) as [| | |l|]; try done. by destruct (Hl l).
Qed.

Lemma mapModularField_shape_witness :
  ∃ h', mapModularField (plainMapper false) (mapFields (plainMapper false) 2)
          (Some (rawField "Friends" "modular_content" (RVStrings ["ghost"; "bob"; "bob"]) None))
          team noLinkResolver empty_heap = Done (JArray [0; 0]) h' ∧
        processed h' = [0] ∧
        mapModularField (plainMapper true) (mapFields (plainMapper true) 2)
          (Some (rawField "Friends" "modular_content" RVNull None))
          team noLinkResolver empty_heap =
          Done JNull (logged [modularValueMissing "Friends"] empty_heap) ∧
        mapModularField (plainMapper true) (mapFields (plainMapper true) 2)
          (Some (rawField "Friends" "modular_content" (RVString "bob") None))
          team noLinkResolver empty_heap =
          Thrown (TypeError "fieldModularContent.forEach is not a function") empty_heap.
Proof.
  eexists. split; [vm_compute; reflexivity|]. split; [reflexivity|]. split.
  - by apply (proj1 (proj2 (mapModularField_shape (plainMapper true) 2
                              (rawField "Friends" "modular_content" RVNull None)
                              team noLinkResolver empty_heap))).
  - by apply (proj2 (proj2 (mapModularField_shape (plainMapper true) 2
                              (rawField "Friends" "modular_content" (RVString "bob") None)
                              team noLinkResolver empty_heap))).
Defined.

(** ** Elements that are mapped from the raw field alone *)

Lemma mapField_value (this : Collaborators)
    (rec : option RawItem → gmap string RawItem → IItemQueryConfig → ProcessedArg → M Heap ref)
    (f : IField.t) (mc : gmap string RawItem) (r : ref) (qc : IItemQueryConfig)
    (h : Heap) (o : ContentItem) :
  IField.type f ∈ value_types → constructed this f → store h !! r = Some o →
  ∃ v, mapField this rec (Some f) mc r qc h = Done v h ∧ carries f v.
Proof.
  intros Ht [Ha Htax] Ho. unfold value_types in Ht. unfold mapField, carries.
  repeat (apply elem_of_cons in Ht as [Ht|Ht]);
    [| | | | | | | by apply elem_of_nil in Ht];
    try specialize (Ha Ht); try specialize (Htax Ht); rewrite Ht; simpl;
    unfold mapAssetsField, mapTaxonomyField; rewrite ?Ha, ?Htax;
    try (eexists; split; [reflexivity|]; simpl; by rewrite ?Ht).
  unfold mapUrlSlugField, bind, read. rewrite Ho.
  eexists. split; [reflexivity|]. simpl. done.
Qed.

Lemma mapField_rejected (this : Collaborators)
    (rec : option RawItem → gmap string RawItem → IItemQueryConfig → ProcessedArg → M Heap ref)
    (f : IField.t) (mc : gmap string RawItem) (r : ref) (qc : IItemQueryConfig)
    (h : Heap) (e : Exn) :
  rejected this f e → mapField this rec (Some f) mc r qc h = Thrown e h.
Proof.
  intros [[Ht He]|[Ht He]]; unfold mapField; rewrite Ht; simpl.
  - unfold mapAssetsField. by rewrite He.
  - unfold mapTaxonomyField. by rewrite He.
Qed.

Lemma resolvePropertyName_plain (this : Collaborators) (o : ContentItem) (k : string)
    (h : Heap) :
  get "propertyResolver" o = None →
  name_truthy (getPropertyName this o k) = false →
  resolvePropertyName this o k h = Done k h.
Proof.
  intros Hr Hd. unfold resolvePropertyName. rewrite Hr. unfold bind, ret. simpl.
  unfold name_truthy in Hd. destruct (getPropertyName this o k) as [d|]; [|done].
  by rewrite Hd.
Qed.

Section ValueFields.
Variable this : Collaborators.
Variable rec :
  option RawItem → gmap string RawItem → IItemQueryConfig → ProcessedArg → M Heap ref.
Variable els : list (string * option IField.t).
Variable mc : gmap string RawItem.
Variable qc : IItemQueryConfig.
Variable st : list ContentItem.
Variable ps : list ref.
Variable cns : list string.
Hypothesis Hdec : ∀ o k, name_truthy (getPropertyName this o k) = false.

Lemma mapProperties_value (l : list string) :
  (∀ k, k ∈ l → value_field this (field_of els k)) → "propertyResolver" ∉ l →
  ∀ o, get "propertyResolver" o = None →
    ∃ o', forEach l (mapProperty this rec els mc qc (length st))
            {| store := st ++ [o]; processed := ps; console := cns |} =
            Done tt {| store := st ++ [o']; processed := ps; console := cns |} ∧
          (∀ k f, k ∈ l → field_of els k = Some f → ∃ v, get k o' = Some v ∧ carries f v) ∧
          (∀ p, p ∉ l → get p o' = get p o).
Proof.
  induction l as [|k l IH]; intros Hval Hno o Hres; simpl.
  - exists o. split; [done|]. split; [|done]. intros k f Hk. by apply elem_of_nil in Hk.
  - destruct (Hval k) as (f & Hf & Ht & Hcon); [apply list_elem_of_here|].
    assert (Hk : k ≠ "propertyResolver").
    { intros ->. apply Hno, list_elem_of_here. }
    set (h := {| store := st ++ [o]; processed := ps; console := cns |}).
    assert (Ho : store h !! length st = Some o) by (by apply list_lookup_middle).
    destruct (mapField_value this rec f mc (length st) qc h o Ht Hcon Ho)
      as (v & Hmap & Hcar).
    destruct (IH (λ k' Hk', Hval k' (list_elem_of_further _ _ _ Hk'))
                 (λ Hin, Hno (list_elem_of_further _ _ _ Hin))
                 (set k v o)) as (o' & Hloop & Hkeys & Hother).
    { by rewrite get_set_ne. }
    exists o'. split; [|split].
    + assert (Hstep : mapProperty this rec els mc qc (length st) k h =
                Done tt {| store := st ++ [set k v o]; processed := ps; console := cns |}).
      { unfold mapProperty. fold (field_of els k). rewrite Hf.
        rewrite (bind_Done _ _ _ _ _ (read_ok h _ o Ho)).
        rewrite (bind_Done _ _ _ _ _ (resolvePropertyName_plain this o k h Hres (Hdec o k))).
        rewrite (bind_Done _ _ _ _ _ Hmap).
        unfold set_property. rewrite Ho. simpl. do 2 f_equal.
        replace (length st) with (length st + 0) by lia.
        by rewrite insert_app_r. }
      by rewrite (bind_Done _ _ _ _ _ Hstep).
    + intros k' f' [->|Hk']%elem_of_cons Hf'.
      * destruct (decide (k ∈ l)) as [Hin|Hnin]; [by apply Hkeys|].
        rewrite (Hother k Hnin), get_set_eq. exists v. split; [done|]. congruence.
      * by apply Hkeys.
    + intros p Hp. apply not_elem_of_cons in Hp as [Hpk Hpl].
      rewrite (Hother p Hpl). by apply get_set_ne.
Qed.

End ValueFields.

(** X7. An item whose elements are all of the types text, asset,
    number, multiple_choice, datetime, taxonomy or url_slug, whose asset
    and taxonomy elements have values that the constructors of their
    field objects accept, and that is mapped under the codenames of its
    elements (no [propertyResolver], no decorators), is mapped in one
    call, without a nested call and without a warning: [mapFields]
    returns, it creates one typed item, registers it unless its codename
    is registered, and the typed item has under the codename of every
    element the field object of the element's type with the raw name and
    value; every other property is as the type registry created it. An
    asset or taxonomy element whose constructor throws is not mapped:
    [mapField] throws what the constructor throws and leaves the heap as
    it was. *)
Theorem mapFields_value_elements (this : Collaborators) (fuel : nat) (X : RawItem)
    (s : System.t) (els : list (string * option IField.t)) (mc : gmap string RawItem)
    (qc : IItemQueryConfig) (h : Heap) :
  system X = Some s → elements X = Some els →
  plain_naming this (newTypedItem this s X) els →
  (∀ k, k ∈ keys els → value_field this (field_of els k)) →
  searchable h →
  (∃ o, mapFields this (S fuel) (Some X) mc qc PArray h =
          Done (length (store h))
               {| store := store h ++ [o];
                  processed := if bool_decide (System.codename s ∈ pcodes h)
                               then processed h
                               else processed h ++ [length (store h)];
                  console := console h |} ∧
        (∀ k f, k ∈ keys els → field_of els k = Some f →
                ∃ v, get k o = Some v ∧ carries f v) ∧
        (∀ p, p ∉ keys els → get p o = get p (newTypedItem this s X))) ∧
  (∀ f r e h0, rejected this f e →
     mapField this (mapFields this fuel) (Some f) mc r qc h0 = Thrown e h0).
Proof.
  intros Hs Hels [Hres Hdec Hno _] Hval Hsearch.
  split; [|intros f r e h0; apply mapField_rejected].
  destruct (find_in_spec (store h ++ [newTypedItem this s X]) s (processed h))
    as (res & Hfind & Hpost).
  { intros m Hm. destruct (Hsearch m Hm) as [c Hc]. exists c. by apply codename_of_app. }
  assert (Hpc : omap (codename_of (store h ++ [newTypedItem this s X])) (processed h) =
                pcodes h).
  { unfold pcodes. apply omap_agree. intros m Hm. destruct (Hsearch m Hm) as [c Hc].
    rewrite Hc. split; [by eexists | by apply codename_of_app]. }
  set (ps := if bool_decide (System.codename s ∈ pcodes h)
             then processed h else processed h ++ [length (store h)]).
  destruct (mapProperties_value this (mapFields this fuel) els mc qc (store h) ps (console h)
              Hdec (keys els) Hval Hno (newTypedItem this s X) Hres)
    as (o & Hloop & Hkeys & Hother).
  exists o. split; [|done].
  simpl. unfold mapFields_body.
  rewrite (bind_Done _ _ _ _ _ (checkArguments_pass X s els h Hs Hels)).
  unfold bind at 1. unfold alloc at 1.
  unfold bind at 1. unfold find_processed at 1. simpl. rewrite Hfind.
  assert (Hpush : match res with
                  | Some _ => ret tt
                  | None => push_processed (length (store h))
                  end {| store := store h ++ [newTypedItem this s X];
                         processed := processed h; console := console h |} =
                  Done tt {| store := store h ++ [newTypedItem this s X];
                             processed := ps; console := console h |}).
  { subst ps. rewrite Hpc in Hpost. destruct res as [m|].
    - destruct Hpost as [Hm Hc]. rewrite bool_decide_eq_true_2; [done|].
      rewrite <- Hpc. apply list_elem_of_omap. by exists m.
    - by rewrite bool_decide_eq_false_2. }
  rewrite (bind_Done _ _ _ _ _ Hpush). by rewrite (bind_Done _ _ _ _ _ Hloop).
Qed.

Lemma mapFields_value_elements_witness :
  (∃ o, mapFields (plainMapper false) 1 (Some movie) ∅ noLinkResolver PArray empty_heap =
          Done 0 {| store := [o]; processed := [0]; console := [] |} ∧
        (∀ k f, k ∈ keys movieElements → field_of movieElements k = Some f →
                ∃ v, get k o = Some v ∧ carries f v) ∧
        (∀ p, p ∉ keys movieElements → get p o = get p (plainItem movie))) ∧
  mapField (plainMapper false) (mapFields (plainMapper false) 0)
    (field "Poster" "asset" RVNull None) ∅ 0 noLinkResolver empty_heap =
    Thrown (Error "AssetsField: the value is not an array") empty_heap.
Proof.
  assert (Hnaming : plain_naming (plainMapper false)
                      (newTypedItem (plainMapper false) (sys "warrior" "movie") movie)
                      movieElements).
  { split; [reflexivity | done | |]; vm_compute;
      intros H; repeat (apply elem_of_cons in H as [H|H]; [discriminate H|]);
      by apply elem_of_nil in H. }
  assert (Hvalues : ∀ k, k ∈ keys movieElements →
                         value_field (plainMapper false) (field_of movieElements k)).
  { intros k Hk. vm_compute in Hk.
    repeat (apply elem_of_cons in Hk as [->|Hk]; [eexists; split; [reflexivity|]|]);
      [| | | | | by apply elem_of_nil in Hk];
      (split; [vm_compute;
               repeat (first [apply list_elem_of_here | apply list_elem_of_further])
              | by split]). }
  assert (Hsearch : searchable empty_heap).
  { intros m Hm. by apply elem_of_nil in Hm. }
  split.
  - exact (proj1 (mapFields_value_elements (plainMapper false) 0 movie (sys "warrior" "movie")
                    movieElements ∅ noLinkResolver empty_heap eq_refl eq_refl
                    Hnaming Hvalues Hsearch)).
  - refine (proj2 (mapFields_value_elements (plainMapper false) 0 movie (sys "warrior" "movie")
                    movieElements ∅ noLinkResolver empty_heap eq_refl eq_refl
                    Hnaming Hvalues Hsearch) _ 0 _ empty_heap _).
    left. by split.
Defined.

(** ** The link resolver of a url slug, the links of a rich text, and
    the name of a property *)

(** X8. A url-slug element is given the link resolver of the query when
    the query has one, and otherwise whatever the typed item holds as its
    [linkResolver] at that moment, possibly nothing; the field object
    refers back to the typed item it belongs to, and mapping it leaves
    the heap as it was. *)
Theorem mapField_url_slug_link_resolver (this : Collaborators)
    (rec : option RawItem → gmap string RawItem → IItemQueryConfig → ProcessedArg → M Heap ref)
    (f : IField.t) (mc : gmap string RawItem) (item : ref) (qc : IItemQueryConfig)
    (h : Heap) (o : ContentItem) :
  IField.type f = FieldType.url_slug → store h !! item = Some o →
  mapField this rec (Some f) mc item qc h =
    Done (UrlSlugField (IField.name f) (IField.value f) item
            (match linkResolver qc with
             | Some fromQuery => Some (JLinkResolver fromQuery)
             | None => get "linkResolver" o
             end)
            (enableAdvancedLogging (config this))) h.
Proof.
  intros Ht Ho. unfold mapField. rewrite Ht. simpl.
  unfold mapUrlSlugField, bind, read. by rewrite Ho.
Qed.

Lemma mapField_url_slug_link_resolver_witness :
  mapField (plainMapper true) (mapFields (plainMapper true) 0)
    (field "Url" "url_slug" (RVString "warrior") None) ∅ 0
    {| linkResolver := Some (λ link, "/movies/" +:+ Link.url_slug link) |}
    {| store := [[("system", JSystem (sys "warrior" "movie"));
                  ("linkResolver", JLinkResolver (λ link, "/" +:+ Link.codename link))]];
       processed := [0]; console := [] |} =
  Done (UrlSlugField "Url" (RVString "warrior") 0
          (Some (JLinkResolver (λ link, "/movies/" +:+ Link.url_slug link))) true)
       {| store := [[("system", JSystem (sys "warrior" "movie"));
                     ("linkResolver", JLinkResolver (λ link, "/" +:+ Link.codename link))]];
          processed := [0]; console := [] |}.
Proof.
  exact (mapField_url_slug_link_resolver (plainMapper true) (mapFields (plainMapper true) 0)
           (rawField "Url" "url_slug" (RVString "warrior") None) ∅ 0
           {| linkResolver := Some (λ link, "/movies/" +:+ Link.url_slug link) |}
           {| store := [[("system", JSystem (sys "warrior" "movie"));
                         ("linkResolver", JLinkResolver (λ link, "/" +:+ Link.codename link))]];
              processed := [0]; console := [] |}
           [("system", JSystem (sys "warrior" "movie"));
            ("linkResolver", JLinkResolver (λ link, "/" +:+ Link.codename link))]
           eq_refl eq_refl).
Defined.

Lemma find_typedLink (linksJson : list (string * RawLink.t)) (id : string) :
  List.find (λ l, String.eqb (Link.linkId l) id)
    (map (λ '(linkItemId, linkRaw), typedLink linkItemId linkRaw) linksJson) =
  typedLink id <$> get id linksJson.
Proof.
  induction linksJson as [|[k raw] l IH]; simpl; [done|].
  destruct (String.eqb_spec k id) as [->|Hne]; [done | exact IH].
Qed.

(** X9. The links of a rich-text element are mapped one to one: the
    typed links come in the order of the raw entries, each under the id
    that was the key of its entry, and looking a typed link up by its id
    gives the codename, type and url slug that the raw links hold under
    that id. Mapping them leaves the heap as it was. A rich-text element
    that comes without [links] cannot be mapped: [mapRichTextField]
    never returns for it. *)
Theorem mapRichTextLinks_lookup (h : Heap) :
  (∀ linksJson, ∃ links,
     mapRichTextLinks (Some linksJson) h = Done links h ∧
     map Link.linkId links = keys linksJson ∧
     ∀ id, List.find (λ l, String.eqb (Link.linkId l) id) links =
           typedLink id <$> get id linksJson) ∧
  (∀ this rec f mc qc v h',
     IField.links f = None → mapRichTextField this rec f mc qc h ≠ Done v h').
Proof.
  split.
  - intros linksJson. eexists. split; [reflexivity|]. split.
    + unfold keys. rewrite map_map. apply map_ext. by intros [k raw].
    + intros id. apply find_typedLink.
  - intros this rec f mc qc v h' Hl H. unfold mapRichTextField in H.
    apply bind_Done_inv in H as (items & h1 & _ & H).
    apply bind_Done_inv in H as (ls & h2 & Hlinks & _).
    unfold mapRichTextLinks in Hlinks. by rewrite Hl in Hlinks.
Qed.



(** ** What a pass creates and what it registers *)

Lemma registers_created_refl (h : Heap) : registers_created h h.
Proof. split; [done|]. by rewrite Nat.sub_diag, app_nil_r. Qed.

Lemma registers_created_trans (h1 h2 h3 : Heap) :
  registers_created h1 h2 → registers_created h2 h3 → registers_created h1 h3.
Proof.
  intros [Hl1 Hp1] [Hl2 Hp2]. split; [lia|]. rewrite Hp2, Hp1, <- app_assoc. f_equal.
  replace (length (store h3) - length (store h1))
    with ((length (store h2) - length (store h1)) + (length (store h3) - length (store h2)))
    by lia.
  rewrite seq_app. do 2 f_equal. lia.
Qed.

Lemma registers_created_same (h h' : Heap) :
  length (store h') = length (store h) → processed h' = processed h →
  registers_created h h'.
Proof. intros Hl Hp. split; [lia|]. by rewrite Hl, Hp, Nat.sub_diag, app_nil_r. Qed.

Lemma resolvePropertyName_Done (this : Collaborators) (o : ContentItem) (k : string)
    (h h' : Heap) (p : string) :
  resolvePropertyName this o k h = Done p h' → h' = h.
Proof.
  unfold resolvePropertyName. intros H. apply bind_Done_inv in H as (n & h1 & Hn & H).
  injection H as _ <-.
  destruct (get "propertyResolver" o) as [[]|]; try done; by injection Hn as _ <-.
Qed.

Section Created.
Variable this : Collaborators.
Variable rec :
  option RawItem → gmap string RawItem → IItemQueryConfig → ProcessedArg → M Heap ref.
Variable mc : gmap string RawItem.
Variable qc : IItemQueryConfig.
Hypothesis Hmc : ∀ c Y, mc !! c = Some Y → embeds_nothing Y.
Hypothesis Hrec : ∀ c Y h r h',
  mc !! c = Some Y → find_in (store h) (system Y) (processed h) = Some None →
  rec (Some Y) mc qc PArray h = Done r h' → registers_created h h'.
Hypothesis Hproto : ∀ h r h', rec (Some prototypeMember) mc qc PArray h ≠ Done r h'.

Lemma linkedItems_created (f : IField.t) (l : list string) :
  ∀ acc h res h',
    forEach_push l (linkedItemStep this rec f mc qc) acc h = Done res h' →
    registers_created h h'.
Proof.
  induction l as [|c l IH]; intros acc h res h' H; simpl in H.
  - injection H as _ <-. apply registers_created_refl.
  - apply bind_Done_inv in H as (acc1 & h1 & Hstep & H).
    eapply registers_created_trans; [|by eapply IH].
    pose proof (linkedItemStep_Done_own _ _ _ _ _ _ _ _ _ _ Hproto Hstep) as Hown.
    unfold linkedItemStep in Hstep. rewrite Hown in Hstep.
    destruct (mc !! c) as [Y|] eqn:Hc.
    + apply bind_Done_inv in Hstep as (found & h0 & Hfind & Hstep).
      unfold find_processed in Hfind.
      destruct (find_in (store h) (system Y) (processed h)) as [res0|] eqn:Hres; [|done].
      injection Hfind as <- <-. destruct res0 as [m|].
      * injection Hstep as _ <-. apply registers_created_refl.
      * apply bind_Done_inv in Hstep as (r & h2 & Hmap & Hret). injection Hret as _ <-.
        by eapply Hrec.
    + apply bind_Done_inv in Hstep as ([] & h0 & Hwarn & Hret). injection Hret as _ <-.
      unfold when in Hwarn. destruct (logging this); injection Hwarn as <-;
        by apply registers_created_same.
Qed.

Lemma mapField_created (f : IField.t) (r : ref) (h h' : Heap) (v : JsVal) :
  (IField.type f = FieldType.rich_text →
   IField.modular_content f = None ∨ IField.modular_content f = Some []) →
  mapField this rec (Some f) mc r qc h = Done v h' → registers_created h h'.
Proof.
  intros Hrt H. unfold mapField in H.
  destruct (String.eqb_spec (IField.type f) FieldType.modular_content) as [_|_].
  { unfold mapModularField in H. destruct (negb (value_truthy (IField.value f))).
    - apply bind_Done_inv in H as ([] & h0 & Hwarn & Hret). injection Hret as _ <-.
      unfold when in Hwarn. destruct (logging this); injection Hwarn as <-;
        by apply registers_created_same.
    - destruct (IField.value f); try done.
      apply bind_Done_inv in H as (items & h0 & Hloop & Hret). injection Hret as _ <-.
      by eapply linkedItems_created. }
  repeat (match type of H with
          | (if ?b then _ else _) _ = _ => destruct b eqn:?
          end);
    try (injection H as _ <-; apply registers_created_refl).
  - unfold mapAssetsField in H. destruct (assetsFieldThrows _ _ _); [done|].
    injection H as _ <-. apply registers_created_refl.
  - unfold mapRichTextField in H.
    apply bind_Done_inv in H as (items & h0 & Hloop & H).
    apply bind_Done_inv in H as (ls & h1 & Hlinks & Hret). injection Hret as _ <-.
    assert (h1 = h0) as ->.
    { unfold mapRichTextLinks in Hlinks. destruct (IField.links f); [|done].
      by injection Hlinks as _ <-. }
    assert (h0 = h) as ->; [|apply registers_created_refl].
    destruct Hrt as [Hm|Hm]; [by apply String.eqb_eq | |]; rewrite Hm in Hloop;
      by injection Hloop as _ <-.
  - unfold mapUrlSlugField in H. apply bind_Done_inv in H as (o & h0 & Hread & Hret).
    injection Hret as _ <-. unfold read in Hread.
    destruct (store h !! r); [|done]. injection Hread as _ <-. apply registers_created_refl.
  - unfold mapTaxonomyField in H. destruct (taxonomyFieldThrows _ _ _ _); [done|].
    injection H as _ <-. apply registers_created_refl.
  - by apply bind_Done_inv in H as ([] & h0 & _ & H).
Qed.

Lemma mapProperties_created (els : list (string * option IField.t)) (r : ref)
    (l : list string) :
  (∀ k f, k ∈ l → field_of els k = Some f → IField.type f = FieldType.rich_text →
          IField.modular_content f = None ∨ IField.modular_content f = Some []) →
  ∀ h h', forEach l (mapProperty this rec els mc qc r) h = Done tt h' →
          registers_created h h'.
Proof.
  induction l as [|k l IH]; intros Hl h h' H; simpl in H.
  - injection H as <-. apply registers_created_refl.
  - apply bind_Done_inv in H as ([] & h1 & Hstep & H).
    eapply registers_created_trans; [|eapply IH; [|exact H]]; last first.
    { intros k' f Hk'. apply Hl. by apply list_elem_of_further. }
    unfold mapProperty in Hstep.
    apply bind_Done_inv in Hstep as (o & h2 & Hread & Hstep).
    unfold read in Hread. destruct (store h !! r); [|done]. injection Hread as _ <-.
    apply bind_Done_inv in Hstep as (p & h3 & Hname & Hstep).
    apply resolvePropertyName_Done in Hname as ->.
    apply bind_Done_inv in Hstep as (v & h4 & Hfield & Hset).
    fold (field_of els k) in Hfield.
    destruct (field_of els k) as [f|] eqn:Hf; [|done].
    eapply registers_created_trans.
    { eapply mapField_created; [|exact Hfield]. apply (Hl k f); [apply list_elem_of_here|done]. }
    unfold set_property in Hset. destruct (store h4 !! r); [|done]. injection Hset as <-.
    apply registers_created_same; simpl; [by rewrite length_insert | done].
Qed.

Lemma mapFields_body_created (X : RawItem) (h h' : Heap) (r : ref) :
  embeds_nothing X →
  find_in (store h) (system X) (processed h) = Some None →
  mapFields_body this rec (Some X) mc qc PArray h = Done r h' → registers_created h h'.
Proof.
  intros HX Hfind H. unfold mapFields_body in H.
  apply bind_Done_inv in H as ([[X' s] els] & h0 & Hcheck & H).
  apply checkArguments_Done in Hcheck as Hh. subst h0.
  apply checkArguments_Done_item in Hcheck as ([= <-] & Hs & Hels).
  apply bind_Done_inv in H as (r0 & h1 & Halloc & H). injection Halloc as <- <-.
  apply bind_Done_inv in H as (res & h2 & Hf & H).
  unfold find_processed in Hf. simpl in Hf. rewrite Hs in Hfind.
  rewrite (find_in_app _ _ _ _ _ Hfind) in Hf. injection Hf as <- <-.
  apply bind_Done_inv in H as ([] & h3 & Hpush & H). injection Hpush as <-.
  apply bind_Done_inv in H as ([] & h4 & Hloop & H). injection H as _ ->.
  eapply registers_created_trans; [|eapply mapProperties_created; [|exact Hloop]].
  - split; simpl; rewrite length_app; simpl; [lia|].
    replace (length (store h) + 1 - length (store h)) with 1 by lia. done.
  - intros k f Hk Hf Ht. by eapply HX.
Qed.

End Created.

Lemma mapFields_created (this : Collaborators) (mc : gmap string RawItem)
    (qc : IItemQueryConfig) (fuel : nat) :
  (∀ c Y, mc !! c = Some Y → embeds_nothing Y) →
  ∀ X h r h',
    embeds_nothing X → find_in (store h) (system X) (processed h) = Some None →
    mapFields this fuel (Some X) mc qc PArray h = Done r h' → registers_created h h'.
Proof.
  intros Hmc. induction fuel as [|n IH]; intros X h r h' HX Hfind H; [done|].
  simpl in H. eapply (mapFields_body_created this (mapFields this n) mc qc); try done;
    try (intros ? ? ?; apply mapFields_prototypeMember).
  intros c Y h0 r0 h0' Hc. apply IH. by eapply Hmc.
Qed.

(** X6. In a response where no rich-text element embeds an item, a call
    of [mapFields] for an item that [processedItems.find] does not find
    registers every typed item it creates: when it returns, what it has
    added to [processedItems] are the typed items created since the
    call, the item of the call first, in the order of their creation.
    Started on an empty [processedItems] and an empty heap, a pass ends
    with every typed item registered, once. *)
Theorem mapFields_registers_what_it_creates (this : Collaborators) (fuel : nat)
    (X : RawItem) (mc : gmap string RawItem) (qc : IItemQueryConfig)
    (h h' : Heap) (r : ref) :
  embeds_nothing X → (∀ c Y, mc !! c = Some Y → embeds_nothing Y) →
  find_in (store h) (system X) (processed h) = Some None →
  mapFields this fuel (Some X) mc qc PArray h = Done r h' →
  registers_created h h' ∧
  (h = empty_heap → processed h' = seq 0 (length (store h'))).
Proof.
  intros HX Hmc Hfind H.
  pose proof (mapFields_created this mc qc fuel Hmc X h r h' HX Hfind H) as Hc.
  split; [done|]. intros ->. destruct Hc as [_ Hp]. simpl in Hp.
  by rewrite Nat.sub_0_r in Hp.
Qed.

Lemma friends_embed_nothing : ∀ c Y, friends !! c = Some Y → embeds_nothing Y.
Proof.
  intros c Y HY els k f Hels Hk Hf Ht.
  assert (Y = ann ∨ Y = bob) as [-> | ->].
  { unfold friends in HY. destruct (decide (c = "ann")) as [->|Hna].
    - rewrite lookup_insert_eq in HY. left. congruence.
    - rewrite lookup_insert_ne in HY by done. destruct (decide (c = "bob")) as [->|Hnb].
      + rewrite lookup_insert_eq in HY. right. congruence.
      + rewrite lookup_insert_ne in HY by done. by rewrite lookup_empty in HY. }
  all: injection Hels as <-; simpl in Hk;
    repeat (apply elem_of_cons in Hk as [->|Hk]; [injection Hf as <-; discriminate Ht|]);
    by apply elem_of_nil in Hk.
Qed.

Lemma mapFields_registers_what_it_creates_witness :
  ∃ h', mapFields (plainMapper false) 2 (Some ann) friends noLinkResolver PArray empty_heap =
          Done 0 h' ∧
        registers_created empty_heap h' ∧
        (empty_heap = empty_heap → processed h' = seq 0 (length (store h'))).
Proof.
  eexists. split; [vm_compute; reflexivity|].
  apply (mapFields_registers_what_it_creates (plainMapper false) 2 ann friends noLinkResolver
           empty_heap _ 0).
  - apply (friends_embed_nothing "ann"). reflexivity.
  - apply friends_embed_nothing.
  - reflexivity.
  - vm_compute. reflexivity.
Defined.

(** ** The typed graph mirrors the raw graph *)

Lemma codenames_kept_refl (st : list ContentItem) : codenames_kept st st.
Proof. by intros r c. Qed.

Lemma codenames_kept_trans (st1 st2 st3 : list ContentItem) :
  codenames_kept st1 st2 → codenames_kept st2 st3 → codenames_kept st1 st3.
Proof. intros H1 H2 r c Hc. by apply H2, H1. Qed.

Lemma codenames_kept_prefix (st st' : list ContentItem) :
  st `prefix_of` st' → codenames_kept st st'.
Proof.
  intros Hp r c (o & s & Hl & Hs & <-)%codename_of_Some.
  eapply codename_of_intro; [|done]. by eapply prefix_lookup_Some.
Qed.

Lemma codenames_kept_insert (st : list ContentItem) (r : ref) (o : ContentItem)
    (p : string) (v : JsVal) :
  st !! r = Some o → reserved p = false → codenames_kept st (<[r := set p v o]> st).
Proof. intros Ho Hp r' c Hc. by rewrite codename_of_insert. Qed.

Lemma mirrors_kept (mc : gmap string RawItem) (st st' : list ContentItem)
    (f : IField.t) (v : JsVal) :
  codenames_kept st st' → mirrors mc st f v → mirrors mc st' f v.
Proof.
  intros Hk. unfold mirrors.
  destruct (String.eqb (IField.type f) FieldType.modular_content); [|done].
  destruct (IField.value f); try done. intros (rs & -> & Hall). exists rs. split; [done|].
  eapply Forall2_impl; [exact Hall|]. intros c r. apply Hk.
Qed.

Lemma image_of_kept (mc : gmap string RawItem) (st st' : list ContentItem)
    (X : RawItem) (o : ContentItem) :
  codenames_kept st st' → image_of mc st X o → image_of mc st' X o.
Proof.
  intros Hk [Hs Hels]. split; [done|]. intros els k f He Hkk Hf.
  destruct (Hels els k f He Hkk Hf) as (v & Hv & Hm). exists v. split; [done|].
  by eapply mirrors_kept.
Qed.

Lemma prefix_of_lookup {A} (l l' : list A) :
  (length l ≤ length l')%nat → (∀ i, i < length l → l' !! i = l !! i) → l `prefix_of` l'.
Proof.
  intros Hlen Hl. exists (drop (length l) l').
  rewrite <- (take_drop (length l) l') at 1. f_equal.
  apply list_eq. intros i. destruct (decide (i < length l)) as [Hi|Hi].
  - rewrite lookup_take_lt by done. by apply Hl.
  - rewrite lookup_take_ge by lia. symmetry. apply lookup_ge_None. lia.
Qed.

Lemma find_in_codename (st : list ContentItem) (t : System.t) (ps : list ref) (m : ref) :
  find_in st (Some t) ps = Some (Some m) → codename_of st m = Some (System.codename t).
Proof.
  induction ps as [|x ps IH]; simpl; [done|].
  destruct (same_codename st (Some t) x) as [[]|] eqn:Hx; [|exact IH|done].
  intros [= <-]. unfold same_codename in Hx. unfold codename_of.
  destruct (st !! x ≫= get "system") as [[]|]; try done.
  injection Hx as Hx. apply String.eqb_eq in Hx. by rewrite Hx.
Qed.

Lemma field_ok_constructed (this : Collaborators) (mc : gmap string RawItem) (f : IField.t) :
  field_ok this mc (Some f) = true → constructed this f.
Proof.
  unfold field_ok, constructed. intros Hok.
  split; intros Ht; rewrite Ht in Hok; simpl in Hok.
  - by destruct (assetsFieldThrows this (IField.name f) (IField.value f)).
  - by destruct (taxonomyFieldThrows this (IField.name f) (IField.value f)
                   (IField.taxonomy_group f)).
Qed.

Lemma field_ok_value_type (this : Collaborators) (mc : gmap string RawItem) (f : IField.t) :
  field_ok this mc (Some f) = true →
  IField.type f ≠ FieldType.modular_content → IField.type f ≠ FieldType.rich_text →
  IField.type f ∈ value_types.
Proof.
  unfold field_ok, value_types. intros Hok Hm Hr.
  destruct (String.eqb_spec (IField.type f) FieldType.modular_content) as [|_]; [done|].
  destruct (String.eqb_spec (IField.type f) FieldType.rich_text) as [|_]; [done|].
  destruct (String.eqb_spec (IField.type f) FieldType.asset) as [->|_].
  { repeat (first [apply list_elem_of_here | apply list_elem_of_further]). }
  destruct (String.eqb_spec (IField.type f) FieldType.taxonomy) as [->|_].
  { repeat (first [apply list_elem_of_here | apply list_elem_of_further]). }
  apply bool_decide_eq_true in Hok. unfold FieldType.all in Hok.
  repeat (apply elem_of_cons in Hok as [Hok|Hok]; [rewrite Hok|]);
    try (by repeat (first [apply list_elem_of_here | apply list_elem_of_further]));
    try done.
Qed.



Section Mirror.
Variable this : Collaborators.
Variable rec :
  option RawItem → gmap string RawItem → IItemQueryConfig → ProcessedArg → M Heap ref.
Variable mc : gmap string RawItem.
Variable qc : IItemQueryConfig.
Hypothesis Hsys : ∀ s X, system X = Some s →
                         get "system" (newTypedItem this s X) = Some (JSystem s).
Hypothesis Hgen : generic_items this.
Hypothesis Hmc : ∀ c Y, mc !! c = Some Y →
                        item_ok this mc Y = true ∧ System.codename <$> system Y = Some c.
Hypothesis Hrec : ∀ c Y h r h',
  mc !! c = Some Y → rec (Some Y) mc qc PArray h = Done r h' → call_images mc Y h r h'.
Hypothesis Hproto : ∀ h r h', rec (Some prototypeMember) mc qc PArray h ≠ Done r h'.

Lemma imaged_kept (st st' : list ContentItem) (r : ref) :
  codenames_kept st st' → st' !! r = st !! r → imaged mc st r → imaged mc st' r.
Proof.
  intros Hk Hl (c & Y & o & HY & Ho & Him). exists c, Y, o.
  split; [done|]. split; [by rewrite Hl|]. by eapply image_of_kept.
Qed.

Lemma linkedItems_mirror (f : IField.t) (l : list string) :
  ∀ acc h res h',
    forEach_push l (linkedItemStep this rec f mc qc) acc h = Done res h' →
    ∃ new, res = acc ++ new ∧ store h `prefix_of` store h' ∧
           Forall2 (λ c r, codename_of (store h') r = Some c)
                   (List.filter (present mc) l) new ∧
           ∀ r', (length (store h) ≤ r')%nat → r' < length (store h') →
                 imaged mc (store h') r'.
Proof.
  induction l as [|c l IH]; intros acc h res h' H; simpl in H.
  - injection H as <- <-. exists []. rewrite app_nil_r.
    split; [done|]. split; [done|]. split; [constructor|]. intros r' ? ?. lia.
  - apply bind_Done_inv in H as (acc1 & h1 & Hstep & H).
    destruct (IH _ _ _ _ H) as (new & -> & Hpre & Hall & Himg).
    assert (Hstep' : ∃ new1, acc1 = acc ++ new1 ∧ store h `prefix_of` store h1 ∧
              Forall2 (λ c0 r, codename_of (store h1) r = Some c0)
                      (List.filter (present mc) [c]) new1 ∧
              ∀ r', (length (store h) ≤ r')%nat → r' < length (store h1) →
                    imaged mc (store h1) r').
    { pose proof (linkedItemStep_Done_own _ _ _ _ _ _ _ _ _ _ Hproto Hstep) as Hown.
      unfold linkedItemStep in Hstep. rewrite Hown in Hstep. simpl. unfold present.
      destruct (mc !! c) as [Y|] eqn:Hc.
      - rewrite bool_decide_eq_true_2 by eauto.
        destruct (Hmc c Y Hc) as [HYok HYc].
        destruct (item_ok_inv this mc Y HYok) as (sY & elsY & HsY & _).
        rewrite HsY in HYc. simpl in HYc. injection HYc as HYc.
        apply bind_Done_inv in Hstep as (found & h0 & Hfind & Hstep).
        unfold find_processed in Hfind. rewrite HsY in Hfind.
        destruct (find_in (store h) (Some sY) (processed h)) as [res|] eqn:Hres; [|done].
        injection Hfind as <- <-. destruct res as [m|].
        + injection Hstep as <- <-. exists [m]. split; [done|]. split; [done|].
          split; [|intros r' ? ?; lia].
          constructor; [|constructor]. rewrite <- HYc. by eapply find_in_codename.
        + apply bind_Done_inv in Hstep as (r & h2 & Hmap & Hret). injection Hret as <- ->.
          destruct (Hrec c Y h r h1 Hc Hmap) as (-> & Hp & (o & Ho & Him) & Hnew).
          exists [length (store h)]. split; [done|]. split; [done|]. split.
          * constructor; [|constructor]. destruct Him as [(s' & Hs' & Hget) _].
            rewrite HsY in Hs'. injection Hs' as <-. rewrite <- HYc.
            by eapply codename_of_intro.
          * intros r' Hge Hlt. destruct (decide (r' = length (store h))) as [->|Hne].
            -- by exists c, Y, o.
            -- apply Hnew; [lia | done].
      - rewrite bool_decide_eq_false_2 by (by intros [? ?]).
        apply bind_Done_inv in Hstep as ([] & h0 & Hwarn & Hret). injection Hret as <- ->.
        exists []. rewrite app_nil_r. split; [done|].
        unfold when in Hwarn. destruct (logging this); injection Hwarn as <-; simpl;
          (split; [done|]); (split; [constructor|]); intros r' ? ?; lia. }
    destruct Hstep' as (new1 & -> & Hpre1 & Hall1 & Himg1).
    exists (new1 ++ new). split; [by rewrite app_assoc|]. split; [by etrans|]. split.
    + change (c :: l) with ([c] ++ l). rewrite List.filter_app. apply Forall2_app; [|done].
      eapply Forall2_impl; [exact Hall1|]. intros c0 r.
      by apply codenames_kept_prefix.
    + intros r' Hge Hlt. destruct (decide (r' < length (store h1))) as [Hlt1|Hge1].
      * eapply imaged_kept; [by apply codenames_kept_prefix| |by apply Himg1].
        symmetry. by apply prefix_lookup_lt.
      * apply Himg; [lia | done].
Qed.

Lemma mapField_mirrors (f : IField.t) (r : ref) (h h' : Heap) (o : ContentItem) (v : JsVal) :
  field_ok this mc (Some f) = true → store h !! r = Some o →
  mapField this rec (Some f) mc r qc h = Done v h' →
  mirrors mc (store h') f v ∧ store h `prefix_of` store h' ∧
  ∀ r', (length (store h) ≤ r')%nat → r' < length (store h') → imaged mc (store h') r'.
Proof.
  intros Hok Ho H. pose proof (field_ok_constructed this mc f Hok) as Hcon.
  pose proof (field_ok_value_type this mc f Hok) as Hvalue.
  unfold field_ok in Hok. unfold mirrors.
  destruct (String.eqb_spec (IField.type f) FieldType.modular_content) as [Hm|Hm].
  { unfold mapField in H. rewrite Hm in H. simpl in H. unfold mapModularField in H.
    destruct (IField.value f) as [|x|n|l|] eqn:Hv; simpl in Hok, H;
      try discriminate Hok; try rewrite Hok in H; simpl in H.
    1-3: apply bind_Done_inv in H as ([] & h0 & Hwarn & Hret); injection Hret as <- ->;
         unfold when in Hwarn; destruct (logging this); injection Hwarn as <-; simpl;
         (split; [done|]); (split; [done|]); intros r' ? ?; lia.
    apply bind_Done_inv in H as (items & h0 & Hloop & Hret). injection Hret as <- ->.
    destruct (linkedItems_mirror f l _ _ _ _ Hloop) as (new & -> & Hp & Hall & Himg).
    split; [by exists new|]. done. }
  destruct (String.eqb_spec (IField.type f) FieldType.rich_text) as [Hr|Hr].
  { unfold mapField in H. rewrite Hr in H. simpl in H. unfold mapRichTextField in H.
    destruct (IField.links f) as [ls|] eqn:Hl; [|by destruct (IField.modular_content f) as [[]|]].
    assert (Hitems : match IField.modular_content f with
                     | Some codenames =>
                         forEach_push codenames (embeddedItemStep rec f mc qc) []
                     | None => ret []
                     end = ret []).
    { by destruct (IField.modular_content f) as [[]|]. }
    rewrite Hitems in H. unfold bind, ret, mapRichTextLinks in H. injection H as <- <-.
    split; [|split; [done|intros r' ? ?; lia]].
    unfold carries. simpl. by rewrite Hr. }
  destruct (mapField_value this rec f mc r qc h o (Hvalue Hm Hr) Hcon Ho) as (v' & Hmap & Hcar).
  rewrite Hmap in H. injection H as <- <-.
  split; [by split|]. split; [done|]. intros r' ? ?. lia.
Qed.

Lemma mapProperties_mirror (els : list (string * option IField.t)) (s : System.t) (r : ref)
    (l : list string) :
  (∀ k, k ∈ l → reserved k = false ∧ field_ok this mc (field_of els k) = true) →
  ∀ h h' o,
    store h !! r = Some o → get "system" o = Some (JSystem s) →
    get "propertyResolver" o = None →
    forEach l (mapProperty this rec els mc qc r) h = Done tt h' →
    ∃ o', store h' !! r = Some o' ∧ get "system" o' = Some (JSystem s) ∧
          (∀ k f, k ∈ l → field_of els k = Some f →
                  ∃ v, get k o' = Some v ∧ mirrors mc (store h') f v) ∧
          (∀ p, p ∉ l → get p o' = get p o) ∧
          codenames_kept (store h) (store h') ∧
          (length (store h) ≤ length (store h'))%nat ∧
          (∀ i, i ≠ r → i < length (store h) → store h' !! i = store h !! i) ∧
          (∀ r', (length (store h) ≤ r')%nat → r' < length (store h') →
                 imaged mc (store h') r').
Proof.
  induction l as [|k l IH]; intros Hl h h' o Ho Hs Hres H; simpl in H.
  - injection H as <-. exists o. split; [done|]. split; [done|].
    split; [intros k f Hk; by apply elem_of_nil in Hk|]. split; [done|].
    split; [apply codenames_kept_refl|]. split; [done|]. split; [done|]. intros r' ? ?. lia.
  - destruct (Hl k (list_elem_of_here _ _)) as [Hk Hok].
    apply bind_Done_inv in H as ([] & h1 & Hstep & H).
    unfold mapProperty in Hstep. fold (field_of els k) in Hstep.
    rewrite (bind_Done _ _ _ _ _ (read_ok h _ o Ho)) in Hstep.
    rewrite (bind_Done _ _ _ _ _ (resolvePropertyName_plain this o k h Hres
                                    (generic_decorators this Hgen o k))) in Hstep.
    apply bind_Done_inv in Hstep as (v & hm & Hfield & Hset).
    destruct (field_of els k) as [f|] eqn:Hf; [|done].
    destruct (mapField_mirrors f r h hm o v Hok Ho Hfield) as (Hmir & Hpre & Himg).
    assert (Hom : store hm !! r = Some o) by (by eapply prefix_lookup_Some).
    unfold set_property in Hset. rewrite Hom in Hset. injection Hset as <-.
    assert (Hr : r < length (store hm)) by (by eapply lookup_lt_Some).
    destruct (IH (λ k' Hk', Hl k' (list_elem_of_further _ _ _ Hk'))
                 {| store := <[r := set k v o]> (store hm); processed := processed hm;
                    console := console hm |} h' (set k v o))
      as (o' & Ho' & Hs' & Hkeys & Hother & Hkept & Hlen & Hsame & Hnew); simpl.
    { by apply list_lookup_insert_eq. }
    { rewrite get_set_ne; [done | by apply reserved_system]. }
    { rewrite get_set_ne; [done | by apply reserved_resolver]. }
    { exact H. }
    simpl in *. rewrite length_insert in Hlen, Hsame, Hnew.
    assert (Hk1 : codenames_kept (store hm) (store h')).
    { eapply codenames_kept_trans; [|exact Hkept]. by apply codenames_kept_insert. }
    pose proof (prefix_length _ _ Hpre) as Hlen0.
    exists o'. split; [done|]. split; [done|]. split; [|split; [|split; [|split; [|split]]]].
    + intros k' f' [->|Hk']%elem_of_cons Hf'; [|by apply Hkeys].
      destruct (decide (k ∈ l)) as [Hin|Hnin]; [by apply Hkeys|].
      rewrite (Hother k Hnin), get_set_eq. exists v. split; [done|].
      assert (f' = f) as -> by congruence. by eapply mirrors_kept.
    + intros p [Hpk Hpl]%not_elem_of_cons. rewrite (Hother p Hpl). by apply get_set_ne.
    + eapply codenames_kept_trans; [by apply codenames_kept_prefix | exact Hk1].
    + lia.
    + intros i Hi Hlt. rewrite Hsame by (done || lia).
      rewrite list_lookup_insert_ne by done. symmetry. by apply prefix_lookup_lt.
    + intros r' Hge Hlt. destruct (decide (r' < length (store hm))) as [Hlt1|Hge1].
      * assert (Hr0 : r < length (store h)) by (by eapply lookup_lt_Some).
        assert (r' ≠ r) by lia.
        eapply imaged_kept; [exact Hk1 | | by apply Himg].
        rewrite Hsame by done. by apply list_lookup_insert_ne.
      * apply Hnew; [lia | done].
Qed.

Lemma mapFields_body_images (X : RawItem) (h h' : Heap) (r : ref) :
  item_ok this mc X = true →
  mapFields_body this rec (Some X) mc qc PArray h = Done r h' → call_images mc X h r h'.
Proof.
  intros HX H. unfold mapFields_body in H.
  destruct (item_ok_inv this mc X HX) as (s & els & Hs & Hels & Hkeys).
  rewrite (bind_Done _ _ _ _ _ (checkArguments_pass X s els h Hs Hels)) in H.
  apply bind_Done_inv in H as (r0 & h1 & Halloc & H). injection Halloc as <- <-.
  apply bind_Done_inv in H as (res & h2 & Hfind & H).
  unfold find_processed in Hfind. simpl in Hfind.
  destruct (find_in (store h ++ [newTypedItem this s X]) (Some s) (processed h))
    as [found|]; [|done]. injection Hfind as <- <-.
  apply bind_Done_inv in H as ([] & h3 & Hpush & H).
  assert (Hst : store h3 = store h ++ [newTypedItem this s X]).
  { destruct found; by injection Hpush as <-. }
  apply bind_Done_inv in H as ([] & h4 & Hloop & H). injection H as <- ->.
  destruct (mapProperties_mirror els s (length (store h)) (keys els) Hkeys h3 h'
              (newTypedItem this s X))
    as (o' & Ho' & Hs' & Hk' & _ & Hkept & Hlen & Hsame & Hnew).
  { rewrite Hst. by apply list_lookup_middle. }
  { by apply Hsys. }
  { apply (generic_resolver this Hgen). }
  { exact Hloop. }
  rewrite Hst, length_app in Hlen, Hsame, Hnew. simpl in Hlen, Hsame, Hnew.
  split; [done|]. split; [|split].
  - apply prefix_of_lookup; [lia|]. intros i Hi.
    rewrite Hsame by lia. by apply lookup_app_l.
  - exists o'. split; [done|]. split; [by exists s|].
    intros els' k f Hels' Hk Hf. rewrite Hels in Hels'. injection Hels' as <-.
    by apply Hk'.
  - intros r' Hgt Hlt. apply Hnew; [lia | done].
Qed.

End Mirror.

Lemma mapFields_call_images (this : Collaborators) (mc : gmap string RawItem)
    (qc : IItemQueryConfig) (fuel : nat) :
  (∀ s X, system X = Some s → get "system" (newTypedItem this s X) = Some (JSystem s)) →
  generic_items this →
  (∀ c Y, mc !! c = Some Y →
          item_ok this mc Y = true ∧ System.codename <$> system Y = Some c) →
  ∀ X h r h', item_ok this mc X = true →
              mapFields this fuel (Some X) mc qc PArray h = Done r h' →
              call_images mc X h r h'.
Proof.
  intros Hsys Hgen Hmc. induction fuel as [|n IH]; intros X h r h' HX H; [done|].
  simpl in H. eapply (mapFields_body_images this (mapFields this n) mc qc); try done;
    try (intros ? ? ?; apply mapFields_prototypeMember).
  intros c Y h0 r0 h0' Hc. apply IH. by destruct (Hmc c Y Hc).
Qed.

(** X28. The typed graph mirrors the raw graph. For a response whose
    items are well formed and linked through linked-items elements
    ([graph_ok]: among other things no listed codename is left to the
    prototype of the payload, and the constructors of the asset and
    taxonomy field objects accept the values), a type registry that
    builds typed items with the raw system attributes ([registry_ok]) and
    items that are mapped under the codenames of their elements
    ([generic_items]), the pass from an empty heap returns, and when it
    has returned every typed item is the image of a raw item: the
    returned one of the root, every other one of an item of the payload.
    The image has the system attributes of the raw item and, under the
    codename of every element, what the element stands for: for a
    linked-items element the list of the typed items that answer, one by
    one and in the order of the element, to the listed codenames that the
    payload has, or [null] for an element without a value; for any other
    element the field object of its type with the raw name and value. *)
Theorem mapFields_mirrors_graph (this : Collaborators) (mc : gmap string RawItem)
    (root : RawItem) (qc : IItemQueryConfig) :
  registry_ok this → graph_ok this mc root → generic_items this →
  ∃ r h,
    (∀ fuel, size (dom mc) < fuel →
             mapFields this fuel (Some root) mc qc PArray empty_heap = Done r h) ∧
    (∃ o, store h !! r = Some o ∧ image_of mc (store h) root o) ∧
    (∀ r' o', r' ≠ r → store h !! r' = Some o' →
              ∃ c Y, mc !! c = Some Y ∧ image_of mc (store h) Y o').
Proof.
  intros Hreg Hgraph Hgen.
  destruct (mapFields_pass this mc root qc Hreg Hgraph) as (s & r & h & _ & Hrun & _).
  exists r, h. split; [done|].
  destruct (mapFields_call_images this mc qc (S (size (dom mc)))
              (created_system this Hreg) Hgen (items_ok this mc root Hgraph) root
              empty_heap r h (root_ok this mc root Hgraph) (Hrun _ (Nat.lt_succ_diag_r _)))
    as (Hr & _ & Hroot & Hrest).
  split; [done|]. intros r' o' Hne Ho'. simpl in Hr, Hrest. subst r.
  destruct (Hrest r') as (c & Y & o'' & HY & Ho'' & Him); [lia | by eapply lookup_lt_Some|].
  exists c, Y. split; [done|]. congruence.
Qed.

Lemma plainMapper_generic (log : bool) : generic_items (plainMapper log).
Proof.
  split; [|done]. intros s X. unfold newTypedItem. simpl. unfold plainItem.
  by destruct (system X).
Qed.

Lemma mapFields_mirrors_graph_witness :
  ∃ r h,
    (∀ fuel, size (dom friends) < fuel →
             mapFields (plainMapper false) fuel (Some ann) friends noLinkResolver PArray
               empty_heap = Done r h) ∧
    (∃ o, store h !! r = Some o ∧ image_of friends (store h) ann o) ∧
    (∀ r' o', r' ≠ r → store h !! r' = Some o' →
              ∃ c Y, friends !! c = Some Y ∧ image_of friends (store h) Y o').
Proof.
  exact (mapFields_mirrors_graph (plainMapper false) friends ann noLinkResolver
           (plainMapper_ok false) (friends_ok false) (plainMapper_generic false)).
Defined.

(** ** Cycles through linked-items elements *)




End FieldMapServiceMore.

(** * The element mapper, the element query, the management paths and
    the text helper *)

Module GenericElementMapperProps.
Import GenericElementMapper.

(** X21. [mapElement] throws for a falsy response and for nothing else.
    What it returns keeps the codename, name, type and taxonomy group of
    the contract, and its options are always a list: two contracts map to
    the same element exactly when they agree on these four and on their
    options, where options that are left out count as the empty list. *)
Theorem mapElement_keeps_all_but_absent_options {O : Type} :
  (∀ response : option (Contract.t O),
     match mapElement response with
     | inl e => response = None ∧ e = Error "Invalid response for mapping element"
     | inr element => ∃ contract, response = Some contract ∧
         GenericElement.codename O element = Contract.codename O contract ∧
         GenericElement.name O element = Contract.name O contract ∧
         GenericElement.type O element = Contract.type O contract ∧
         GenericElement.taxonomyGroup O element = Contract.taxonomy_group O contract ∧
         GenericElement.options O element = default [] (Contract.options O contract)
     end) ∧
  (∀ a b : Contract.t O,
     mapElement (Some a) = mapElement (Some b) ↔
     Contract.codename O a = Contract.codename O b ∧
     Contract.name O a = Contract.name O b ∧
     Contract.type O a = Contract.type O b ∧
     Contract.taxonomy_group O a = Contract.taxonomy_group O b ∧
     default [] (Contract.options O a) = default [] (Contract.options O b)).
Proof.
  split.
  - intros [contract|]; simpl; [|done]. exists contract.
    repeat (split; [done|]). by destruct (Contract.options O contract).
  - intros [ca na ta oa ga] [cb nb tb ob gb]. simpl. split.
    + intros [= -> -> -> Ho ->]. repeat (split; [done|]).
      by destruct oa, ob.
    + intros (-> & -> & -> & -> & Ho). do 2 f_equal.
      by destruct oa, ob.
Qed.

End GenericElementMapperProps.

Module UrlPathsProps.
Import Stdlib.Strings.Ascii.
Import UrlPaths.

Lemma segments_slashFree (s : string) : slashFree s = true → segments s = [s].
Proof.
  induction s as [|c s IH]; simpl; [done|]. intros [Hc Hs]%andb_true_iff.
  apply negb_true_iff in Hc. rewrite Hc, (IH Hs). done.
Qed.

Lemma append_cons (c : ascii) (s t : string) : String c s +:+ t = String c (s +:+ t).
Proof. reflexivity. Qed.

Lemma append_nil (t : string) : EmptyString +:+ t = t.
Proof. reflexivity. Qed.

Lemma append_inj (p a b : string) : p +:+ a = p +:+ b → a = b.
Proof.
  induction p as [|c p IH]; [done|]. rewrite !append_cons. intros [= H]. by apply IH.
Qed.

Lemma segments_nonnil (s : string) : segments s ≠ [].
Proof.
  destruct s as [|c s]; simpl; [done|].
  destruct (Ascii.eqb c "/"); [done|]. by destruct (segments s).
Qed.

Lemma segments_app_slash (a b : string) :
  slashFree a = true → segments (a +:+ String "/" b) = a :: segments b.
Proof.
  induction a as [|c a IH]; simpl; [done|]. intros [Hc Ha]%andb_true_iff.
  apply negb_true_iff in Hc. rewrite Hc, (IH Ha). done.
Qed.

End UrlPathsProps.

Module ElementQueryProps.
Import Stdlib.Strings.Ascii.
Import UrlPaths UrlPathsProps ElementQuery.

(** X22. The constructor of [ElementQuery] accepts exactly the pairs of
    non-empty codenames and keeps them as they are; the type codename is
    checked first, so that when both are empty the error is the one
    about the type. *)
Theorem ElementQuery_new_guards (typeCodename' elementCodename' : string) :
  match new typeCodename' elementCodename' with
  | inr query =>
      typeCodename' ≠ EmptyString ∧ elementCodename' ≠ EmptyString ∧
      typeCodename query = typeCodename' ∧ elementCodename query = elementCodename'
  | inl e =>
      (typeCodename' = EmptyString ∧ e = Error "Codename of the type has to be provided") ∨
      (typeCodename' ≠ EmptyString ∧ elementCodename' = EmptyString ∧
       e = Error "Codename of the element has to be provided")
  end.
Proof.
  unfold new, nonempty.
  destruct (String.eqb_spec typeCodename' EmptyString) as [->|Ht]; simpl; [by left|].
  destruct (String.eqb_spec elementCodename' EmptyString) as [->|He]; simpl; [by right|].
  done.
Qed.

Lemma action_segments (query : t) :
  slashFree (typeCodename query) = true →
  segments (action query) =
    EmptyString :: "types" :: typeCodename query :: "elements" ::
    segments (elementCodename query).
Proof.
  intros Ht. unfold action.
  change ("/types/" +:+ typeCodename query +:+ "/elements/" +:+ elementCodename query)
    with (EmptyString +:+ String "/" ("types" +:+ String "/"
            (typeCodename query +:+ String "/"
               ("elements" +:+ String "/" (elementCodename query))))).
  rewrite (segments_app_slash EmptyString _ eq_refl), (segments_app_slash "types" _ eq_refl),
    (segments_app_slash _ _ Ht), (segments_app_slash "elements" _ eq_refl).
  done.
Qed.

Lemma segments_inj (a b : string) : segments a = segments b → a = b.
Proof.
  revert b. induction a as [|c a IH]; intros [|d b]; simpl; [done| | |].
  - destruct (Ascii.eqb d "/").
    + intros [= H]. by destruct (segments_nonnil b).
    + by destruct (segments b).
  - destruct (Ascii.eqb c "/").
    + intros [= H]. by destruct (segments_nonnil a).
    + by destruct (segments a).
  - destruct (Ascii.eqb_spec c "/") as [->|Hc], (Ascii.eqb_spec d "/") as [->|Hd].
    + intros [= H]. by rewrite (IH _ H).
    + by destruct (segments b).
    + by destruct (segments a).
    + destruct (segments a) as [|sa ra] eqn:Ha; [by destruct (segments_nonnil a)|].
      destruct (segments b) as [|sb rb] eqn:Hb; [by destruct (segments_nonnil b)|].
      intros [= -> -> ->]. rewrite (IH b); [done | congruence].
Qed.

(** X23. Queries whose type codenames hold no slash ask for different
    urls unless they are the same query, provided the base query builds
    different urls from different actions. The codenames are put into
    the action as they are: with a slash in a type codename, two
    different queries share their action. *)
Theorem ElementQuery_getUrl_injective (resolveUrlInternal : string → string) :
  (∀ a b, resolveUrlInternal a = resolveUrlInternal b → a = b) →
  (∀ q1 q2 : t,
     slashFree (typeCodename q1) = true → slashFree (typeCodename q2) = true →
     getUrl resolveUrlInternal q1 = getUrl resolveUrlInternal q2 → q1 = q2) ∧
  (∀ type element rest,
     getUrl resolveUrlInternal
       {| typeCodename := type +:+ "/elements/" +:+ element; elementCodename := rest |} =
     getUrl resolveUrlInternal
       {| typeCodename := type; elementCodename := element +:+ "/elements/" +:+ rest |}).
Proof.
  intros Hinj. split.
  - intros [t1 e1] [t2 e2] H1 H2 H. apply Hinj in H. simpl in *.
    apply (f_equal segments) in H.
    rewrite (action_segments {| typeCodename := t1; elementCodename := e1 |} H1),
            (action_segments {| typeCodename := t2; elementCodename := e2 |} H2) in H.
    simpl in H. injection H as -> H. by rewrite (segments_inj _ _ H).
  - intros type element rest. unfold getUrl, action. simpl. do 2 f_equal.
    assert (Hassoc : ∀ a b c : string, (a +:+ b) +:+ c = a +:+ (b +:+ c)).
    { intros a b c. induction a as [|x a IH]; [done|].
      rewrite !append_cons. by rewrite IH. }
    rewrite !Hassoc. done.
Qed.

Lemma ElementQuery_getUrl_injective_witness :
  (∀ a b, "https://deliver.kontent.ai/project" +:+ a =
          "https://deliver.kontent.ai/project" +:+ b → a = b) ∧
  (∀ q1 q2 : t,
     slashFree (typeCodename q1) = true → slashFree (typeCodename q2) = true →
     getUrl (String.append "https://deliver.kontent.ai/project") q1 =
     getUrl (String.append "https://deliver.kontent.ai/project") q2 → q1 = q2).
Proof.
  assert (Hinj : ∀ a b, "https://deliver.kontent.ai/project" +:+ a =
                        "https://deliver.kontent.ai/project" +:+ b → a = b).
  { intros a b H. by eapply append_inj. }
  split; [exact Hinj|].
  exact (proj1 (ElementQuery_getUrl_injective
                  (String.append "https://deliver.kontent.ai/project") Hinj)).
Defined.

End ElementQueryProps.

Module ManagementRoutesProps.
Import Stdlib.Strings.Ascii.
Import UrlPaths UrlPathsProps ContentManagementContentItemActions ManagementRoutes.

Create HintDb actions.
#[local] Hint Unfold path validateProjectContent listContentTypes viewContentTypeByInternalId deleteContentTypeByCodename deleteContentTypeByInternalId viewContentTypeByCodename addTaxonomy deleteTaxonomyByCodename deleteTaxonomyByInternalId deleteTaxonomyByExternalId listTaxonomies addAsset updateAsset deleteAssetByCodename deleteAssetByInternalId deleteAssetByExternalId upsertAsset uploadBinaryFile listAssets viewAssetByInternalId viewAssetByExternalId items viewContentItemByCodename viewContentItemByInternalId viewContentItemByExternalId addContentItem updateContentItemByCodename updateContentItemByInternalId updateContentItemByExternalId deleteContentItemByCodename deleteContentItemByInternalId deleteContentItemByExternalId listLanguageVariantsByCodename listLanguageVariantsByInternalId listLanguageVariantsByExternalId : actions.

Lemma path_route (a : Action) : wellFormed a = true → segments (path a) = route (endpoint a).
Proof.
  unfold wellFormed.
  destruct a; simpl; intros Hw; try apply andb_true_iff in Hw as [Hw _];
    autounfold with actions; rewrite ?append_cons, ?append_nil; simpl;
    rewrite ?(segments_app_slash _ _ Hw), ?(segments_slashFree _ Hw); reflexivity.
Qed.

Lemma route_endpoint_inj (a b : Action) :
  wellFormed a = true → wellFormed b = true →
  route (endpoint a) = route (endpoint b) → endpoint a = endpoint b.
Proof.
  unfold wellFormed.
  destruct a, b; simpl; intros Ha Hb H; try discriminate H; simplify_eq;
    try reflexivity; try (by vm_compute in Ha); try (by vm_compute in Hb).
Qed.

(** X24. The path of an action is made of the name of the resource,
    then what addresses the member (the internal id or the file name
    alone, the codename after [codename], the external id after
    [external-id]), then [variants] for the language variants. For
    identifiers that hold no slash, and internal ids that are none of the
    words [codename] and [external-id], two actions have the same path
    exactly when they address the same resource: actions for different
    resources never meet on one path. *)
Theorem path_determines_endpoint (a b : Action) :
  wellFormed a = true → wellFormed b = true →
  segments (path a) = route (endpoint a) ∧
  (path a = path b ↔ endpoint a = endpoint b).
Proof.
  intros Ha Hb. split; [by apply path_route|]. split.
  - intros H. apply (f_equal segments) in H.
    rewrite (path_route a Ha), (path_route b Hb) in H. by apply route_endpoint_inj.
  - clear Ha Hb. destruct a, b; simpl; intros H; try discriminate H;
      try reflexivity; injection H as ->; reflexivity.
Qed.

Lemma path_determines_endpoint_witness :
  segments (path (ListLanguageVariantsByInternalId "f4b3fc05")) =
    ["items"; "f4b3fc05"; "variants"] ∧
  (path (UpdateContentItemByCodename "warrior") = path (DeleteContentItemByCodename "warrior") ↔
   endpoint (UpdateContentItemByCodename "warrior") =
   endpoint (DeleteContentItemByCodename "warrior")).
Proof.
  split.
  - exact (proj1 (path_determines_endpoint (ListLanguageVariantsByInternalId "f4b3fc05")
                    (ListLanguageVariantsByInternalId "f4b3fc05") eq_refl eq_refl)).
  - exact (proj2 (path_determines_endpoint (UpdateContentItemByCodename "warrior")
                    (DeleteContentItemByCodename "warrior") eq_refl eq_refl)).
Defined.

(** X25. The identifiers are put into the paths as they are. An internal
    id that starts with [codename/] or [external-id/] gives the path of
    the item with that codename or external id; an internal id that ends
    in [/variants] gives the path of the language variants; and the
    language variants of the item whose internal id is the word
    [codename] have the path of the item whose codename is [variants]. *)
Theorem path_confusion :
  (∀ codename, viewContentItemByInternalId ("codename/" +:+ codename) =
               viewContentItemByCodename codename) ∧
  (∀ id, deleteContentItemByInternalId ("external-id/" +:+ id) =
         deleteContentItemByExternalId id) ∧
  (∀ id, updateContentItemByInternalId (id +:+ "/variants") =
         listLanguageVariantsByInternalId id) ∧
  listLanguageVariantsByInternalId "codename" = viewContentItemByCodename "variants" ∧
  ¬ (∀ a b, path a = path b → endpoint a = endpoint b).
Proof.
  split; [done|]. split; [done|]. split; [done|]. split; [done|].
  intros H.
  by specialize (H (ListLanguageVariantsByInternalId "codename")
                   (ViewContentItemByCodename "variants") eq_refl).
Qed.

End ManagementRoutesProps.

Module TextHelperProps.
Import TextHelper.

Lemma zeroWidth_class (c : N) :
  classMatches [Range 0x200B 0x200D; Lit 0xFEFF] c = true ↔
  c ∈ [0x200B; 0x200C; 0x200D; 0xFEFF]%N.
Proof.
  unfold classMatches. simpl. rewrite orb_false_r, orb_true_iff, andb_true_iff.
  rewrite N.leb_le, N.leb_le, N.eqb_eq, !elem_of_cons, elem_of_nil. lia.
Qed.

Lemma removeZeroWidthCharacters_elem (str : JsString) (c : N) :
  c ∈ removeZeroWidthCharacters str ↔ c ∈ str ∧ c ∉ [0x200B; 0x200C; 0x200D; 0xFEFF]%N.
Proof.
  unfold removeZeroWidthCharacters, replaceAllWithEmpty.
  rewrite <- zeroWidth_class, not_true_iff_false, <- negb_true_iff. split.
  - intros H. apply list_elem_of_In, filter_In in H as [H ?]. by apply list_elem_of_In in H.
  - intros [H ?]. apply list_elem_of_In, filter_In. by apply list_elem_of_In in H.
Qed.

(** X26. [removeZeroWidthCharacters] drops the code units U+200B,
    U+200C, U+200D and U+FEFF and nothing else: every other code unit is
    kept, in order. It is idempotent, it distributes over concatenation,
    and it returns the string as it is exactly when none of the four
    occurs in it. *)
Theorem removeZeroWidthCharacters_spec (str : JsString) :
  (∀ c, c ∈ removeZeroWidthCharacters str ↔
        c ∈ str ∧ c ∉ [0x200B; 0x200C; 0x200D; 0xFEFF]%N) ∧
  removeZeroWidthCharacters str `sublist_of` str ∧
  removeZeroWidthCharacters (removeZeroWidthCharacters str) = removeZeroWidthCharacters str ∧
  (∀ more, removeZeroWidthCharacters (str ++ more) =
           removeZeroWidthCharacters str ++ removeZeroWidthCharacters more) ∧
  (removeZeroWidthCharacters str = str ↔
   ∀ c, c ∈ str → c ∉ [0x200B; 0x200C; 0x200D; 0xFEFF]%N).
Proof.
  split; [apply removeZeroWidthCharacters_elem|]. split; [|split; [|split]].
  - unfold removeZeroWidthCharacters, replaceAllWithEmpty.
    induction str as [|c str IH]; simpl; [done|].
    destruct (negb _); [by apply sublist_skip | by apply sublist_cons].
  - unfold removeZeroWidthCharacters, replaceAllWithEmpty.
    induction str as [|c str IH]; simpl; [done|].
    destruct (negb _) eqn:E; simpl; rewrite ?E; [f_equal; exact IH | exact IH].
  - intros more. apply List.filter_app.
  - split.
    + intros H c Hc. rewrite <- H in Hc. by apply removeZeroWidthCharacters_elem in Hc as [_ ?].
    + intros H. unfold removeZeroWidthCharacters, replaceAllWithEmpty.
      induction str as [|c str IH]; [done|]. cbn [List.filter].
      assert (Hc : classMatches [Range 0x200B 0x200D; Lit 0xFEFF] c = false).
      { apply not_true_iff_false. rewrite zeroWidth_class. apply H, list_elem_of_here. }
      rewrite Hc. cbn [negb]. f_equal. apply IH. intros x Hx.
      by apply H, list_elem_of_further.
Qed.

Ltac all_false :=
  lazymatch goal with
  | |- (_ || _)%bool = false => apply orb_false_intro; all_false
  | |- (_ && _)%bool = false =>
      apply andb_false_iff; first [left; all_false | right; all_false]
  | |- (_ =? _)%N = false => apply N.eqb_neq; lia
  | |- (_ <=? _)%N = false => apply N.leb_gt; lia
  | |- false = false => reflexivity
  end.

(** X27. The two versions of the regular expression for property names
    differ in their character class. In the version of part_006 the
    hyphen between the colon and the underscore makes a range, so that
    its class holds, besides every code unit of the class of part_005,
    the code units from U+003B to U+005E other than the equals sign and
    the question mark (which both classes hold): the semicolon, the angle
    brackets, the at sign, the square brackets, the backslash, the caret
    and every upper-case Latin letter, none of which is a separator for
    part_005. *)
Theorem getPropertyNameRegex_classes (c : N) :
  classMatches (separators getPropertyNameRegex_part_006) c =
    (classMatches (separators getPropertyNameRegex) c ||
     ((0x3B <=? c) && (c <=? 0x5E) && negb (c =? 0x3D) && negb (c =? 0x3F))%N) ∧
  ((0x41 ≤ c ∧ c ≤ 0x5A)%N →
     classMatches (separators getPropertyNameRegex_part_006) c = true ∧
     classMatches (separators getPropertyNameRegex) c = false).
Proof.
  split.
  - unfold classMatches. simpl. generalize (isWhiteSpace c). intros w.
    repeat match goal with
           | |- context [(c =? ?k)%N] =>
               destruct (N.eqb_spec c k) as [->|?]; [by destruct w|]
           end.
    simpl.
    destruct (N.leb_spec 0x3A c), (N.leb_spec c 0x5F), (N.leb_spec 0x3B c),
      (N.leb_spec c 0x5E); simpl; try lia; by destruct w.
  - intros [Hlo Hhi]. unfold classMatches. simpl. split.
    + assert (((0x3A <=? c) && (c <=? 0x5F))%N = true) as ->.
      { apply andb_true_iff. split; apply N.leb_le; lia. }
      by rewrite !orb_true_r.
    + unfold isWhiteSpace. all_false.
Qed.

Lemma getPropertyNameRegex_classes_witness :
  classMatches (separators getPropertyNameRegex_part_006) 0x4E = true ∧
  classMatches (separators getPropertyNameRegex) 0x4E = false.
Proof.
  apply (proj2 (getPropertyNameRegex_classes 0x4E)). lia.
Defined.

End TextHelperProps.
